(** * Unplayer: the library index of [src/libraryutils.cpp]

    A shallow embedding of the library reconciliation code
    ([LibraryUtils::updateDatabase] and its helpers), of the artwork
    resolver ([getTrackMediaArt], [saveEmbeddedMediaArt],
    [findMediaArtForDirectory]) and of the read-only queries, followed by
    the properties of the specification stated and settled on it.

    Conventions.
    - A [QString] of which the code reads the characters only (a path, a
      name, a suffix) is a Rocq [string]: Qt compares a null and an empty
      [QString] as equal and [isEmpty] holds of both.  Where the null
      [QString] is told from an empty one, in the values of the tag
      reader, the values bound to a statement, the text columns of the
      table and the arguments of the queries, the type is [Nullable]:
      [None] is [QString()], and SQL [NULL] once it is bound.
    - [int] and [long long] values are [Z]; [QVariant::toInt] is [toInt],
      with its 32-bit wrap-around written out.
    - A [QByteArray] of raw bytes is a [list byte]; a [QByteArray] holding
      the hexadecimal text of a digest is a [string].
    - Each [std::unordered_map] is a [gmap]; [insert] of the C++ container
      keeps an existing entry, which is [insertNew] below. *)

From Stdlib Require Import String Ascii ZArith List Lia Bool Sorted.
From stdpp Require Import gmap strings list fin_maps.

Local Open Scope Z_scope.

Abbreviation QString := string.
Abbreviation QByteArray := (list Byte.byte).

(** A [QString] that may be null, and a text column of the table, which
    may be [NULL]. *)
Abbreviation Nullable := (option QString).

(** ** Qt string and path operations *)

Module Qt.

(** [s.startsWith(p)] *)
Definition startsWith (s p : QString) : bool := String.prefix p s.

(** [s.endsWith(QLatin1Char(c))] *)
Fixpoint endsWithChar (s : QString) (c : ascii) : bool :=
  match s with
  | EmptyString => false
  | String a EmptyString => Ascii.eqb a c
  | String _ r => endsWithChar r c
  end.

(** [s.isEmpty()] *)
Definition isEmpty (s : QString) : bool :=
  match s with EmptyString => true | _ => false end.

(** [s.indexOf(sub)]: position of the first occurrence, if any. *)
Fixpoint indexOf (sub s : QString) : option nat :=
  if String.prefix sub s then Some 0%nat
  else match s with
       | EmptyString => None
       | String _ r => S <$> indexOf sub r
       end.

(** [s.contains(sub)] *)
Definition contains (s sub : QString) : bool :=
  match indexOf sub s with Some _ => true | None => false end.

(** [s.left(n)] *)
Fixpoint left (n : nat) (s : QString) : QString :=
  match n, s with
  | S k, String a r => String a (left k r)
  | _, _ => EmptyString
  end.

(** Split at the last occurrence of [c]: the text before it and after it. *)
Fixpoint splitLast (c : ascii) (s : QString) : option (QString * QString) :=
  match s with
  | EmptyString => None
  | String a r =>
      match splitLast c r with
      | Some (h, t) => Some (String a h, t)
      | None => if Ascii.eqb a c then Some (EmptyString, r) else None
      end
  end.

(** Split at the first occurrence of [c]. *)
Fixpoint splitFirst (c : ascii) (s : QString) : option (QString * QString) :=
  match s with
  | EmptyString => None
  | String a r =>
      if Ascii.eqb a c then Some (EmptyString, r)
      else match splitFirst c r with
           | Some (h, t) => Some (String a h, t)
           | None => None
           end
  end.

(** [QFileInfo(p).fileName()]: what follows the last separator. *)
Definition fileName (p : QString) : QString :=
  match splitLast "/" p with
  | Some (_, f) => f
  | None => p
  end.

(** [QFileInfo(p).path()]: what precedes the last separator; ["."] when
    there is none and ["/"] when it is the first character.  The library
    roots are absolute, so [absolutePath()] of an indexed file is the same
    string. *)
Definition path (p : QString) : QString :=
  match splitLast "/" p with
  | Some (EmptyString, _) => "/"
  | Some (d, _) => d
  | None => "."
  end.

(** [QFileInfo(p).suffix()]: what follows the last dot of the file name. *)
Definition suffix (p : QString) : QString :=
  match splitLast "." (fileName p) with
  | Some (_, e) => e
  | None => EmptyString
  end.

(** [QFileInfo(p).baseName()]: the file name up to its first dot. *)
Definition baseName (p : QString) : QString :=
  match splitFirst "." (fileName p) with
  | Some (b, _) => b
  | None => fileName p
  end.

(** [QDir(dir).filePath(name)] for a relative [name]. *)
Definition filePath (dir name : QString) : QString :=
  if isEmpty dir then name
  else if endsWithChar dir "/" then dir +:+ name
  else dir +:+ "/" +:+ name.

(** [QStringList::removeDuplicates]: the first occurrence of each string
    stays, in order. *)
Fixpoint removeDuplicatesFrom (seen : list QString) (l : list QString)
  : list QString :=
  match l with
  | [] => []
  | x :: r =>
      if bool_decide (x ∈ seen) then removeDuplicatesFrom seen r
      else x :: removeDuplicatesFrom (x :: seen) r
  end.

Definition removeDuplicates (l : list QString) : list QString :=
  removeDuplicatesFrom [] l.

(** [QVariant::toString] of a text column: no characters for [NULL]. *)
Definition toString (value : Nullable) : QString :=
  default EmptyString value.

(** [QVariant::toInt] of a 64-bit integer: truncation to 32 bits, read as
    a signed number. *)
Definition toInt (z : Z) : Z := (z + 2 ^ 31) mod 2 ^ 32 - 2 ^ 31.

End Qt.

(** ** Library and blacklist directories (the start of [updateDatabase]) *)

(** The body of the loop of [prepareDirs]. *)
Definition withSlash (dir : QString) : QString :=
  if Qt.endsWithChar dir "/" then dir else dir +:+ "/".

Definition prepareDirs (dirs : list QString) : list QString :=
  withSlash <$> Qt.removeDuplicates dirs.

Fixpoint isBlacklisted (blacklistedDirectories : list QString)
    (path : QString) : bool :=
  match blacklistedDirectories with
  | [] => false
  | directory :: rest =>
      if Qt.startsWith path directory then true
      else isBlacklisted rest path
  end.

(** The loop over [libraryDirectories] in the pre-scan check: [remove]
    stays [true] unless a library directory is a prefix of the path. *)
Fixpoint inLibrary (libraryDirectories : list QString) (filePath : QString)
  : bool :=
  match libraryDirectories with
  | [] => false
  | directory :: rest =>
      if Qt.startsWith filePath directory then true
      else inLibrary rest filePath
  end.

(** ** Data model *)

(** [tagutils::Info], what the tag reader returns for a file.  The reader
    is not part of [libraryutils.cpp]: each of its strings may be null. *)
Module tagutils.
Record Info := {
  title : Nullable;
  artists : list Nullable;
  albums : list Nullable;
  genres : list Nullable;
  year : Z;
  trackNumber : Z;
  discNumber : Nullable;
  duration : Z;
  mediaArtData : QByteArray
}.
End tagutils.

(** A row of the table [tracks].  [filePath] is bound from
    [QFileInfo::filePath], which is never null, and read with [toString];
    the other text columns hold what was bound, [NULL] included. *)
Record Track := {
  id : Z;
  filePath : QString;
  modificationTime : Z;
  title : Nullable;
  artist : Nullable;
  album : Nullable;
  year : Z;
  trackNumber : Z;
  discNumber : Nullable;
  genre : Nullable;
  duration : Z;
  mediaArtColumn : Nullable
}.

(** The column [mediaArt] as the code reads it,
    [query.value(3).toString()]. *)
Definition mediaArt (r : Track) : QString := Qt.toString (mediaArtColumn r).

Definition setMediaArtOf (a : Nullable) (r : Track) : Track :=
  {| id := id r; filePath := filePath r;
     modificationTime := modificationTime r; title := title r;
     artist := artist r; album := album r; year := year r;
     trackNumber := trackNumber r; discNumber := discNumber r;
     genre := genre r; duration := duration r; mediaArtColumn := a |}.

(** The SQL statements the code sends.  [InsertTracks] carries what the
    code builds: the number of value tuples written into the query text,
    the five numbers substituted for [%1]..[%5], and the bound values in
    the order of the [addBindValue] calls. *)
Inductive Statement :=
| DeleteTrack (i : Z)
| InsertTracks (count : nat) (i mtime yr tn dur : Z) (binds : list Nullable)
| SelectTracks
| UpdateMediaArt (art : Nullable) (i : Z)
| DeleteTracksIn (ids : list Z)
| ClearMediaArtIn (arts : list QString)
| SelectDistinctMediaArt
| DropTable
| CreateTable
| CountDistinctArtist
| CountDistinctAlbum
| CountDistinctId
| SumDuration
| SelectRandomMediaArt
| SelectRandomMediaArtForArtist (a : Nullable)
| SelectRandomMediaArtForAlbum (a al : Nullable)
| SelectRandomMediaArtForGenre (g : Nullable).

(** The store: the rows of [tracks] and every statement sent so far, in
    order. *)
Record Database := {
  tracks : list Track;
  journal : list Statement
}.

(** ** SQL semantics of the statements *)

Module Sql.

(** The rows of an [INSERT] with [count] tuples of seven placeholders:
    the bound values are consumed seven at a time, a null [QString] being
    stored as [NULL]; a statement whose number of bound values does not
    fit its placeholders fails. *)
Fixpoint boundRows (count : nat) (i mtime yr tn dur : Z)
    (binds : list Nullable) : option (list Track) :=
  match count with
  | O => match binds with [] => Some [] | _ => None end
  | S k =>
      match binds with
      | fp :: ti :: ar :: al :: dn :: ge :: ma :: rest =>
          cons {| id := i; filePath := Qt.toString fp;
                  modificationTime := mtime;
                  title := ti; artist := ar; album := al; year := yr;
                  trackNumber := tn; discNumber := dn; genre := ge;
                  duration := dur; mediaArtColumn := ma |}
            <$> boundRows k i mtime yr tn dur rest
      | _ => None
      end
  end.

(** [column IN (?, ...)] with the bound texts [values]: never true of
    [NULL]. *)
Definition isIn (column : Nullable) (values : list QString) : bool :=
  match column with
  | Some text => bool_decide (text ∈ values)
  | None => false
  end.

(** The effect on the rows of a statement that SQLite executes; [None]
    when the bound values do not fit the placeholders.  Whether SQLite
    executes the statement is not decided here but by [execOk] of the
    environment: its limits (a statement with more bound values than
    [SQLITE_MAX_VARIABLE_NUMBER] is refused), the disk and locks. *)
Definition apply (st : Statement) (rows : list Track)
  : option (list Track) :=
  match st with
  | DeleteTrack i => Some (filter (λ r, id r ≠ i) rows)
  | InsertTracks count i mtime yr tn dur binds =>
      (λ new, rows ++ new) <$> boundRows count i mtime yr tn dur binds
  | UpdateMediaArt art i =>
      Some ((λ r, if bool_decide (id r = i) then setMediaArtOf art r else r)
              <$> rows)
  | DeleteTracksIn ids => Some (filter (λ r, id r ∉ ids) rows)
  | ClearMediaArtIn arts =>
      Some ((λ r, if isIn (mediaArtColumn r) arts
                  then setMediaArtOf (Some EmptyString) r else r) <$> rows)
  | DropTable => Some []
  | _ => Some rows
  end.

(** [GROUP BY id ORDER BY id]: one row per id, ascending.  SQLite takes
    the other columns from a row of the group that it chooses; the model
    takes the first in table order. *)
Fixpoint insertById (r : Track) (acc : list Track) : list Track :=
  match acc with
  | [] => [r]
  | x :: rest =>
      if id r <? id x then r :: acc
      else if id r =? id x then acc
      else x :: insertById r rest
  end.

Definition groupById (rows : list Track) : list Track :=
  foldl (λ acc r, insertById r acc) [] rows.

(** [COLLATE NOCASE]: the 26 upper-case ASCII letters are folded. *)
Definition foldCase (c : ascii) : ascii :=
  let n := nat_of_ascii c in
  if ((65 <=? n) && (n <=? 90))%nat then ascii_of_nat (n + 32) else c.

Fixpoint nocase (s : QString) : QString :=
  match s with
  | EmptyString => EmptyString
  | String c r => String (foldCase c) (nocase r)
  end.

(** The values kept by [DISTINCT] (or [GROUP BY]) over one column. *)
Fixpoint distinct (l : list QString) : list QString :=
  match l with
  | [] => []
  | x :: r => x :: filter (λ y, y ≠ x) (distinct r)
  end.

(** [SELECT DISTINCT(mediaArt) FROM tracks WHERE mediaArt != '']: the
    comparison is true neither of [NULL] nor of the empty text. *)
Definition distinctMediaArt (rows : list Track) : list QString :=
  distinct (filter (λ a, a ≠ EmptyString) (mediaArt <$> rows)).

(** [column = ?]: true of no [NULL], on either side; [fold] is the
    collation of the column. *)
Definition equal (fold : QString → QString) (column bound : Nullable)
  : bool :=
  match column, bound with
  | Some text, Some value => String.eqb (fold text) (fold value)
  | _, _ => false
  end.

End Sql.

(** ** The environment of a scan

    Everything the code obtains from outside [libraryutils.cpp]: the
    settings, the file system outside the media art directory, the content
    classifier ([QMimeDatabase]), the tag reader ([tagutils::getTrackInfo]),
    the digest ([QCryptographicHash]) and the outcome of each fallible
    call.  The files of the media art directory, which the scan writes and
    removes, are state and not part of it. *)
Record World := {
  (** [Settings::instance()] *)
  libraryDirectories : list QString;
  blacklistedDirectories : list QString;
  useDirectoryMediaArt : bool;
  (** member of [LibraryUtils] *)
  mMediaArtDirectory : QString;
  (** [QFileInfo] and [QDir] outside the media art directory *)
  fileExists : QString → bool;
  isDir : QString → bool;
  isFile : QString → bool;
  isReadable : QString → bool;
  lastModified : QString → Z;
  (** [QDir(d).entryList(QDir::Files | QDir::Readable)] *)
  entryList : QString → list QString;
  (** the paths [QDirIterator(d, Subdirectories | FollowSymlinks)] yields *)
  dirIterator : QString → list QString;
  (** [QMimeDatabase::mimeTypeForFile(path, MatchContent).name()] *)
  mimeTypeForFile : QString → QString;
  (** [tagutils::getTrackInfo(fileInfo, mimeType)] *)
  getTrackInfo : QString → QString → tagutils.Info;
  (** [QCryptographicHash::hash(data, Md5).toHex()] *)
  md5Hex : QByteArray → string;
  (** [mMimeDb.mimeTypeForData(data).preferredSuffix()] *)
  preferredSuffix : QByteArray → QString;
  (** whether [QDir().mkpath(dataDir)] succeeds *)
  mkpathData : bool;
  (** whether [db.open()] succeeds *)
  databaseOpens : bool;
  (** the field names of [db.record("tracks")] when [db.tables()] has
      [tracks] *)
  storedFields : option (list QString);
  (** whether the n-th statement sent to the store succeeds; when it
      does not, SQLite undoes that statement alone *)
  execOk : nat → bool;
  (** whether [QFile(path).open(WriteOnly | Truncate)] succeeds *)
  openForWrite : QString → bool;
  (** whether [QFile::remove(path)] succeeds *)
  removeOk : QString → bool;
  (** [qApp] becomes null after that many directory entries, if ever *)
  shutdownAfter : option nat
}.

(** The regular files of the media art directory: full path to content. *)
Abbreviation MediaArtDir := (gmap QString QByteArray).

(** [m.insert({k, v})] of a [std::unordered_map]: an existing entry stays. *)
Definition insertNew `{Countable K} {V} (k : K) (v : V) (m : gmap K V)
  : gmap K V :=
  match m !! k with
  | Some _ => m
  | None => <[k := v]> m
  end.

(** [if (string.isNull()) return QString(); return string;]: the string
    returned for the null one is [QString()], which is null. *)
Definition emptyIfNull (string : Nullable) : Nullable :=
  match string with
  | None => None
  | Some _ => string
  end.

Definition mimeTypesExtensions : list QString :=
  ["flac"; "aac"; "m4a"; "f4a"; "m4b"; "f4b"; "mp3"; "mpga"; "oga"; "ogg";
   "opus"; "ape"; "mka"; "wav"; "wv"; "wvp"].

Definition mimeTypesByContent : list QString :=
  ["audio/flac"; "audio/mp4"; "audio/x-m4b"; "audio/mpeg";
   "audio/x-vorbis+ogg"; "audio/x-flac+ogg"; "audio/x-opus+ogg";
   "audio/x-ape"; "application/x-matroska"; "audio/x-wav";
   "audio/x-wavpack"].

(** [contains(container, value)] of [stdutils.h] *)
Definition contains (container : list QString) (value : QString) : bool :=
  bool_decide (value ∈ container).

(** ** [updateTrackInDatabase] *)

(** The bound values are collected in the order of the [addBindValue]
    calls; for an empty list [exec] is called once, with [QString()]. *)
Definition forEachOrOnce (strings : list Nullable)
    (exec : Nullable → list Nullable) : list Nullable :=
  match strings with
  | [] => exec None
  | _ => strings ≫= exec
  end.

Definition sizeOrOne (strings : list Nullable) : nat :=
  match strings with
  | [] => 1%nat
  | _ => length strings
  end.

(** The media art the resolver answered, as the [QString] it is: the
    resolver answers [QString()] or a path that is not empty (a file path
    of a listing, or one built with the directory in front), so its empty
    answer is the null string. *)
Definition answered (mediaArt : QString) : Nullable :=
  if Qt.isEmpty mediaArt then None else Some mediaArt.

(** The [INSERT] statement as prepared and bound by the code. *)
Definition insertStatement (i : Z) (path : QString) (mtime : Z)
    (info : tagutils.Info) (art : QString) : Statement :=
  InsertTracks
    (sizeOrOne (tagutils.artists info) * sizeOrOne (tagutils.albums info)
     * sizeOrOne (tagutils.genres info))
    i mtime (tagutils.year info) (tagutils.trackNumber info)
    (tagutils.duration info)
    (forEachOrOnce (tagutils.artists info) (λ artist,
       forEachOrOnce (tagutils.albums info) (λ album,
         forEachOrOnce (tagutils.genres info) (λ genre,
           [Some path; tagutils.title info; emptyIfNull artist;
            emptyIfNull album; emptyIfNull (tagutils.discNumber info);
            emptyIfNull genre; emptyIfNull (answered art)])))).

Section Engine.

Context (w : World).

(** [query.exec()]: the statement is recorded; it takes effect unless the
    environment fails it or the store rejects it.  A failure is one that
    SQLite confines to the statement: the rows are as before it and the
    transaction of the scan stays open.  A failure on which SQLite rolls
    the whole transaction back (a full disk, an I/O error) is outside the
    model. *)
Definition exec (st : Statement) (db : Database) : bool * Database :=
  let sent := journal db ++ [st] in
  if execOk w (length (journal db)) then
    match Sql.apply st (tracks db) with
    | Some rows => (true, {| tracks := rows; journal := sent |})
    | None => (false, {| tracks := tracks db; journal := sent |})
    end
  else (false, {| tracks := tracks db; journal := sent |}).

Definition updateTrackInDatabase (inDb : bool) (i : Z) (path : QString)
    (info : tagutils.Info) (art : QString) (db : Database) : Database :=
  let db := if inDb then (exec (DeleteTrack i) db).2 else db in
  (exec (insertStatement i path (lastModified w path) info art) db).2.

(** ** The art resolver *)

(** The pattern of [findMediaArtForDirectory],
    [^(albumart.*|cover|folder|front)\.(jpeg|jpg|png)$] without regard to
    case: [$] also matches before a final line feed, and [.] matches any
    character but a line feed. *)
Definition lineFeed : ascii := ascii_of_nat 10.

Fixpoint hasLineFeed (s : QString) : bool :=
  match s with
  | EmptyString => false
  | String c r => Ascii.eqb c lineFeed || hasLineFeed r
  end.

Fixpoint chopLineFeed (s : QString) : QString :=
  match s with
  | EmptyString => EmptyString
  | String c EmptyString => if Ascii.eqb c lineFeed then EmptyString else s
  | String c r => String c (chopLineFeed r)
  end.

Definition matchesStem (stem : QString) : bool :=
  bool_decide (stem ∈ ["cover"; "folder"; "front"])
  || (String.prefix "albumart" stem && negb (hasLineFeed stem)).

Definition matchesExtension (ext : QString) : bool :=
  bool_decide (ext ∈ ["jpeg"; "jpg"; "png"]).

Definition matchesAt (name : QString) : bool :=
  match Qt.splitLast "." (Sql.nocase name) with
  | Some (stem, ext) => matchesStem stem && matchesExtension ext
  | None => false
  end.

Definition isMediaArtName (name : QString) : bool :=
  matchesAt name || matchesAt (chopLineFeed name).

(** The caches and files the resolver works on: the two maps passed by
    reference to [getTrackMediaArt] and the media art directory. *)
Record ArtState := {
  embeddedMediaArtFiles : gmap string QString;
  mediaArtDirectoriesHash : gmap QString QString;
  artFiles : MediaArtDir
}.

Definition findMediaArtForDirectory (mediaArtHash : gmap QString QString)
    (directoryPath : QString) : QString * gmap QString QString :=
  match mediaArtHash !! directoryPath with
  | Some found => (found, mediaArtHash)
  | None =>
      match filter (λ n, isMediaArtName n = true)
                   (entryList w directoryPath) with
      | [] => (EmptyString, <[directoryPath := EmptyString]> mediaArtHash)
      | first :: _ =>
          let art := Qt.filePath directoryPath first in
          (art, <[directoryPath := art]> mediaArtHash)
      end
  end.

(** [QStringLiteral("%1/%2-embedded.%3").arg(mMediaArtDirectory, md5, suffix)] *)
Definition embeddedPath (md5 suffix : QString) : QString :=
  mMediaArtDirectory w +:+ "/" +:+ md5 +:+ "-embedded." +:+ suffix.

Definition saveEmbeddedMediaArt (data : QByteArray)
    (embedded : gmap string QString) (files : MediaArtDir)
  : QString * gmap string QString * MediaArtDir :=
  let md5 := md5Hex w data in
  match embedded !! md5 with
  | Some found => (found, embedded, files)
  | None =>
      let suffix := preferredSuffix w data in
      if Qt.isEmpty suffix then (EmptyString, embedded, files)
      else
        let path := embeddedPath md5 suffix in
        if openForWrite w path
        then (path, <[md5 := path]> embedded, <[path := data]> files)
        else (EmptyString, embedded, files)
  end.

Definition getTrackMediaArt (embeddedMediaArtData : QByteArray)
    (path : QString) (preferDirectoriesMediaArt : bool) (a : ArtState)
  : QString * ArtState :=
  let fromDirectory :=
    let '(art, dirs) :=
      findMediaArtForDirectory (mediaArtDirectoriesHash a) (Qt.path path) in
    (art, {| embeddedMediaArtFiles := embeddedMediaArtFiles a;
             mediaArtDirectoriesHash := dirs; artFiles := artFiles a |}) in
  let fromEmbedded (a : ArtState) :=
    let '(art, embedded, files) :=
      saveEmbeddedMediaArt embeddedMediaArtData (embeddedMediaArtFiles a)
        (artFiles a) in
    (art, {| embeddedMediaArtFiles := embedded;
             mediaArtDirectoriesHash := mediaArtDirectoriesHash a;
             artFiles := files |}) in
  if preferDirectoriesMediaArt then
    let '(art, a') := fromDirectory in
    if Qt.isEmpty art then
      match embeddedMediaArtData with
      | [] => (art, a')
      | _ => fromEmbedded a'
      end
    else (art, a')
  else
    match embeddedMediaArtData with
    | [] => fromDirectory
    | _ => fromEmbedded a
    end.

(** ** [LibraryUtils::updateDatabase]: reading the index *)

Definition isNoMediaDirectory (directory : QString)
    (noMediaDirectories : gmap QString bool) : bool * gmap QString bool :=
  match noMediaDirectories !! directory with
  | Some found => (found, noMediaDirectories)
  | None =>
      let noMedia := isFile w (directory +:+ "/.nomedia") in
      (noMedia, <[directory := noMedia]> noMediaDirectories)
  end.

(** [QFile::exists(path)]: a file of the media art directory or a file
    known to the environment. *)
Definition QFile_exists (files : MediaArtDir) (path : QString) : bool :=
  bool_decide (is_Some (files !! path)) || fileExists w path.

(** The variables the first loop fills. *)
Record Loaded := {
  files : gmap QString Z;
  lastId : Z;
  modificationTimeHash : gmap Z Z;
  mediaArtHash : gmap Z QString;
  mediaArtExistanceHash : gmap QString bool;
  deletedMediaArtCount : Z;
  filesToRemove : list Z;
  noMediaDirectories : gmap QString bool
}.

Definition noneLoaded : Loaded :=
  {| files := ∅; lastId := -1; modificationTimeHash := ∅;
     mediaArtHash := ∅; mediaArtExistanceHash := ∅;
     deletedMediaArtCount := 0; filesToRemove := [];
     noMediaDirectories := ∅ |}.

(** [SELECT id, filePath, modificationTime, mediaArt FROM tracks
    GROUP BY id ORDER BY id] *)
Definition selectTracks (rows : list Track) : list Track :=
  Sql.groupById rows.

(** One turn of [while (query.next())]. *)
Definition loadRow (libraries blacklist : list QString)
    (disk : MediaArtDir) (l : Loaded) (row : Track) : Loaded :=
  let i := Qt.toInt (id row) in
  let path := filePath row in
  let '(remove, noMedia) :=
    if negb (fileExists w path) || isDir w path || negb (isReadable w path)
    then (true, noMediaDirectories l)
    else if negb (inLibrary libraries path)
    then (true, noMediaDirectories l)
    else if isBlacklisted blacklist path
    then (true, noMediaDirectories l)
    else isNoMediaDirectory (Qt.path path) (noMediaDirectories l) in
  if remove then
    {| files := files l; lastId := i;
       modificationTimeHash := modificationTimeHash l;
       mediaArtHash := mediaArtHash l;
       mediaArtExistanceHash := mediaArtExistanceHash l;
       deletedMediaArtCount := deletedMediaArtCount l;
       filesToRemove := filesToRemove l ++ [i];
       noMediaDirectories := noMedia |}
  else
    let art := mediaArt row in
    let '(arts, existance, deleted) :=
      if Qt.isEmpty art
      then (insertNew i art (mediaArtHash l), mediaArtExistanceHash l,
            deletedMediaArtCount l)
      else
        match mediaArtExistanceHash l !! art with
        | None =>
            if QFile_exists disk art
            then (insertNew i art (mediaArtHash l),
                  <[art := true]> (mediaArtExistanceHash l),
                  deletedMediaArtCount l)
            else (mediaArtHash l,
                  <[art := false]> (mediaArtExistanceHash l),
                  deletedMediaArtCount l + 1)
        | Some true =>
            (insertNew i art (mediaArtHash l), mediaArtExistanceHash l,
             deletedMediaArtCount l)
        | Some false =>
            (mediaArtHash l, mediaArtExistanceHash l,
             deletedMediaArtCount l)
        end in
    {| files := insertNew path i (files l); lastId := i;
       modificationTimeHash :=
         insertNew i (modificationTime row) (modificationTimeHash l);
       mediaArtHash := arts;
       mediaArtExistanceHash := existance;
       deletedMediaArtCount := deleted;
       filesToRemove := filesToRemove l;
       noMediaDirectories := noMedia |}.

(** The name filter [*-embedded.*] of [QDir::entryInfoList]; name filters
    disregard case unless [QDir::CaseSensitive] is given ([Sql.nocase]
    is the folding of the ASCII letters). *)
Definition isEmbeddedName (name : QString) : bool :=
  Qt.contains (Sql.nocase name) "-embedded.".

(** [baseName.left(baseName.indexOf("-embedded"))]: [indexOf] is -1 when
    there is no occurrence and [left(-1)] is the whole string. *)
Definition embeddedKey (path : QString) : string :=
  let baseName := Qt.baseName path in
  match Qt.indexOf "-embedded" baseName with
  | Some index => Qt.left index baseName
  | None => baseName
  end.

(** The block that fills [embeddedMediaArtFiles] from the directory. *)
Definition loadEmbeddedMediaArtFiles (disk : MediaArtDir)
  : gmap string QString :=
  foldl (λ m path, insertNew (embeddedKey path) path m) ∅
    (filter (λ p, isEmbeddedName (Qt.fileName p) = true)
       (map_to_list disk).*1).

(** ** [LibraryUtils::updateDatabase]: walking the library *)

(** The state of the walk: the variables above, the store and the
    resolver's caches and files. *)
Record Walk := {
  vars : Loaded;
  store : Database;
  art : ArtState
}.

Definition withNoMediaDirectories (m : gmap QString bool) (l : Loaded)
  : Loaded :=
  {| files := files l; lastId := lastId l;
     modificationTimeHash := modificationTimeHash l;
     mediaArtHash := mediaArtHash l;
     mediaArtExistanceHash := mediaArtExistanceHash l;
     deletedMediaArtCount := deletedMediaArtCount l;
     filesToRemove := filesToRemove l; noMediaDirectories := m |}.

Definition withLastId (i : Z) (l : Loaded) : Loaded :=
  {| files := files l; lastId := i;
     modificationTimeHash := modificationTimeHash l;
     mediaArtHash := mediaArtHash l;
     mediaArtExistanceHash := mediaArtExistanceHash l;
     deletedMediaArtCount := deletedMediaArtCount l;
     filesToRemove := filesToRemove l;
     noMediaDirectories := noMediaDirectories l |}.

(** [filesToRemove.push_back(i)] *)
Definition pushFileToRemove (i : Z) (l : Loaded) : Loaded :=
  {| files := files l; lastId := lastId l;
     modificationTimeHash := modificationTimeHash l;
     mediaArtHash := mediaArtHash l;
     mediaArtExistanceHash := mediaArtExistanceHash l;
     deletedMediaArtCount := deletedMediaArtCount l;
     filesToRemove := filesToRemove l ++ [i];
     noMediaDirectories := noMediaDirectories l |}.

(** "File is not in database".  [lastId (vars s) + 1] is [++lastId] as
    long as it fits an [int]; beyond, the behaviour of the code is
    undefined and the model does not follow it. *)
Definition visitNew (blacklist : list QString) (prefer : bool)
    (path : QString) (s : Walk) : Walk :=
  let '(noMedia, cache) :=
    isNoMediaDirectory (Qt.path path) (noMediaDirectories (vars s)) in
  let s := {| vars := withNoMediaDirectories cache (vars s);
              store := store s; art := art s |} in
  if noMedia then s
  else if isBlacklisted blacklist path then s
  else if contains mimeTypesExtensions (Qt.suffix path) then
    let mimeType := mimeTypeForFile w path in
    if contains mimeTypesByContent mimeType then
      let trackInfo := getTrackInfo w path mimeType in
      let i := lastId (vars s) + 1 in
      let '(mediaArt, a) :=
        getTrackMediaArt (tagutils.mediaArtData trackInfo) path prefer
          (art s) in
      {| vars := withLastId i (vars s);
         store := updateTrackInDatabase false i path trackInfo mediaArt
                    (store s);
         art := a |}
    else s
  else s.

(** "File has not changed" *)
Definition visitUnchanged (prefer : bool) (path : QString) (i : Z)
    (s : Walk) : Walk :=
  let '(mediaArt, deleted) :=
    match mediaArtHash (vars s) !! i with
    | None => (EmptyString, true)
    | Some found => (found, false)
    end in
  let embeddedOrManual := Qt.startsWith mediaArt (mMediaArtDirectory w) in
  let embedded := embeddedOrManual && Qt.contains mediaArt "-embedded" in
  let manual := embeddedOrManual && negb embedded in
  if manual then s
  else if negb embedded || prefer then
    let mediaArtData :=
      if (negb deleted && Qt.isEmpty mediaArt) || embedded then []
      else tagutils.mediaArtData
             (getTrackInfo w path (mimeTypeForFile w path)) in
    let '(newMediaArt, a) :=
      getTrackMediaArt mediaArtData path prefer (art s) in
    if negb (embedded && Qt.isEmpty newMediaArt)
       && negb (String.eqb newMediaArt mediaArt)
    then {| vars := vars s;
            store := (exec (UpdateMediaArt
                              (emptyIfNull (answered newMediaArt)) i)
                        (store s)).2;
            art := a |}
    else {| vars := vars s; store := store s; art := a |}
  else s.

(** "File has changed" *)
Definition visitChanged (prefer : bool) (path : QString) (i : Z)
    (s : Walk) : Walk :=
  let mimeType := mimeTypeForFile w path in
  if contains mimeTypesByContent mimeType then
    let trackInfo := getTrackInfo w path mimeType in
    let '(mediaArt, a) :=
      getTrackMediaArt (tagutils.mediaArtData trackInfo) path prefer
        (art s) in
    {| vars := vars s;
       store := updateTrackInDatabase true i path trackInfo mediaArt
                  (store s);
       art := a |}
  else {| vars := pushFileToRemove i (vars s); store := store s;
          art := art s |}.

(** The body of [while (iterator.hasNext())] after the [qApp] test.
    [modificationTimeHash[i]] is 0 for a missing key. *)
Definition visit (blacklist : list QString) (prefer : bool)
    (path : QString) (s : Walk) : Walk :=
  if isDir w path then s
  else if negb (isReadable w path) then s
  else
    match files (vars s) !! path with
    | None => visitNew blacklist prefer path s
    | Some i =>
        if lastModified w path
           =? default 0 (modificationTimeHash (vars s) !! i)
        then visitUnchanged prefer path i s
        else visitChanged prefer path i s
    end.

(** [qApp] at the n-th directory entry. *)
Definition appRunning (n : nat) : bool :=
  match shutdownAfter w with
  | None => true
  | Some k => (n <? k)%nat
  end.

(** The two nested loops over the library directories and their entries;
    the flag tells whether the walk reached its end. *)
Fixpoint walk (blacklist : list QString) (prefer : bool)
    (entries : list QString) (n : nat) (s : Walk) : bool * Walk :=
  match entries with
  | [] => (true, s)
  | path :: rest =>
      if appRunning n
      then walk blacklist prefer rest (S n) (visit blacklist prefer path s)
      else (false, s)
  end.

(** ** [LibraryUtils::updateDatabase]: after the walk *)

Definition removeFiles (ids : list Z) (db : Database) : Database :=
  match ids with
  | [] => db
  | _ => (exec (DeleteTracksIn ids) db).2
  end.

(** The entries of [mediaArtExistanceHash] that are [false], in the
    order in which the map enumerates them. *)
Definition deletedMediaArt (existance : gmap QString bool)
  : list QString :=
  (filter (λ kv, kv.2 = false) (map_to_list existance)).*1.

(** Pieces of at most [n] elements, in order. *)
Fixpoint chunks {A} (fuel n : nat) (l : list A) : list (list A) :=
  match fuel, l with
  | S fuel', _ :: _ => take n l :: chunks fuel' n (drop n l)
  | _, _ => []
  end.

Definition maxParametersCount : nat := 999.

Definition clearDeletedMediaArt (l : Loaded) (db : Database) : Database :=
  if 0 <? deletedMediaArtCount l then
    let deleted := deletedMediaArt (mediaArtExistanceHash l) in
    foldl (λ db chunk, (exec (ClearMediaArtIn chunk) db).2) db
      (chunks (length deleted) maxParametersCount deleted)
  else db.

(** [allMediaArt]: empty when the query fails. *)
Definition selectAllMediaArt (db : Database) : list QString * Database :=
  let '(ok, db') := exec SelectDistinctMediaArt db in
  (if ok then Sql.distinctMediaArt (tracks db) else [], db').

(** The last loop: every file of the media art directory that no row
    names is removed. *)
Definition removeUnused (allMediaArt : list QString) (disk : MediaArtDir)
  : MediaArtDir :=
  foldl (λ d path,
           if contains allMediaArt path then d
           else if removeOk w path then delete path d else d)
        disk (map_to_list disk).*1.

(** How a scan ends. *)
Inductive Outcome :=
| OpenFailed
| SelectFailed (db : Database) (disk : MediaArtDir)
| Shutdown (db : Database) (disk : MediaArtDir)
| Finished (db : Database) (disk : MediaArtDir).

(** The resolver's caches and files before the walk. *)
Definition initialArt (disk : MediaArtDir) : ArtState :=
  {| embeddedMediaArtFiles := loadEmbeddedMediaArtFiles disk;
     mediaArtDirectoriesHash := ∅; artFiles := disk |}.

(** The state in which the walk starts: the index read from the rows the
    first query returned. *)
Definition startOfWalk (libraries blacklist : list QString)
    (db : Database) (disk : MediaArtDir) : Walk :=
  {| vars := foldl (loadRow libraries blacklist disk) noneLoaded
               (selectTracks (tracks db));
     store := db; art := initialArt disk |}.

(** The task run by [updateDatabase], from the store and the media art
    directory as they are found.  A failure of [mkpath] on the media art
    directory is only logged; it shows later as files that cannot be
    opened.  The guard on [mUpdating] and the notifications around the
    task are not part of it. *)
Definition updateDatabase (db : Database) (disk : MediaArtDir) : Outcome :=
  if negb (databaseOpens w) then OpenFailed
  else
    let libraries := prepareDirs (libraryDirectories w) in
    let blacklist := prepareDirs (blacklistedDirectories w) in
    let '(ok, db1) := exec SelectTracks db in
    if negb ok then SelectFailed db1 disk
    else
      let '(finished, s) :=
        walk blacklist (useDirectoryMediaArt w)
          (libraries ≫= dirIterator w) 0
          (startOfWalk libraries blacklist db1 disk) in
      if negb finished then Shutdown (store s) (artFiles (art s))
      else
        let db2 := removeFiles (filesToRemove (vars s)) (store s) in
        let db3 := clearDeletedMediaArt (vars s) db2 in
        let '(allMediaArt, db4) := selectAllMediaArt db3 in
        Finished db4 (removeUnused allMediaArt (artFiles (art s))).

(** ** The [LibraryUtils] object: initialisation and queries *)

Record LibraryUtils := {
  mDatabaseInitialized : bool;
  mCreatedTable : bool;
  mUpdating : bool;
  database : Database
}.

Definition fields : list QString :=
  ["id"; "filePath"; "modificationTime"; "title"; "artist"; "album";
   "year"; "trackNumber"; "discNumber"; "genre"; "duration"; "mediaArt"].

(** [createTable] after the comparison of the stored record with
    [fields]. *)
Definition mustCreateTable (stored : option (list QString)) : bool :=
  match stored with
  | None => true
  | Some names =>
      if (length names =? length fields)%nat
      then existsb (λ n, negb (contains fields n)) names
      else true
  end.

(** The constructor followed by [initDatabase], on the rows the file
    holds.  [CREATE TABLE] is rejected while a table [tracks] is there. *)
Definition initDatabase (rows : list Track) : LibraryUtils :=
  let made (initialized created : bool) (db : Database) :=
    {| mDatabaseInitialized := initialized; mCreatedTable := created;
       mUpdating := false; database := db |} in
  let db := {| tracks := rows; journal := [] |} in
  if negb (mkpathData w) then made false false db
  else if negb (databaseOpens w) then made false false db
  else if mustCreateTable (storedFields w) then
    let '(present, db) :=
      match storedFields w with
      | None => (false, db)
      | Some _ => let '(ok, db) := exec DropTable db in (negb ok, db)
      end in
    let '(ok, db) := exec CreateTable db in
    if ok && negb present then made true true db else made false false db
  else made true false db.

Definition withDatabase (lu : LibraryUtils) (db : Database)
  : LibraryUtils :=
  {| mDatabaseInitialized := mDatabaseInitialized lu;
     mCreatedTable := mCreatedTable lu; mUpdating := mUpdating lu;
     database := db |}.

(** A [QSqlQuery] on the default connection, sent at once; the flag is
    what [query.next()] answers for a single-row result. *)
Definition query (st : Statement) (lu : LibraryUtils)
  : bool * LibraryUtils :=
  let '(ok, db) := exec st (database lu) in (ok, withDatabase lu db).

(** [COUNT(DISTINCT(column))] read with [toInt]: the number of distinct
    texts of the column, [NULL] not being counted.  The columns [artist]
    and [album] are declared [COLLATE NOCASE]. *)
Definition count (column : Track → Nullable) (rows : list Track) : Z :=
  Qt.toInt (Z.of_nat (length (Sql.distinct
                                (Sql.nocase <$> omap column rows)))).

Definition artistsCount (lu : LibraryUtils) : Z * LibraryUtils :=
  if negb (mDatabaseInitialized lu) then (0, lu)
  else
    let '(ok, lu') := query CountDistinctArtist lu in
    (if ok then count artist (tracks (database lu)) else 0, lu').

Definition albumsCount (lu : LibraryUtils) : Z * LibraryUtils :=
  if negb (mDatabaseInitialized lu) then (0, lu)
  else
    let '(ok, lu') := query CountDistinctAlbum lu in
    (if ok then count album (tracks (database lu)) else 0, lu').

Definition tracksCount (lu : LibraryUtils) : Z * LibraryUtils :=
  if negb (mDatabaseInitialized lu) then (0, lu)
  else
    let '(ok, lu') := query CountDistinctId lu in
    (if ok
     then Qt.toInt (Z.of_nat (length (Sql.groupById (tracks (database lu)))))
     else 0, lu').

(** [SELECT SUM(duration) FROM (SELECT duration from tracks GROUP BY id)] *)
Definition sumDuration (rows : list Track) : Z :=
  foldr Z.add 0 (duration <$> Sql.groupById rows).

Definition tracksDuration (lu : LibraryUtils) : Z * LibraryUtils :=
  if negb (mDatabaseInitialized lu) then (0, lu)
  else
    let '(ok, lu') := query SumDuration lu in
    (if ok then Qt.toInt (sumDuration (tracks (database lu))) else 0, lu').

(** [GROUP BY mediaArt ORDER BY RANDOM() LIMIT 1] over the rows kept by
    the [WHERE] clause, [mediaArt != ''] included; [rnd] stands for the
    draw.  No row: [query.next()] is false and the answer is empty. *)
Definition pickMediaArt (rnd : nat) (keep : Track → bool)
    (rows : list Track) : QString :=
  let candidates :=
    Sql.distinctMediaArt (filter (λ r, keep r = true) rows) in
  default EmptyString (candidates !! (rnd `mod` length candidates)%nat).

(** [artist = ?] and [album = ?], on columns declared [COLLATE NOCASE]. *)
Definition sameNocase (column bound : Nullable) : bool :=
  Sql.equal Sql.nocase column bound.

(** [genre = ?], on a column without collation. *)
Definition same (column bound : Nullable) : bool :=
  Sql.equal (λ text, text) column bound.

Definition randomMediaArt (rnd : nat) (lu : LibraryUtils)
  : QString * LibraryUtils :=
  if negb (mDatabaseInitialized lu) then (EmptyString, lu)
  else
    let '(ok, lu') := query SelectRandomMediaArt lu in
    (if ok then pickMediaArt rnd (λ _, true) (tracks (database lu))
     else EmptyString, lu').

Definition randomMediaArtForArtist (rnd : nat) (a : Nullable)
    (lu : LibraryUtils) : QString * LibraryUtils :=
  if negb (mDatabaseInitialized lu) then (EmptyString, lu)
  else
    let '(ok, lu') := query (SelectRandomMediaArtForArtist a) lu in
    (if ok
     then pickMediaArt rnd (λ r, sameNocase (artist r) a)
            (tracks (database lu))
     else EmptyString, lu').

Definition randomMediaArtForAlbum (rnd : nat) (a al : Nullable)
    (lu : LibraryUtils) : QString * LibraryUtils :=
  if negb (mDatabaseInitialized lu) then (EmptyString, lu)
  else
    let '(ok, lu') := query (SelectRandomMediaArtForAlbum a al) lu in
    (if ok
     then pickMediaArt rnd
            (λ r, sameNocase (artist r) a && sameNocase (album r) al)
            (tracks (database lu))
     else EmptyString, lu').

Definition randomMediaArtForGenre (rnd : nat) (g : Nullable)
    (lu : LibraryUtils) : QString * LibraryUtils :=
  if negb (mDatabaseInitialized lu) then (EmptyString, lu)
  else
    let '(ok, lu') := query (SelectRandomMediaArtForGenre g) lu in
    (if ok
     then pickMediaArt rnd (λ r, same (genre r) g)
            (tracks (database lu))
     else EmptyString, lu').

End Engine.

(** * Definitions for the properties *)

(** ** Cartesian expansion of a file into rows *)

(** The product artists x albums x genres, artists varying slowest, where
    an empty list counts as the one entry [missing]. *)
Definition productOf (missing : Nullable) (info : tagutils.Info)
  : list (Nullable * Nullable * Nullable) :=
  let entries (strings : list Nullable) :=
    match strings with
    | [] => [missing]
    | _ => strings
    end in
  a ← entries (tagutils.artists info);
  al ← entries (tagutils.albums info);
  g ← entries (tagutils.genres info);
  [(a, al, g)].

(** What a tag list contributes to the rows the code inserts: itself, or
    the one value that [forEachOrOnce] passes when it is empty. *)
Definition orOnce (strings : list Nullable) : list Nullable :=
  match strings with
  | [] => [None]
  | _ => strings
  end.

(** The product as the code goes through it. *)
Definition expansion (info : tagutils.Info)
  : list (Nullable * Nullable * Nullable) :=
  a ← orOnce (tagutils.artists info);
  al ← orOnce (tagutils.albums info);
  g ← orOnce (tagutils.genres info);
  [(a, al, g)].

(** The row of one element of the product. *)
Definition trackRow (i : Z) (path : QString) (mtime : Z)
    (info : tagutils.Info) (art : QString)
    (e : Nullable * Nullable * Nullable) : Track :=
  {| id := i; filePath := path; modificationTime := mtime;
     title := tagutils.title info; artist := e.1.1; album := e.1.2;
     year := tagutils.year info; trackNumber := tagutils.trackNumber info;
     discNumber := tagutils.discNumber info; genre := e.2;
     duration := tagutils.duration info; mediaArtColumn := answered art |}.

(** The rows the code inserts for a file. *)
Definition expandedRows (i : Z) (path : QString) (mtime : Z)
    (info : tagutils.Info) (art : QString) : list Track :=
  trackRow i path mtime info art <$> expansion info.

(** The rows of the specification: an empty list is replaced by a single
    empty-string entry. *)
Definition specifiedRows (i : Z) (path : QString) (mtime : Z)
    (info : tagutils.Info) (art : QString) : list Track :=
  trackRow i path mtime info art <$> productOf (Some EmptyString) info.

(** A file with two artists, one genre and no album. *)
Definition twoArtists : tagutils.Info :=
  {| tagutils.title := Some "T"; tagutils.artists := [Some "A"; Some "B"];
     tagutils.albums := []; tagutils.genres := [Some "X"];
     tagutils.year := 2001; tagutils.trackNumber := 3;
     tagutils.discNumber := Some "1"; tagutils.duration := 200;
     tagutils.mediaArtData := [] |}.

(** ** Durations per id *)

(** The ids of the table, each once. *)
Definition distinctIds (rows : list Track) : list Z :=
  remove_dups (id <$> rows).

(** The duration attributed to an id: that of its first row. *)
Definition durationOf (rows : list Track) (i : Z) : Z :=
  default 0 (duration <$> head (filter (λ r, id r = i) rows)).

(** The sum of the durations, one per id. *)
Definition totalDuration (rows : list Track) : Z :=
  foldr Z.add 0 (durationOf rows <$> distinctIds rows).

(** The order of the rows after [ORDER BY id]. *)
Definition byId : Track → Track → Prop := λ a b, id a < id b.

(** ** Sample environments *)

(** A digest for the samples: 32 copies of the last decimal digit of the
    length of the data. *)
Definition lengthDigest (data : QByteArray) : string :=
  let digit := ascii_of_nat (48 + length data `mod` 10) in
  string_of_list_ascii (replicate 32 digit).

(** One library root [/music] holding [song.mp3] and [folder.jpg]; the tag
    reader answers [info] for the song, whose modification time is
    [mtime]; embedded art of every content has the suffix [suffix]; [ok]
    tells which statements succeed. *)
Definition musicWorld (info : tagutils.Info) (prefer : bool) (mtime : Z)
    (suffix : QString) (ok : nat → bool) : World :=
  {| libraryDirectories := ["/music"];
     blacklistedDirectories := [];
     useDirectoryMediaArt := prefer;
     mMediaArtDirectory := "/cache/media-art";
     fileExists := λ p,
       bool_decide (p ∈ ["/music"; "/music/song.mp3"; "/music/folder.jpg"]);
     isDir := λ p, bool_decide (p ∈ ["/music"; "/music/."; "/music/.."]);
     isFile := λ p,
       bool_decide (p ∈ ["/music/song.mp3"; "/music/folder.jpg"]);
     isReadable := λ _, true;
     lastModified := λ _, mtime;
     entryList := λ d,
       if String.eqb d "/music" then ["folder.jpg"; "song.mp3"] else [];
     dirIterator := λ d,
       if String.eqb d "/music/"
       then ["/music/."; "/music/.."; "/music/folder.jpg";
             "/music/song.mp3"]
       else [];
     mimeTypeForFile := λ p,
       if String.eqb p "/music/song.mp3" then "audio/mpeg"
       else "image/jpeg";
     getTrackInfo := λ _ _, info;
     md5Hex := lengthDigest;
     preferredSuffix := λ _, suffix;
     mkpathData := true;
     databaseOpens := true;
     storedFields := None;
     execOk := ok;
     openForWrite := λ _, true;
     removeOk := λ _, true;
     shutdownAfter := None |}.

(** The song of the end-to-end scenario: no genre, no disc number and
    no embedded art. *)
Definition song : tagutils.Info :=
  {| tagutils.title := Some "T"; tagutils.artists := [Some "A"];
     tagutils.albums := [Some "Alb"]; tagutils.genres := [];
     tagutils.year := 0; tagutils.trackNumber := 0;
     tagutils.discNumber := None; tagutils.duration := 120;
     tagutils.mediaArtData := [] |}.

(** The same song carrying one byte of embedded art. *)
Definition songWithArt : tagutils.Info :=
  {| tagutils.title := Some "T"; tagutils.artists := [Some "A"];
     tagutils.albums := [Some "Alb"]; tagutils.genres := [];
     tagutils.year := 0; tagutils.trackNumber := 0;
     tagutils.discNumber := None; tagutils.duration := 120;
     tagutils.mediaArtData := [Byte.x01] |}.

Definition allOk : nat → bool := λ _, true.

(** The end-to-end scenario of the specification. *)
Definition scenario : World := musicWorld song false 1000 "jpg" allOk.

(** The row the scenario leaves in the index, with the media art that was
    resolved for it. *)
Definition songRow (art : QString) : Track :=
  {| id := 0; filePath := "/music/song.mp3"; modificationTime := 1000;
     title := Some "T"; artist := Some "A"; album := Some "Alb"; year := 0;
     trackNumber := 0; discNumber := None; genre := None;
     duration := 120; mediaArtColumn := answered art |}.

(** An initialised object over given rows. *)
Definition libraryOf (rows : list Track) : LibraryUtils :=
  {| mDatabaseInitialized := true; mCreatedTable := false;
     mUpdating := false;
     database := {| tracks := rows; journal := [] |} |}.

(** An environment whose data directory cannot be made. *)
Definition noDataDirectory : World :=
  {| libraryDirectories := libraryDirectories scenario;
     blacklistedDirectories := blacklistedDirectories scenario;
     useDirectoryMediaArt := useDirectoryMediaArt scenario;
     mMediaArtDirectory := mMediaArtDirectory scenario;
     fileExists := fileExists scenario; isDir := isDir scenario;
     isFile := isFile scenario; isReadable := isReadable scenario;
     lastModified := lastModified scenario;
     entryList := entryList scenario; dirIterator := dirIterator scenario;
     mimeTypeForFile := mimeTypeForFile scenario;
     getTrackInfo := getTrackInfo scenario; md5Hex := md5Hex scenario;
     preferredSuffix := preferredSuffix scenario;
     mkpathData := false;
     databaseOpens := databaseOpens scenario;
     storedFields := storedFields scenario; execOk := execOk scenario;
     openForWrite := openForWrite scenario;
     removeOk := removeOk scenario;
     shutdownAfter := shutdownAfter scenario |}.

(** ** Content addressing of embedded art *)

Fixpoint occurs (c : ascii) (s : string) : bool :=
  match s with
  | EmptyString => false
  | String a r => Ascii.eqb a c || occurs c r
  end.

Definition isHexDigit (c : ascii) : bool := occurs c "0123456789abcdef".

Fixpoint allHex (s : string) : bool :=
  match s with
  | EmptyString => true
  | String a r => isHexDigit a && allHex r
  end.

(** What is assumed of the digest and of the suffixes of the MIME
    database: [toHex] yields hexadecimal digits and a suffix has no
    separator. *)
Record Collaborators (w : World) : Prop := {
  digest_hex : ∀ data, allHex (md5Hex w data) = true;
  suffix_plain : ∀ data, occurs "/" (preferredSuffix w data) = false
}.

(** The path under which [saveEmbeddedMediaArt] writes [data]. *)
Definition canonical (w : World) (data : QByteArray) : QString :=
  embeddedPath w (md5Hex w data) (preferredSuffix w data).

(** Every file of the media art directory that the filter [*-embedded.*]
    selects is named after its content. *)
Definition contentAddressed (w : World) (disk : MediaArtDir) : Prop :=
  ∀ p data, disk !! p = Some data →
    isEmbeddedName (Qt.fileName p) = true → p = canonical w data.

(** Every entry of [embeddedMediaArtFiles] names a file of the directory,
    under the digest of the file's content. *)
Definition cacheSound (w : World) (embedded : gmap string QString)
    (disk : MediaArtDir) : Prop :=
  ∀ k p, embedded !! k = Some p →
    ∃ data, disk !! p = Some data ∧ md5Hex w data = k
            ∧ p = canonical w data.

(** No file of the directory has the digest of [data] and other content. *)
Definition collisionFree (w : World) (disk : MediaArtDir)
    (data : QByteArray) : Prop :=
  ∀ p data', disk !! p = Some data' →
    md5Hex w data' = md5Hex w data → data' = data.

(** Resolving a list of embedded images one after the other. *)
Definition saveAll (w : World) (datas : list QByteArray)
    (embedded : gmap string QString) (disk : MediaArtDir)
  : gmap string QString * MediaArtDir :=
  foldl (λ s data,
           let '(_, e, d) := saveEmbeddedMediaArt w data s.1 s.2 in (e, d))
        (embedded, disk) datas.

(** The scenario with embedded art whose type cannot be determined. *)
Definition unknownArtType : World :=
  musicWorld songWithArt false 1000 EmptyString allOk.

(** The scenario with embedded art recognised as PNG. *)
Definition pngArt : World := musicWorld songWithArt false 1000 "png" allOk.

(** The invariant of the resolver's state during a scan. *)
Definition artSound (w : World) (a : ArtState) : Prop :=
  cacheSound w (embeddedMediaArtFiles a) (artFiles a)
  ∧ contentAddressed w (artFiles a).

(** ** Sample scans *)

(** The store holding the song's row as an earlier scan at time 1000 left
    it, with a given media art. *)
Definition indexed (art : QString) : Database :=
  {| tracks := [songRow art]; journal := [] |}.

(** The walk of a sample environment starts in this state. *)
Definition sampleStart (w : World) (db : Database) : Walk :=
  startOfWalk w (prepareDirs (libraryDirectories w))
    (prepareDirs (blacklistedDirectories w))
    (exec w SelectTracks db).2 ∅.

(** The song was modified at time 2000 and now has two artists. *)
Definition changedSong : World :=
  musicWorld twoArtists false 2000 "png" allOk.

(** The same, the third statement of the scan failing. *)
Definition changedSongInsertFails : World :=
  musicWorld twoArtists false 2000 "png" (λ n, negb (n =? 2)%nat).

(** The store before the first scan. *)
Definition emptyStore : Database := {| tracks := []; journal := [] |}.

(** ** The index read by a scan and the rows of the store *)

(** What the maps filled by the first loop hold comes from rows of the
    table: a path with the id of one of its rows, an id with the
    modification time of one of its rows, an id with the media art of one
    of its rows. *)
Definition indexFrom (rows : list Track) (l : Loaded) : Prop :=
  (∀ path i, files l !! path = Some i →
     ∃ row, row ∈ rows ∧ filePath row = path ∧ Qt.toInt (id row) = i)
  ∧ (∀ i m, modificationTimeHash l !! i = Some m →
       ∃ row, row ∈ rows ∧ Qt.toInt (id row) = i
              ∧ modificationTime row = m)
  ∧ (∀ i a, mediaArtHash l !! i = Some a →
       ∃ row, row ∈ rows ∧ Qt.toInt (id row) = i ∧ mediaArt row = a).

(** The song was modified at time 2000 and its content is no longer
    recognised as audio. *)
Definition noLongerAudio : World :=
  {| libraryDirectories := libraryDirectories changedSong;
     blacklistedDirectories := blacklistedDirectories changedSong;
     useDirectoryMediaArt := useDirectoryMediaArt changedSong;
     mMediaArtDirectory := mMediaArtDirectory changedSong;
     fileExists := fileExists changedSong; isDir := isDir changedSong;
     isFile := isFile changedSong; isReadable := isReadable changedSong;
     lastModified := lastModified changedSong;
     entryList := entryList changedSong;
     dirIterator := dirIterator changedSong;
     mimeTypeForFile := λ _, "text/plain";
     getTrackInfo := getTrackInfo changedSong;
     md5Hex := md5Hex changedSong;
     preferredSuffix := preferredSuffix changedSong;
     mkpathData := mkpathData changedSong;
     databaseOpens := databaseOpens changedSong;
     storedFields := storedFields changedSong;
     execOk := execOk changedSong;
     openForWrite := openForWrite changedSong;
     removeOk := removeOk changedSong;
     shutdownAfter := shutdownAfter changedSong |}.

(** * More of [libraryutils.cpp] *)

(** ** [mimeTypeFromString] *)

(** The values of the enumeration [MimeType] that the source names; its
    declaration is in [libraryutils.h]. *)
Inductive MimeType :=
| Flac | Mp4 | Mp4b | Mpeg | VorbisOgg | FlacOgg | OpusOgg | Ape
| Matroska | Wav | Wavpack | Other.

#[global] Instance MimeType_eq_dec : EqDecision MimeType.
Proof. solve_decision. Defined.

(** The static map [types]. *)
Definition types : list (QString * MimeType) :=
  [("audio/flac", Flac); ("audio/mp4", Mp4); ("audio/x-m4b", Mp4b);
   ("audio/mpeg", Mpeg); ("audio/x-vorbis+ogg", VorbisOgg);
   ("audio/x-flac+ogg", FlacOgg); ("audio/x-opus+ogg", OpusOgg);
   ("audio/x-ape", Ape); ("application/x-matroska", Matroska);
   ("audio/x-wav", Wav); ("audio/x-wavpack", Wavpack)].

Definition mimeTypeFromString (s : QString) : MimeType :=
  match (list_to_map types : gmap QString MimeType) !! s with
  | None => Other
  | Some found => found
  end.

Definition videoMimeTypesExtensions : list QString :=
  ["mp4"; "m4v"; "f4v"; "lrv"; "mpeg"; "mpg"; "mp2"; "mpe"; "vob"; "mkv";
   "ogv"].

(** ** What the memoising lookups answer without their caches *)

(** The image [findMediaArtForDirectory] finds by listing the directory. *)
Definition directoryArt (w : World) (directoryPath : QString) : QString :=
  (findMediaArtForDirectory w ∅ directoryPath).1.

(** The entries of [mediaArtDirectoriesHash] are what listing gives. *)
Definition directoriesSound (w : World) (cache : gmap QString QString)
  : Prop :=
  ∀ d a, cache !! d = Some a → a = directoryArt w d.

(** The entries of [noMediaDirectories] are what the file system says. *)
Definition noMediaSound (w : World) (cache : gmap QString bool) : Prop :=
  ∀ d b, cache !! d = Some b → b = isFile w (d +:+ "/.nomedia").

(** ** The index and the rows it is read from *)

(** The test of the first loop on the path of a row: the file is there,
    is not a directory, can be read, lies under a library directory and
    under no blacklisted one, and its directory holds no [.nomedia]. *)
Definition eligible (w : World) (libraries blacklist : list QString)
    (path : QString) : bool :=
  fileExists w path && negb (isDir w path) && isReadable w path
  && inLibrary libraries path && negb (isBlacklisted blacklist path)
  && negb (isFile w (Qt.path path +:+ "/.nomedia")).

(** The rows of the first query that pass the test. *)
Definition eligibleRows (w : World) (libraries blacklist : list QString)
    (rows : list Track) : list Track :=
  filter (λ r, eligible w libraries blacklist (filePath r) = true) rows.

(** The store of the sample library with a second row, of a file that is
    no longer there. *)
Definition withVanished : Database :=
  {| tracks :=
       [songRow "/music/folder.jpg";
        {| id := 1; filePath := "/music/gone.mp3"; modificationTime := 1;
           title := Some "G"; artist := Some "A"; album := Some "Alb";
           year := 0; trackNumber := 0; discNumber := None;
           genre := None; duration := 60;
           mediaArtColumn := Some "/music/gone.jpg" |}];
     journal := [] |}.

(** The answers recorded in [mediaArtExistanceHash] are those of
    [QFile::exists]. *)
Definition existanceSound (w : World) (disk : MediaArtDir)
    (m : gmap QString bool) : Prop :=
  ∀ a b, m !! a = Some b → b = QFile_exists w disk a.

(** The media art of a row is empty or an existing file. *)
Definition artThere (w : World) (disk : MediaArtDir) (r : Track) : Prop :=
  mediaArt r = EmptyString ∨ QFile_exists w disk (mediaArt r) = true.

#[global] Instance artThere_dec w disk r : Decision (artThere w disk r).
Proof. unfold artThere. apply _. Defined.

(** ** What the walk may change *)

(** The relation between a state of the walk and a later one. *)
Definition walkedFrom (s s' : Walk) : Prop :=
  files (vars s') = files (vars s)
  ∧ modificationTimeHash (vars s') = modificationTimeHash (vars s)
  ∧ mediaArtHash (vars s') = mediaArtHash (vars s)
  ∧ mediaArtExistanceHash (vars s') = mediaArtExistanceHash (vars s)
  ∧ deletedMediaArtCount (vars s') = deletedMediaArtCount (vars s)
  ∧ lastId (vars s) ≤ lastId (vars s')
  ∧ filesToRemove (vars s) `prefix_of` filesToRemove (vars s')
  ∧ journal (store s) `prefix_of` journal (store s')
  ∧ (∀ p, is_Some (artFiles (art s) !! p)
          → is_Some (artFiles (art s') !! p)).

(** No row and no indexed file has an id above [lastId]. *)
Definition idsBelow (s : Walk) : Prop :=
  (∀ r, r ∈ tracks (store s) → id r ≤ lastId (vars s))
  ∧ (∀ path i, files (vars s) !! path = Some i → i ≤ lastId (vars s)).

(** The tests a file that is not in the index has to pass to be added. *)
Definition accepted (w : World) (blacklist : list QString)
    (path : QString) : bool :=
  negb (isFile w (Qt.path path +:+ "/.nomedia"))
  && negb (isBlacklisted blacklist path)
  && contains mimeTypesExtensions (Qt.suffix path)
  && contains mimeTypesByContent (mimeTypeForFile w path).

(** ** The stages of a scan *)

(** The entries the walk of a scan goes through. *)
Definition scanEntries (w : World) : list QString :=
  prepareDirs (libraryDirectories w) ≫= dirIterator w.

(** The state in which the walk of a scan starts. *)
Definition scanStart (w : World) (db : Database) (disk : MediaArtDir)
  : Walk :=
  startOfWalk w (prepareDirs (libraryDirectories w))
    (prepareDirs (blacklistedDirectories w)) (exec w SelectTracks db).2 disk.

(** The walk of a scan: whether it reached its end, and its last state. *)
Definition scanWalk (w : World) (db : Database) (disk : MediaArtDir)
  : bool * Walk :=
  walk w (prepareDirs (blacklistedDirectories w)) (useDirectoryMediaArt w)
    (scanEntries w) 0 (scanStart w db disk).

(** The sample library when the application is shut down at the fourth
    entry of the walk, the song. *)
Definition shutDown : World :=
  {| libraryDirectories := libraryDirectories scenario;
     blacklistedDirectories := blacklistedDirectories scenario;
     useDirectoryMediaArt := useDirectoryMediaArt scenario;
     mMediaArtDirectory := mMediaArtDirectory scenario;
     fileExists := fileExists scenario; isDir := isDir scenario;
     isFile := isFile scenario; isReadable := isReadable scenario;
     lastModified := lastModified scenario;
     entryList := entryList scenario; dirIterator := dirIterator scenario;
     mimeTypeForFile := mimeTypeForFile scenario;
     getTrackInfo := getTrackInfo scenario; md5Hex := md5Hex scenario;
     preferredSuffix := preferredSuffix scenario;
     mkpathData := mkpathData scenario;
     databaseOpens := databaseOpens scenario;
     storedFields := storedFields scenario; execOk := execOk scenario;
     openForWrite := openForWrite scenario;
     removeOk := removeOk scenario;
     shutdownAfter := Some 3%nat |}.

(** The sample library with its directory configured twice, with and
    without the final separator. *)
Definition configuredTwice : World :=
  {| libraryDirectories := ["/music"; "/music/"];
     blacklistedDirectories := blacklistedDirectories scenario;
     useDirectoryMediaArt := useDirectoryMediaArt scenario;
     mMediaArtDirectory := mMediaArtDirectory scenario;
     fileExists := fileExists scenario; isDir := isDir scenario;
     isFile := isFile scenario; isReadable := isReadable scenario;
     lastModified := lastModified scenario;
     entryList := entryList scenario; dirIterator := dirIterator scenario;
     mimeTypeForFile := mimeTypeForFile scenario;
     getTrackInfo := getTrackInfo scenario; md5Hex := md5Hex scenario;
     preferredSuffix := preferredSuffix scenario;
     mkpathData := mkpathData scenario;
     databaseOpens := databaseOpens scenario;
     storedFields := storedFields scenario; execOk := execOk scenario;
     openForWrite := openForWrite scenario;
     removeOk := removeOk scenario;
     shutdownAfter := shutdownAfter scenario |}.

(** The song's row under a given id. *)
Definition songRowOf (i : Z) (art : QString) : Track :=
  {| id := i; filePath := "/music/song.mp3"; modificationTime := 1000;
     title := Some "T"; artist := Some "A"; album := Some "Alb"; year := 0;
     trackNumber := 0; discNumber := None; genre := None;
     duration := 120; mediaArtColumn := answered art |}.

(** ** Random media art *)

(** What a query for random media art may answer: nothing when no row
    kept by the [WHERE] clause has media art, and else the media art of
    one of them. *)
Definition chosenAmong (rows : list Track) (keep : Track → bool)
    (answer : QString) : Prop :=
  if Qt.isEmpty answer
  then ∀ r, r ∈ rows → keep r = true → mediaArt r = EmptyString
  else ∃ r, r ∈ rows ∧ keep r = true ∧ mediaArt r = answer.

(** An object whose store holds the song's row. *)
Definition withSong : LibraryUtils :=
  {| mDatabaseInitialized := true; mCreatedTable := false;
     mUpdating := false; database := indexed "/music/folder.jpg" |}.

(** The path under which the sample environments keep the embedded art
    of the song. *)
Definition songArt : QString :=
  "/cache/media-art/11111111111111111111111111111111-embedded.png".

(** ** Configured directories *)

(** The path lies under one of the directories: it is the directory, with
    its final separator, followed by more. *)
Definition under (dirs : list QString) (path : QString) : Prop :=
  ∃ d rest, d ∈ dirs ∧ path = withSlash d +:+ rest.

(** ** Statements that fail *)

(** The environment with another answer to which statements succeed. *)
Definition withExecOk (ok : nat → bool) (w : World) : World :=
  {| libraryDirectories := libraryDirectories w;
     blacklistedDirectories := blacklistedDirectories w;
     useDirectoryMediaArt := useDirectoryMediaArt w;
     mMediaArtDirectory := mMediaArtDirectory w;
     fileExists := fileExists w; isDir := isDir w;
     isFile := isFile w; isReadable := isReadable w;
     lastModified := lastModified w;
     entryList := entryList w; dirIterator := dirIterator w;
     mimeTypeForFile := mimeTypeForFile w;
     getTrackInfo := getTrackInfo w; md5Hex := md5Hex w;
     preferredSuffix := preferredSuffix w;
     mkpathData := mkpathData w;
     databaseOpens := databaseOpens w;
     storedFields := storedFields w; execOk := ok;
     openForWrite := openForWrite w;
     removeOk := removeOk w;
     shutdownAfter := shutdownAfter w |}.

(** The statements a scan has sent when it ends, after those sent before
    it. *)
Definition sent (outcome : Outcome) : list Statement :=
  match outcome with
  | OpenFailed => []
  | SelectFailed db _ | Shutdown db _ | Finished db _ => journal db
  end.

(** How a scan ends, whatever it leaves. *)
Inductive Ending := NotOpened | NotRead | Interrupted | Completed.

Definition ending (outcome : Outcome) : Ending :=
  match outcome with
  | OpenFailed => NotOpened
  | SelectFailed _ _ => NotRead
  | Shutdown _ _ => Interrupted
  | Finished _ _ => Completed
  end.

(** Two states of a walk that differ in the rows of the store at most. *)
Definition sameButRows (s1 s2 : Walk) : Prop :=
  vars s1 = vars s2 ∧ art s1 = art s2
  ∧ journal (store s1) = journal (store s2).
Set Warnings "-clear-no-such-hyp".

(** * Properties *)

(** ** General facts on lists *)

Lemma filter_none {A} (P : A → Prop) `{!∀ x, Decision (P x)} (l : list A) :
  Forall (λ x, ¬ P x) l → filter P l = [].
Proof.
  induction 1 as [|x l Hx _ IH]; [done |].
  by rewrite filter_cons_False.
Qed.

Lemma bind_bind {A B C} (f : A → list B) (g : B → list C) (l : list A) :
  (l ≫= f) ≫= g = l ≫= λ x, f x ≫= g.
Proof.
  induction l as [|x l IH]; [done |].
  by rewrite !bind_cons, bind_app, IH.
Qed.

Lemma length_bind_uniform {A B} (f : A → list B) (n : nat) (l : list A) :
  (∀ x, length (f x) = n) → length (l ≫= f) = (length l * n)%nat.
Proof.
  intros Hf. induction l as [|x l IH]; csimpl; [done |].
  by rewrite length_app, Hf, IH.
Qed.

Lemma sumZ_perm (l k : list Z) :
  l ≡ₚ k → foldr Z.add 0 l = foldr Z.add 0 k.
Proof. induction 1; simpl; lia. Qed.

(** * Library and blacklist directories *)

Lemma prefix_cons a b p s :
  String.prefix (String a p) (String b s)
  = if Ascii.eqb a b then String.prefix p s else false.
Proof.
  cbn -[ascii_dec]. destruct (ascii_dec a b) as [->|Hne].
  - by rewrite Ascii.eqb_refl.
  - by apply Ascii.eqb_neq in Hne as ->.
Qed.

Lemma prefix_app p s : String.prefix p s = true ↔ ∃ rest, s = p +:+ rest.
Proof.
  revert s. induction p as [|a p IH]; intros s.
  - split; [intros _; by exists s | by destruct s].
  - destruct s as [|b s];
      [split; [done | intros [r Hr]; discriminate] |].
    rewrite prefix_cons. destruct (Ascii.eqb_spec a b) as [->|Hne].
    + rewrite IH. split; intros [r Hr]; exists r; [by rewrite Hr | by injection Hr].
    + split; [done | intros [r Hr]; injection Hr; congruence].
Qed.

Lemma endsWithChar_app s c : Qt.endsWithChar (s +:+ String c EmptyString) c = true.
Proof.
  induction s as [|a s IH]; simpl; [apply Ascii.eqb_refl |].
  destruct (s +:+ String c EmptyString) eqn:E; [by destruct s | exact IH].
Qed.

Lemma withSlash_ends d : Qt.endsWithChar (withSlash d) "/" = true.
Proof.
  unfold withSlash. destruct (Qt.endsWithChar d "/") eqn:E; [done |].
  apply endsWithChar_app.
Qed.

Lemma prefix_sibling d c rest :
  Qt.endsWithChar d "/" = false → c ≠ "/"%char →
  String.prefix (d +:+ "/") (d +:+ String c rest) = false.
Proof.
  intros _ Hc. induction d as [|a d IH].
  - change (String.prefix (String "/" EmptyString) (String c rest) = false).
    rewrite prefix_cons. destruct (Ascii.eqb_spec "/" c); congruence.
  - change (String.prefix (String a (d +:+ "/")) (String a (d +:+ String c rest)) = false).
    by rewrite prefix_cons, Ascii.eqb_refl.
Qed.

Lemma elem_of_removeDuplicatesFrom seen l x :
  x ∈ Qt.removeDuplicatesFrom seen l ↔ x ∈ l ∧ x ∉ seen.
Proof.
  revert seen. induction l as [|y l IH]; intros seen; simpl.
  - split; [by intros ?%elem_of_nil | by intros [?%elem_of_nil _]].
  - case_bool_decide as Hy.
    + rewrite IH, elem_of_cons. split; [intros [? ?]; auto |].
      intros [[->|?] ?]; [done | auto].
    + rewrite !elem_of_cons, IH, not_elem_of_cons.
      destruct (decide (x = y)) as [->|Hxy]; naive_solver.
Qed.

Lemma NoDup_removeDuplicatesFrom seen l :
  NoDup (Qt.removeDuplicatesFrom seen l).
Proof.
  revert seen. induction l as [|y l IH]; intros seen; simpl.
  - constructor.
  - case_bool_decide; [apply IH |].
    constructor; [| apply IH].
    rewrite elem_of_removeDuplicatesFrom, elem_of_cons. tauto.
Qed.

Lemma isBlacklisted_spec dirs path :
  isBlacklisted dirs path = true ↔ ∃ d, d ∈ dirs ∧ Qt.startsWith path d = true.
Proof.
  induction dirs as [|d dirs IH]; simpl.
  - split; [done | intros (d & Hd & _); by apply elem_of_nil in Hd].
  - destruct (Qt.startsWith path d) eqn:E.
    + split; [intros _; exists d; split; [left | done] | done].
    + rewrite IH. split.
      * intros (d' & Hd' & H). exists d'. split; [by right | done].
      * intros (d' & Hd' & H). apply elem_of_cons in Hd' as [->|Hd']; [congruence |].
        by exists d'.
Qed.

Lemma inLibrary_isBlacklisted dirs path : inLibrary dirs path = isBlacklisted dirs path.
Proof. induction dirs as [|d dirs IH]; simpl; [done | by rewrite IH]. Qed.

Lemma elem_of_prepareDirs dirs d :
  d ∈ prepareDirs dirs ↔ ∃ c, c ∈ dirs ∧ d = withSlash c.
Proof.
  unfold prepareDirs, Qt.removeDuplicates. rewrite list_elem_of_fmap.
  split.
  - intros (c & -> & Hc). apply elem_of_removeDuplicatesFrom in Hc as [Hc _].
    by exists c.
  - intros (c & Hc & ->). exists c. split; [done |].
    apply elem_of_removeDuplicatesFrom. split; [done | apply not_elem_of_nil].
Qed.

Lemma isBlacklisted_prepareDirs dirs path :
  isBlacklisted (prepareDirs dirs) path = true ↔ under dirs path.
Proof.
  rewrite isBlacklisted_spec. unfold under. split.
  - intros (d' & Hd' & Hp). apply elem_of_prepareDirs in Hd' as (d & Hd & ->).
    apply prefix_app in Hp as [rest ->]. by exists d, rest.
  - intros (d & rest & Hd & ->). exists (withSlash d). split.
    + apply elem_of_prepareDirs. by exists d.
    + apply prefix_app. by exists rest.
Qed.

Lemma inLibrary_prepareDirs dirs path :
  inLibrary (prepareDirs dirs) path = true ↔ under dirs path.
Proof. rewrite inLibrary_isBlacklisted. apply isBlacklisted_prepareDirs. Qed.

Lemma not_under_sibling d c rest :
  Qt.endsWithChar d "/" = false → c ≠ "/"%char →
  ¬ under [d] (d +:+ String c rest).
Proof.
  intros Hd Hc (d' & rest' & Hd' & Heq).
  apply list_elem_of_singleton in Hd'. subst d'.
  assert (H : String.prefix (withSlash d) (d +:+ String c rest) = true)
    by (apply prefix_app; by exists rest').
  unfold withSlash in H. rewrite Hd in H.
  by rewrite prefix_sibling in H.
Qed.

(** ** Facts on strings and paths *)

Lemma splitLast_none c s : occurs c s = false → Qt.splitLast c s = None.
Proof.
  induction s as [|a s IH]; simpl; [done |].
  intros [Ha Hs]%orb_false_elim. by rewrite IH, Ha.
Qed.

Lemma splitLast_app c a b :
  occurs c b = false → Qt.splitLast c (a +:+ String c b) = Some (a, b).
Proof.
  intros Hb. induction a as [|x a IH]; simpl.
  - by rewrite splitLast_none, Ascii.eqb_refl.
  - by rewrite IH.
Qed.

Lemma splitFirst_app c a b :
  occurs c a = false → Qt.splitFirst c (a +:+ String c b) = Some (a, b).
Proof.
  induction a as [|x a IH]; simpl.
  - intros _. by rewrite Ascii.eqb_refl.
  - intros [Hx Ha]%orb_false_elim. by rewrite Hx, IH.
Qed.

Lemma occurs_app c a b : occurs c (a +:+ b) = occurs c a || occurs c b.
Proof.
  induction a as [|x a IH]; simpl; [done |]. by rewrite IH, orb_assoc.
Qed.

Lemma left_app a b : Qt.left (String.length a) (a +:+ b) = a.
Proof. induction a as [|x a IH]; simpl; [by destruct b | by rewrite IH]. Qed.

Lemma append_cons x a t : String x a +:+ t = String x (a +:+ t).
Proof. done. Qed.

Lemma indexOf_cons sub x r :
  Qt.indexOf sub (String x r)
  = if String.prefix sub (String x r) then Some 0%nat
    else S <$> Qt.indexOf sub r.
Proof. done. Qed.

Lemma indexOf_app_fresh (c : ascii) (sub a b : QString) :
  occurs c a = false →
  Qt.indexOf (String c sub) (a +:+ String c sub +:+ b)
  = Some (String.length a).
Proof.
  induction a as [|x a IH]; intros Ha.
  - assert (H : String.prefix (String c sub) (String c sub +:+ b) = true)
      by (apply prefix_app; by exists b).
    simpl in *. by rewrite H.
  - simpl in Ha. apply orb_false_elim in Ha as [Hx Ha].
    rewrite append_cons, indexOf_cons, prefix_cons.
    rewrite (eqb_sym c x), Hx. by rewrite (IH Ha).
Qed.

Lemma indexOf_app (sub a b : QString) :
  is_Some (Qt.indexOf sub (a +:+ sub +:+ b)).
Proof.
  induction a as [|x a IH].
  - assert (H : String.prefix sub (sub +:+ b) = true)
      by (apply prefix_app; by exists b).
    destruct sub; simpl in *; [by destruct b; eauto |]. rewrite H. eauto.
  - rewrite append_cons, indexOf_cons.
    destruct (String.prefix sub _); [eauto |].
    destruct IH as [n ->]. simpl. eauto.
Qed.

Lemma nocase_app a b : Sql.nocase (a +:+ b) = Sql.nocase a +:+ Sql.nocase b.
Proof.
  induction a as [|x a IH]; [done |].
  rewrite append_cons. cbn [Sql.nocase]. by rewrite IH.
Qed.

Lemma string_app_assoc (a b c : string) :
  (a +:+ b) +:+ c = a +:+ (b +:+ c).
Proof. induction a as [|x a IH]; [done |]. by rewrite !append_cons, IH. Qed.

Lemma isHexDigit_plain c :
  isHexDigit c = true →
  Ascii.eqb c "/" = false ∧ Ascii.eqb c "." = false ∧ Ascii.eqb c "-" = false.
Proof.
  unfold isHexDigit. cbn [occurs]. intros H.
  repeat (apply orb_prop in H as [H|H];
          [apply Ascii.eqb_eq in H; subst c; by vm_compute |]).
  done.
Qed.

Lemma allHex_plain s :
  allHex s = true →
  occurs "/" s = false ∧ occurs "." s = false ∧ occurs "-" s = false.
Proof.
  induction s as [|a s IH]; cbn [allHex occurs]; [done |].
  intros [Ha Hs]%andb_prop.
  destruct (isHexDigit_plain a Ha) as (H1 & H2 & H3).
  destruct (IH Hs) as (I1 & I2 & I3).
  by rewrite H1, H2, H3, I1, I2, I3.
Qed.

(** ** The string operations on sample paths *)

Example path_of_file : Qt.path "/music/a/song.mp3" = "/music/a".
Proof. reflexivity. Qed.

Example path_at_root : Qt.path "/song.mp3" = "/".
Proof. reflexivity. Qed.

Example suffix_is_last : Qt.suffix "/music/a/song.tar.mp3" = "mp3".
Proof. reflexivity. Qed.

Example baseName_is_first :
  Qt.baseName "/cache/media-art/0123abcd-embedded.tar.gz"
  = "0123abcd-embedded".
Proof. reflexivity. Qed.

Example embeddedKey_of_cached :
  embeddedKey "/cache/media-art/0123abcd-embedded.png" = "0123abcd".
Proof. reflexivity. Qed.

Example embeddedKey_without_marker :
  embeddedKey "/cache/media-art/X-EMBEDDED.png" = "X-EMBEDDED"
  ∧ isEmbeddedName "X-EMBEDDED.png" = true.
Proof. split; reflexivity. Qed.

Example media_art_names :
  isMediaArtName "AlbumArtSmall.JPG" = true
  ∧ isMediaArtName "folder.jpg" = true
  ∧ isMediaArtName "Front.png" = true
  ∧ isMediaArtName "cover.jpg.bak" = false
  ∧ isMediaArtName "mycover.jpg" = false
  ∧ isMediaArtName "cover.gif" = false.
Proof. repeat split; reflexivity. Qed.

Example removeDuplicates_keeps_first :
  Qt.removeDuplicates ["/b"; "/a"; "/b"; "/a/"] = ["/b"; "/a"; "/a/"]
  ∧ prepareDirs ["/b"; "/a"; "/b"; "/a/"] = ["/b/"; "/a/"; "/a/"].
Proof. split; reflexivity. Qed.

Example toInt_wraps :
  Qt.toInt 120 = 120 ∧ Qt.toInt (2 ^ 31) = - 2 ^ 31 ∧ Qt.toInt (-1) = -1.
Proof. repeat split; reflexivity. Qed.

Example groupById_orders :
  id <$> Sql.groupById [songRow "b"; setMediaArtOf (Some "a") (songRow "b")]
  = [0].
Proof. reflexivity. Qed.

(** * Cartesian expansion *)

Lemma emptyIfNull_id s : emptyIfNull s = s.
Proof. by destruct s. Qed.

Lemma forEachOrOnce_bind strings f :
  forEachOrOnce strings f = orOnce strings ≫= f.
Proof.
  destruct strings as [|x l]; [| done].
  simpl. by rewrite app_nil_r.
Qed.

Lemma sizeOrOne_length strings : sizeOrOne strings = length (orOnce strings).
Proof. by destruct strings. Qed.

Lemma length_expansion info :
  length (expansion info)
  = (sizeOrOne (tagutils.artists info) * sizeOrOne (tagutils.albums info)
     * sizeOrOne (tagutils.genres info))%nat.
Proof.
  unfold expansion. rewrite !sizeOrOne_length.
  rewrite (length_bind_uniform _
             (length (orOnce (tagutils.albums info))
              * length (orOnce (tagutils.genres info)))); [lia |].
  intros a.
  rewrite (length_bind_uniform _ (length (orOnce (tagutils.genres info))));
    [lia |].
  intros al. rewrite (length_bind_uniform _ 1); [lia | done].
Qed.

(** The bound values of a statement, as a bind over the product. *)
Lemma binds_expansion path info art :
  forEachOrOnce (tagutils.artists info) (λ artist,
    forEachOrOnce (tagutils.albums info) (λ album,
      forEachOrOnce (tagutils.genres info) (λ genre,
        [Some path; tagutils.title info; emptyIfNull artist;
         emptyIfNull album; emptyIfNull (tagutils.discNumber info);
         emptyIfNull genre; emptyIfNull (answered art)])))
  = expansion info ≫= λ e,
      [Some path; tagutils.title info; e.1.1; e.1.2;
       tagutils.discNumber info; e.2; answered art].
Proof.
  unfold expansion. rewrite forEachOrOnce_bind, bind_bind.
  apply list_bind_ext; [| done]. intros a.
  rewrite forEachOrOnce_bind, bind_bind.
  apply list_bind_ext; [| done]. intros al.
  rewrite forEachOrOnce_bind, bind_bind.
  apply list_bind_ext; [| done]. intros g.
  rewrite bind_singleton. simpl. by rewrite !emptyIfNull_id.
Qed.

Lemma boundRows_bind i mtime info art path
    (es : list (Nullable * Nullable * Nullable)) :
  Sql.boundRows (length es) i mtime (tagutils.year info)
    (tagutils.trackNumber info) (tagutils.duration info)
    (es ≫= λ e, [Some path; tagutils.title info; e.1.1; e.1.2;
                  tagutils.discNumber info; e.2; answered art])
  = Some (trackRow i path mtime info art <$> es).
Proof.
  induction es as [|e es IH]; [done |].
  csimpl. by rewrite IH.
Qed.

Lemma apply_insertStatement i path mtime info art rows :
  Sql.apply (insertStatement i path mtime info art) rows
  = Some (rows ++ expandedRows i path mtime info art).
Proof.
  unfold insertStatement, Sql.apply.
  rewrite binds_expansion, <- length_expansion, boundRows_bind. done.
Qed.

(** The statement built by [updateTrackInDatabase] inserts one row per
    element of artists x albums x genres, an empty list counting as one
    entry; the rows share id, modification time, title, duration, disc
    number, file path and media art. *)
Lemma insert_is_cartesian_expansion (w : World) (i : Z) (path : QString)
    (info : tagutils.Info) (art : QString) (db : Database) :
  let mtime := lastModified w path in
  let rows := expandedRows i path mtime info art in
  (execOk w (length (journal db)) = true →
   tracks (updateTrackInDatabase w false i path info art db)
     = tracks db ++ rows)
  ∧ length rows
    = (length (orOnce (tagutils.artists info))
       * length (orOnce (tagutils.albums info))
       * length (orOnce (tagutils.genres info)))%nat
  ∧ (∀ a al g, a ∈ orOnce (tagutils.artists info) →
       al ∈ orOnce (tagutils.albums info) →
       g ∈ orOnce (tagutils.genres info) →
       trackRow i path mtime info art (a, al, g) ∈ rows)
  ∧ Forall (λ r, id r = i ∧ modificationTime r = mtime
                 ∧ title r = tagutils.title info
                 ∧ duration r = tagutils.duration info
                 ∧ discNumber r = tagutils.discNumber info
                 ∧ filePath r = path ∧ mediaArt r = art) rows.
Proof.
  intros mtime rows.
  split.
  { intros Hok. unfold updateTrackInDatabase, exec. rewrite Hok.
    fold mtime. by rewrite apply_insertStatement. }
  split.
  { unfold rows, expandedRows. rewrite length_fmap, length_expansion.
    by rewrite !sizeOrOne_length. }
  split.
  { intros a al g Ha Hal Hg. unfold rows, expandedRows.
    apply list_elem_of_fmap. exists (a, al, g). split; [done |].
    unfold expansion. apply list_elem_of_bind. exists a. split; [| done].
    apply list_elem_of_bind. exists al. split; [| done].
    apply list_elem_of_bind. exists g. split; [| done]. by left. }
  unfold rows, expandedRows. apply Forall_fmap, Forall_forall.
  intros e _. cbn. repeat split. unfold mediaArt. cbn.
  unfold answered. by destruct art.
Qed.

(** C1 fails on the code.  For a tag list that is empty [forEachOrOnce]
    passes [QString()] and [emptyIfNull] returns [QString()] for it, so
    the value bound is [NULL] and not the empty string: every row of a
    file without album has the album [NULL].  A file with artists A and B,
    genre X and no album gets two rows, one per artist, both with album
    [NULL]; [albumsCount], which counts no [NULL], then answers 0, and 1
    on the rows of the specification. *)
Theorem insert_stores_null_for_missing :
  (∀ (w : World) i path info art db,
     tagutils.albums info = [] →
     execOk w (length (journal db)) = true →
     let db' := updateTrackInDatabase w false i path info art db in
     let rows := expandedRows i path (lastModified w path) info art in
     tracks db' = tracks db ++ rows
     ∧ Forall (λ r, album r = None) rows
     ∧ Forall (λ r, album r = Some EmptyString)
         (specifiedRows i path (lastModified w path) info art))
  ∧ (let db' := updateTrackInDatabase scenario false 0 "/music/song.mp3"
                  twoArtists EmptyString emptyStore in
     let row artist album :=
       {| id := 0; filePath := "/music/song.mp3"; modificationTime := 1000;
          title := Some "T"; artist := artist; album := album;
          year := 2001; trackNumber := 3; discNumber := Some "1";
          genre := Some "X"; duration := 200; mediaArtColumn := None |} in
     tracks db' = [row (Some "A") None; row (Some "B") None]
     ∧ specifiedRows 0 "/music/song.mp3" 1000 twoArtists EmptyString
       = [row (Some "A") (Some EmptyString);
          row (Some "B") (Some EmptyString)]
     ∧ (albumsCount scenario (libraryOf (tracks db'))).1 = 0
     ∧ (albumsCount scenario
          (libraryOf (specifiedRows 0 "/music/song.mp3" 1000 twoArtists
                        EmptyString))).1 = 1).
Proof.
  split.
  - intros w i path info art db Halbums Hok db' rows.
    split.
    { unfold db', updateTrackInDatabase, exec. rewrite Hok.
      by rewrite apply_insertStatement. }
    unfold rows, expandedRows, specifiedRows, expansion, productOf.
    rewrite Halbums. cbn [orOnce].
    split; apply Forall_fmap, Forall_forall; intros e He; cbn;
      apply list_elem_of_bind in He as (a & He & _);
      apply list_elem_of_bind in He as (al & He & Hal);
      apply list_elem_of_bind in He as (g & He & _);
      apply list_elem_of_singleton in He; subst e;
      apply list_elem_of_singleton in Hal; by subst al.
  - cbv zeta. repeat split; vm_compute; reflexivity.
Qed.

(** * Queries on an uninitialised store *)

(** [initDatabase] sets [mDatabaseInitialized] only at its end: the data
    directory was made, the store opened and, when the table had to be
    created, dropping an old one and creating it succeeded. *)
Lemma initDatabase_initialized (w : World) (rows : list Track) :
  mDatabaseInitialized (initDatabase w rows) = true →
  mkpathData w = true ∧ databaseOpens w = true
  ∧ (mustCreateTable (storedFields w) = true →
     storedFields w = None ∧ execOk w 0 = true
     ∨ is_Some (storedFields w) ∧ execOk w 0 = true ∧ execOk w 1 = true).
Proof.
  unfold initDatabase.
  destruct (mkpathData w); [| done]. destruct (databaseOpens w); [| done].
  cbn [negb]. destruct (mustCreateTable (storedFields w)); [| done].
  destruct (storedFields w) as [names|].
  - unfold exec. cbn [journal length tracks Sql.apply].
    destruct (execOk w 0); simpl; destruct (execOk w 1); simpl; try done.
    intros _. split; [done |]. split; [done |]. intros _. right. eauto.
  - unfold exec. cbn [journal length tracks Sql.apply].
    destruct (execOk w 0); [| done].
    intros _. split; [done |]. split; [done |]. intros _. by left.
Qed.

Lemma query_sends (w : World) (st : Statement) (lu : LibraryUtils) :
  journal (database (query w st lu).2) = journal (database lu) ++ [st].
Proof.
  unfold query, exec.
  destruct (execOk w _); [destruct (Sql.apply _ _) |]; done.
Qed.

(** C10: while [mDatabaseInitialized] is false, which is how
    [initDatabase] leaves it when it does not succeed, the four counts
    answer 0 and the four artwork picks answer the empty string, and the
    object, with the journal of statements sent, is as before: no query is
    executed. *)
Theorem queries_without_database (w : World) (lu : LibraryUtils)
    (rnd : nat) (a al g : Nullable) :
  mDatabaseInitialized lu = false →
  artistsCount w lu = (0, lu)
  ∧ albumsCount w lu = (0, lu)
  ∧ tracksCount w lu = (0, lu)
  ∧ tracksDuration w lu = (0, lu)
  ∧ randomMediaArt w rnd lu = (EmptyString, lu)
  ∧ randomMediaArtForArtist w rnd a lu = (EmptyString, lu)
  ∧ randomMediaArtForAlbum w rnd a al lu = (EmptyString, lu)
  ∧ randomMediaArtForGenre w rnd g lu = (EmptyString, lu).
Proof.
  intros Hinit.
  unfold artistsCount, albumsCount, tracksCount, tracksDuration,
    randomMediaArt, randomMediaArtForArtist, randomMediaArtForAlbum,
    randomMediaArtForGenre.
  rewrite Hinit. simpl. repeat split.
Qed.

Lemma queries_without_database_witness :
  let lu := initDatabase noDataDirectory [songRow "/music/folder.jpg"] in
  mDatabaseInitialized lu = false
  ∧ tracksCount noDataDirectory lu = (0, lu)
  ∧ journal (database lu) = [].
Proof.
  intros lu. split; [reflexivity |]. split; [| reflexivity].
  exact (proj1 (proj2 (proj2
    (queries_without_database noDataDirectory lu 0 None None None
       eq_refl)))).
Defined.

(** * Durations and counts *)

Section GroupById.

Implicit Types (r x : Track) (acc rows : list Track).

Lemma elem_of_insertById r acc x :
  StronglySorted byId acc →
  x ∈ Sql.insertById r acc
  ↔ x ∈ acc ∨ (x = r ∧ id r ∉ id <$> acc).
Proof.
  induction acc as [|y acc IH]; intros Hs; simpl.
  - rewrite list_elem_of_singleton. split; [intros ->; right | intros [?%elem_of_nil|[-> _]]; done].
    split; [done | apply not_elem_of_nil].
  - apply StronglySorted_inv in Hs as [Hs Hy].
    rewrite Forall_forall in Hy.
    destruct (Z.ltb_spec (id r) (id y)) as [Hlt|Hge].
    + rewrite (elem_of_cons (y :: acc)). split.
      * intros [->|Hx]; [right | by left]. split; [done |].
        rewrite not_elem_of_cons. split; [lia |].
        intros (z & Hz & Hin)%list_elem_of_fmap.
        apply Hy in Hin. unfold byId in Hin. lia.
      * intros [Hx|[-> _]]; [by right | by left].
    + destruct (Z.eqb_spec (id r) (id y)) as [Heq|Hne].
      * split; [by left |]. intros [Hx|[-> Hn]]; [done |].
        exfalso. apply Hn. rewrite Heq. by left.
      * rewrite not_elem_of_cons, !elem_of_cons, (IH Hs).
        naive_solver.
Qed.

Lemma sorted_insertById r acc :
  StronglySorted byId acc → StronglySorted byId (Sql.insertById r acc).
Proof.
  induction acc as [|y acc IH]; intros Hs; simpl.
  - repeat constructor.
  - pose proof Hs as Hs0.
    apply StronglySorted_inv in Hs as [Hs Hy].
    destruct (Z.ltb_spec (id r) (id y)) as [Hlt|Hge].
    + constructor; [done |]. constructor; [done |].
      eapply Forall_impl; [exact Hy |]. unfold byId. intros; simpl in *; lia.
    + destruct (Z.eqb_spec (id r) (id y)) as [Heq|Hne]; [done |].
      constructor; [by apply IH |].
      apply Forall_forall. intros x Hx.
      apply elem_of_insertById in Hx as [Hx|[-> _]]; [| | done].
      * rewrite Forall_forall in Hy. by apply Hy.
      * unfold byId. lia.
Qed.

Lemma groupById_snoc rows r :
  Sql.groupById (rows ++ [r]) = Sql.insertById r (Sql.groupById rows).
Proof. unfold Sql.groupById. by rewrite foldl_app. Qed.

Lemma sorted_groupById rows : StronglySorted byId (Sql.groupById rows).
Proof.
  induction rows as [|r rows IH] using rev_ind; [constructor |].
  rewrite groupById_snoc. by apply sorted_insertById.
Qed.

(** The rows of [groupById]: the first row of each id. *)
Lemma elem_of_groupById rows x :
  x ∈ Sql.groupById rows ↔ head (filter (λ r, id r = id x) rows) = Some x.
Proof.
  revert x. induction rows as [|r rows IH] using rev_ind; intros x.
  - split; [by intros ?%elem_of_nil | done].
  - rewrite groupById_snoc, elem_of_insertById by apply sorted_groupById.
    rewrite filter_app, IH.
    assert (Hids : id r ∈ id <$> Sql.groupById rows
                   ↔ filter (λ r0, id r0 = id r) rows ≠ []).
    { split.
      - intros (z & Hz & Hin)%list_elem_of_fmap. apply IH in Hin.
        rewrite Hz. intros E. by rewrite E in Hin.
      - intros Hne. destruct (filter _ rows) as [|z l] eqn:E; [done |].
        assert (Hz : z ∈ filter (λ r0, id r0 = id r) rows)
          by (rewrite E; left).
        apply list_elem_of_filter in Hz as [Hz _].
        apply list_elem_of_fmap. exists z. split; [done |].
        apply IH. by rewrite Hz, E. }
    destruct (filter (λ r0, id r0 = id x) rows) as [|z l] eqn:E; simpl.
    + split.
      * intros [?|[-> Hn]]; [done |].
        rewrite filter_cons_True by done. done.
      * intros Hh. right.
        destruct (decide (id r = id x)) as [Hrx|Hrx].
        -- rewrite filter_cons_True in Hh by done. simplify_eq/=.
           split; [done |]. rewrite Hids, E. tauto.
        -- by rewrite filter_cons_False in Hh.
    + split; [intros [?|[-> Hn]]; [done |] | by left].
      exfalso. apply Hn, Hids. by rewrite E.
Qed.

Lemma NoDup_groupById_ids rows : NoDup (id <$> Sql.groupById rows).
Proof.
  pose proof (sorted_groupById rows) as Hs.
  induction Hs as [|x l Hs IH Hx]; [constructor |].
  rewrite fmap_cons. constructor; [| done].
  intros (z & Hz & Hin)%list_elem_of_fmap.
  rewrite Forall_forall in Hx. apply Hx in Hin.
  unfold byId in Hin. lia.
Qed.

Lemma groupById_ids rows i :
  i ∈ id <$> Sql.groupById rows ↔ i ∈ id <$> rows.
Proof.
  rewrite !list_elem_of_fmap. split.
  - intros (x & -> & Hx). exists x. split; [done |].
    apply elem_of_groupById in Hx.
    apply (list_elem_of_filter (λ r, id r = id x) rows x).
    destruct (filter _ rows); [done |]. simplify_eq/=. left.
  - intros (x & -> & Hx).
    destruct (filter (λ r, id r = id x) rows) as [|z l] eqn:E.
    + assert (x ∈ filter (λ r, id r = id x) rows)
        by (by apply list_elem_of_filter).
      rewrite E in H. by apply elem_of_nil in H.
    + assert (Hz : z ∈ filter (λ r, id r = id x) rows) by (rewrite E; left).
      apply list_elem_of_filter in Hz as [Hz _].
      exists z. split; [done |]. apply elem_of_groupById. by rewrite Hz, E.
Qed.

Lemma groupById_ids_perm rows :
  id <$> Sql.groupById rows ≡ₚ distinctIds rows.
Proof.
  apply NoDup_Permutation.
  - apply NoDup_groupById_ids.
  - apply NoDup_remove_dups.
  - intros i. unfold distinctIds.
    by rewrite groupById_ids, elem_of_remove_dups.
Qed.

Lemma sumDuration_total rows :
  sumDuration rows = totalDuration rows.
Proof.
  unfold sumDuration, totalDuration.
  rewrite <- (sumZ_perm _ _ (fmap_Permutation (durationOf rows) _ _
                               (groupById_ids_perm rows))).
  f_equal. rewrite <- list_fmap_compose.
  apply Forall_fmap_ext_1, Forall_forall. intros x Hx. simpl.
  apply elem_of_groupById in Hx. unfold durationOf. by rewrite Hx.
Qed.

Lemma length_groupById rows :
  length (Sql.groupById rows) = length (distinctIds rows).
Proof.
  rewrite <- (length_fmap id). apply Permutation_length, groupById_ids_perm.
Qed.

End GroupById.

Lemma toInt_small z : - 2 ^ 31 ≤ z < 2 ^ 31 → Qt.toInt z = z.
Proof. intros H. unfold Qt.toInt. rewrite Z.mod_small; lia. Qed.

Lemma expansion_cons info : ∃ e es, expansion info = e :: es.
Proof.
  destruct (expansion info) as [|e es] eqn:E; [| by eauto].
  pose proof (length_expansion info) as H. rewrite E in H. simpl in H.
  rewrite !sizeOrOne_length in H.
  destruct (tagutils.artists info), (tagutils.albums info),
    (tagutils.genres info); simpl in H; lia.
Qed.

Lemma durationOf_app_old rows new i :
  i ∈ id <$> rows → durationOf (rows ++ new) i = durationOf rows i.
Proof.
  intros (x & -> & Hx)%list_elem_of_fmap. unfold durationOf.
  rewrite filter_app.
  destruct (filter (λ r, id r = id x) rows) as [|z l] eqn:E; [| done].
  assert (H : x ∈ filter (λ r, id r = id x) rows)
    by (by apply list_elem_of_filter).
  rewrite E in H. by apply elem_of_nil in H.
Qed.

(** A file expanded into several rows counts once. *)
Lemma totalDuration_expanded rows i path mtime info art :
  i ∉ id <$> rows →
  totalDuration (rows ++ expandedRows i path mtime info art)
  = totalDuration rows + tagutils.duration info.
Proof.
  intros Hi. unfold totalDuration.
  destruct (expansion_cons info) as (e & es & He).
  set (new := expandedRows i path mtime info art).
  assert (Hnew : id <$> new = replicate (length new) i).
  { unfold new, expandedRows. rewrite length_fmap. clear.
    induction (expansion info) as [|x l IH]; [done |].
    rewrite !fmap_cons, IH. done. }
  assert (Hperm : distinctIds (rows ++ new) ≡ₚ i :: distinctIds rows).
  { apply NoDup_Permutation.
    - apply NoDup_remove_dups.
    - constructor; [| apply NoDup_remove_dups].
      unfold distinctIds. by rewrite elem_of_remove_dups.
    - intros j. unfold distinctIds.
      rewrite elem_of_cons, !elem_of_remove_dups, fmap_app, elem_of_app, Hnew.
      unfold new, expandedRows. rewrite He. simpl.
      rewrite elem_of_cons, elem_of_replicate. naive_solver. }
  rewrite (sumZ_perm _ _ (fmap_Permutation _ _ _ Hperm)).
  rewrite fmap_cons. cbn [foldr].
  assert (Hd : durationOf (rows ++ new) i = tagutils.duration info).
  { unfold durationOf. rewrite filter_app.
    replace (filter (λ r, id r = i) rows) with (@nil Track).
    - unfold new, expandedRows. rewrite He. simpl.
      by rewrite filter_cons_True.
    - symmetry. apply filter_none, Forall_forall.
      intros x Hx Hid. apply Hi.
      apply list_elem_of_fmap. by exists x. }
  rewrite Hd.
  assert (Hold : durationOf (rows ++ new) <$> distinctIds rows
                 = durationOf rows <$> distinctIds rows).
  { apply Forall_fmap_ext_1, Forall_forall. intros j Hj.
    apply durationOf_app_old.
    unfold distinctIds in Hj. by rewrite elem_of_remove_dups in Hj. }
  rewrite Hold. lia.
Qed.

(** C8: [tracksDuration] answers the sum of the durations with one term
    per id, that of the id's row, as an [int]; a file expanded into several
    rows adds its duration once; and in the end-to-end scenario the scan
    leaves one row, [tracksCount] is 1 and [tracksDuration] is 120. *)
Theorem tracksDuration_once_per_id (w : World) (lu : LibraryUtils) :
  (mDatabaseInitialized lu = true →
   execOk w (length (journal (database lu))) = true →
   (tracksDuration w lu).1
     = Qt.toInt (totalDuration (tracks (database lu)))
   ∧ (- 2 ^ 31 ≤ totalDuration (tracks (database lu)) < 2 ^ 31 →
      (tracksDuration w lu).1 = totalDuration (tracks (database lu)))
   ∧ (tracksCount w lu).1
     = Qt.toInt (Z.of_nat (length (distinctIds (tracks (database lu))))))
  ∧ (∀ rows i path mtime info art,
       i ∉ id <$> rows →
       totalDuration (rows ++ expandedRows i path mtime info art)
       = totalDuration rows + tagutils.duration info)
  ∧ (let lu0 := initDatabase scenario [] in
     ∃ db disk,
       updateDatabase scenario (database lu0) ∅ = Finished db disk
       ∧ tracks db = [songRow "/music/folder.jpg"]
       ∧ (tracksCount scenario (withDatabase lu0 db)).1 = 1
       ∧ (tracksDuration scenario (withDatabase lu0 db)).1 = 120).
Proof.
  split; [| split].
  - intros Hinit Hok.
    unfold tracksDuration, tracksCount, query, exec.
    rewrite Hinit, Hok. simpl.
    rewrite sumDuration_total, length_groupById.
    split; [done |]. split; [| done].
    intros Hrange. by apply toInt_small.
  - intros. by apply totalDuration_expanded.
  - eexists _, _. split; [by vm_compute |]. by vm_compute.
Qed.

Lemma tracksDuration_once_per_id_witness :
  let lu := withDatabase (initDatabase scenario [])
              {| tracks := expandedRows 7 "/music/song.mp3" 1000
                             twoArtists EmptyString;
                 journal := [] |} in
  (tracksDuration scenario lu).1 = 200
  ∧ length (tracks (database lu)) = 2%nat.
Proof.
  intros lu. split; [| reflexivity].
  destruct (proj1 (tracksDuration_once_per_id scenario lu) eq_refl eq_refl)
    as (_ & H & _).
  rewrite H; [reflexivity |]. by vm_compute.
Defined.

(** * The index read at the start of a scan *)

Lemma insertNew_lookup_Some `{Countable K} {V} (k k' : K) (v v' : V)
    (m : gmap K V) :
  insertNew k v m !! k' = Some v' →
  m !! k' = Some v' ∨ (k' = k ∧ v' = v).
Proof.
  unfold insertNew. destruct (m !! k) eqn:E; [by left |].
  rewrite lookup_insert. destruct (decide (k = k')) as [->|].
  - intros [= ->]. by right.
  - by left.
Qed.

Lemma loadRow_indexFrom w libraries blacklist disk rows l row :
  row ∈ rows → indexFrom rows l →
  indexFrom rows (loadRow w libraries blacklist disk l row).
Proof.
  intros Hrow (Hf & Hm & Ha). unfold loadRow.
  destruct (if negb (fileExists w (filePath row)) || _ || _ then _ else _)
    as [[] noMedia]; [done |].
  assert (Harts : ∀ arts, arts = mediaArtHash l
                          ∨ arts = insertNew (Qt.toInt (id row))
                                     (mediaArt row) (mediaArtHash l) →
    ∀ i a, arts !! i = Some a →
      ∃ r, r ∈ rows ∧ Qt.toInt (id r) = i ∧ mediaArt r = a).
  { intros arts [->| ->] i a Hi; [by apply Ha |].
    apply insertNew_lookup_Some in Hi as [Hi|[-> ->]]; [by apply Ha |].
    by exists row. }
  destruct (if Qt.isEmpty (mediaArt row) then _ else _)
    as [[arts existance] deleted] eqn:E.
  assert (Hcase : arts = mediaArtHash l
                  ∨ arts = insertNew (Qt.toInt (id row)) (mediaArt row)
                             (mediaArtHash l)).
  { destruct (Qt.isEmpty (mediaArt row)); [simplify_eq; by right |].
    destruct (mediaArtExistanceHash l !! mediaArt row) as [[]|];
      [simplify_eq; by right | simplify_eq; by left |].
    destruct (QFile_exists w disk (mediaArt row)); simplify_eq;
      [by right | by left]. }
  split; [| split]; cbn [files modificationTimeHash mediaArtHash].
  - intros path i Hi.
    apply insertNew_lookup_Some in Hi as [Hi|[-> ->]]; [by apply Hf |].
    by exists row.
  - intros i m Hi.
    apply insertNew_lookup_Some in Hi as [Hi|[-> ->]]; [by apply Hm |].
    by exists row.
  - by apply Harts.
Qed.

Lemma loaded_indexFrom w libraries blacklist disk rows (rs : list Track) l :
  (∀ r, r ∈ rs → r ∈ rows) → indexFrom rows l →
  indexFrom rows (foldl (loadRow w libraries blacklist disk) l rs).
Proof.
  revert l. induction rs as [|r rs IH]; intros l Hrs Hl; [done |].
  simpl. apply IH.
  - intros x Hx. apply Hrs. by right.
  - apply loadRow_indexFrom; [| done]. apply Hrs. by left.
Qed.

Lemma groupById_rows rows x : x ∈ Sql.groupById rows → x ∈ rows.
Proof.
  intros Hx%elem_of_groupById.
  apply (list_elem_of_filter (λ r, id r = id x) rows x).
  destruct (filter _ rows); [done |]. simplify_eq/=. left.
Qed.

(** The index a scan works on is read from the rows of the store. *)
Lemma startOfWalk_indexFrom w libraries blacklist db disk :
  indexFrom (tracks db) (vars (startOfWalk w libraries blacklist db disk)).
Proof.
  unfold startOfWalk. cbn [vars]. apply loaded_indexFrom.
  - intros r. apply groupById_rows.
  - split; [| split]; intros ? ? H; cbn in H; by rewrite lookup_empty in H.
Qed.

(** * After the walk *)

(** The pieces bound to the [UPDATE ... IN] statements cover the deleted
    media art, in order; the bound on the number of pieces suffices. *)
Lemma concat_chunks {A} (n fuel : nat) (l : list A) :
  (0 < n)%nat → (length l ≤ fuel)%nat → concat (chunks fuel n l) = l.
Proof.
  intros Hn. revert l. induction fuel as [|fuel IH]; intros l Hl.
  - destruct l; [done | simpl in Hl; lia].
  - destruct l as [|x l]; [done |].
    cbn [chunks concat]. rewrite IH; [apply take_drop |].
    rewrite length_drop. simpl in *. lia.
Qed.

Lemma length_chunks {A} (n fuel : nat) (l : list A) :
  Forall (λ c, (length c ≤ n)%nat) (chunks fuel n l).
Proof.
  revert l. induction fuel as [|fuel IH]; intros l; [constructor |].
  destruct l as [|x l]; [constructor |].
  cbn [chunks]. constructor; [| apply IH].
  rewrite length_take. lia.
Qed.

Lemma removing_lookup w allMediaArt (l : list QString) (acc : MediaArtDir) p d :
  foldl (λ d path,
           if contains allMediaArt path then d
           else if removeOk w path then delete path d else d) acc l
    !! p = Some d
  ↔ acc !! p = Some d
    ∧ (p ∈ l → contains allMediaArt p = true ∨ removeOk w p = false).
Proof.
  revert acc. induction l as [|x l IH]; intros acc.
  - simpl. split; [intros H; split; [done | by intros ?%elem_of_nil] | by intros [? _]].
  - simpl. rewrite IH, elem_of_cons.
    destruct (contains allMediaArt x) eqn:Ec.
    + split; intros [Hp Hl]; (split; [done |]).
      * intros [->|?]; [by left | auto].
      * auto.
    + destruct (removeOk w x) eqn:Er.
      * rewrite lookup_delete_Some. split.
        -- intros [[Hne Hp] Hl]. split; [done |]. intros [->|?]; [done | auto].
        -- intros [Hp Hl]. split; [| auto]. split; [| done].
           intros ->. destruct (Hl (or_introl eq_refl)); congruence.
      * split; intros [Hp Hl]; (split; [done |]).
        -- intros [->|?]; [by right | auto].
        -- auto.
Qed.

(** The last loop keeps exactly the files that a row names or that
    cannot be removed. *)
Lemma removeUnused_lookup w allMediaArt (disk : MediaArtDir) p d :
  removeUnused w allMediaArt disk !! p = Some d
  ↔ disk !! p = Some d
    ∧ (contains allMediaArt p = true ∨ removeOk w p = false).
Proof.
  unfold removeUnused. rewrite removing_lookup. split.
  - intros [Hp Hl]. split; [done |]. apply Hl.
    apply list_elem_of_fmap. exists (p, d).
    split; [done | by apply elem_of_map_to_list].
  - intros [Hp Hl]. auto.
Qed.

(** * Content addressing of embedded art *)

Lemma fileName_embeddedPath w h s :
  allHex h = true → occurs "/" s = false →
  Qt.fileName (embeddedPath w h s) = h +:+ "-embedded." +:+ s.
Proof.
  intros (Hh & _ & _)%allHex_plain Hs. unfold Qt.fileName, embeddedPath.
  change (mMediaArtDirectory w +:+ "/" +:+ h +:+ "-embedded." +:+ s)
    with (mMediaArtDirectory w +:+ String "/" (h +:+ "-embedded." +:+ s)).
  rewrite splitLast_app; [done |].
  rewrite !occurs_app, Hh, Hs. done.
Qed.

Lemma embeddedKey_embeddedPath w h s :
  allHex h = true → occurs "/" s = false →
  embeddedKey (embeddedPath w h s) = h.
Proof.
  intros Hh Hs. unfold embeddedKey, Qt.baseName.
  rewrite fileName_embeddedPath by done.
  apply allHex_plain in Hh as (_ & Hdot & Hdash).
  change (h +:+ "-embedded." +:+ s)
    with (h +:+ "-embedded" +:+ String "." s).
  rewrite <- string_app_assoc, splitFirst_app
    by (rewrite occurs_app, Hdot; done).
  change (h +:+ "-embedded") with (h +:+ String "-" "embedded" +:+ EmptyString).
  rewrite indexOf_app_fresh by done.
  apply left_app.
Qed.

Lemma isEmbeddedName_embeddedPath w h s :
  allHex h = true → occurs "/" s = false →
  isEmbeddedName (Qt.fileName (embeddedPath w h s)) = true.
Proof.
  intros Hh Hs. rewrite fileName_embeddedPath by done.
  unfold isEmbeddedName, Qt.contains. rewrite !nocase_app.
  change (Sql.nocase "-embedded.") with "-embedded.".
  by destruct (indexOf_app "-embedded." (Sql.nocase h) (Sql.nocase s)) as [n ->].
Qed.

Section ContentAddressing.

Context (w : World) (Hw : Collaborators w).

Lemma embeddedKey_canonical data : embeddedKey (canonical w data) = md5Hex w data.
Proof. apply embeddedKey_embeddedPath; apply Hw. Qed.

Lemma canonical_digest data1 data2 :
  canonical w data1 = canonical w data2 → md5Hex w data1 = md5Hex w data2.
Proof.
  intros H. by rewrite <- (embeddedKey_canonical data1), H, embeddedKey_canonical.
Qed.

(** What [saveEmbeddedMediaArt] answers, by cases. *)
Lemma saveEmbeddedMediaArt_cases data embedded disk :
  let md5 := md5Hex w data in
  (∃ found, embedded !! md5 = Some found
     ∧ saveEmbeddedMediaArt w data embedded disk = (found, embedded, disk))
  ∨ (embedded !! md5 = None
     ∧ Qt.isEmpty (preferredSuffix w data) = false
     ∧ openForWrite w (canonical w data) = true
     ∧ saveEmbeddedMediaArt w data embedded disk
       = (canonical w data, <[md5 := canonical w data]> embedded,
          <[canonical w data := data]> disk))
  ∨ (embedded !! md5 = None
     ∧ (Qt.isEmpty (preferredSuffix w data) = true
        ∨ openForWrite w (canonical w data) = false)
     ∧ saveEmbeddedMediaArt w data embedded disk
       = (EmptyString, embedded, disk)).
Proof.
  intros md5. unfold saveEmbeddedMediaArt. fold md5.
  destruct (embedded !! md5) as [found|] eqn:E; [left; eauto |].
  right. change (embeddedPath w md5 (preferredSuffix w data))
    with (canonical w data).
  destruct (Qt.isEmpty (preferredSuffix w data)) eqn:Es; [right; auto |].
  destruct (openForWrite w (canonical w data)) eqn:Eo; [left | right]; auto.
Qed.

Lemma canonical_nonempty data : canonical w data ≠ EmptyString.
Proof.
  unfold canonical, embeddedPath.
  destruct (mMediaArtDirectory w); discriminate.
Qed.

(** The invariants are kept, and a path that is answered is the
    canonical path of content with the digest of the data. *)
Lemma saveEmbeddedMediaArt_sound data embedded disk p embedded' disk' :
  cacheSound w embedded disk →
  saveEmbeddedMediaArt w data embedded disk = (p, embedded', disk') →
  cacheSound w embedded' disk'
  ∧ (contentAddressed w disk → contentAddressed w disk')
  ∧ (p = EmptyString
     ∨ ∃ data', disk' !! p = Some data'
                ∧ md5Hex w data' = md5Hex w data ∧ p = canonical w data').
Proof.
  intros Hsound Hsave.
  destruct (saveEmbeddedMediaArt_cases data embedded disk)
    as [(found & Hf & E)|[(Hn & Hs & Ho & E)|(Hn & _ & E)]];
    rewrite E in Hsave; simplify_eq.
  - split; [done |]. split; [done |]. right. by apply Hsound.
  - split; [| split].
    + intros k p Hk. destruct (decide (k = md5Hex w data)) as [->|Hne].
      * rewrite lookup_insert_eq in Hk. simplify_eq.
        exists data. by rewrite lookup_insert_eq.
      * rewrite lookup_insert_ne in Hk by done.
        destruct (Hsound k p Hk) as (d0 & Hd0 & Hk0 & Hp0).
        destruct (decide (p = canonical w data)) as [Hp|Hp].
        -- exfalso. apply Hne. rewrite <- Hk0.
           apply canonical_digest. by rewrite <- Hp0.
        -- exists d0. by rewrite lookup_insert_ne.
    + intros Hca p d Hd Hname.
      destruct (decide (p = canonical w data)) as [->|Hp].
      * rewrite lookup_insert_eq in Hd. by simplify_eq.
      * rewrite lookup_insert_ne in Hd by done. by apply Hca.
    + right. exists data. by rewrite lookup_insert_eq.
  - split; [done |]. split; [done |]. by left.
Qed.

(** An entry of the map stays, whatever is resolved. *)
Lemma saveEmbeddedMediaArt_keeps data embedded disk k p :
  embedded !! k = Some p →
  (saveEmbeddedMediaArt w data embedded disk).1.2 !! k = Some p.
Proof.
  intros Hk.
  destruct (saveEmbeddedMediaArt_cases data embedded disk)
    as [(found & Hf & E)|[(Hn & Hs & Ho & E)|(Hn & _ & E)]];
    rewrite E; simpl; [done | | done].
  rewrite lookup_insert_ne; [done |]. intros <-. congruence.
Qed.

Lemma saveAll_keeps datas embedded disk k p :
  embedded !! k = Some p → (saveAll w datas embedded disk).1 !! k = Some p.
Proof.
  revert embedded disk. induction datas as [|d datas IH]; intros e dk Hk;
    [done |].
  unfold saveAll. simpl. fold (saveAll w datas).
  pose proof (saveEmbeddedMediaArt_keeps d e dk k p Hk) as H.
  destruct (saveEmbeddedMediaArt w d e dk) as [[q e'] dk']. simpl in H.
  by apply IH.
Qed.

(** A path that was answered is recorded under the digest. *)
Lemma saveEmbeddedMediaArt_records data embedded disk p :
  (saveEmbeddedMediaArt w data embedded disk).1.1 = p → p ≠ EmptyString →
  (saveEmbeddedMediaArt w data embedded disk).1.2 !! md5Hex w data = Some p.
Proof.
  intros Hp Hne.
  destruct (saveEmbeddedMediaArt_cases data embedded disk)
    as [(found & Hf & E)|[(Hn & Hs & Ho & E)|(Hn & _ & E)]];
    rewrite E in *; simpl in *; subst; [done | | done].
  by rewrite lookup_insert_eq.
Qed.

Lemma saveEmbeddedMediaArt_found data embedded disk p :
  embedded !! md5Hex w data = Some p →
  saveEmbeddedMediaArt w data embedded disk = (p, embedded, disk).
Proof. intros H. unfold saveEmbeddedMediaArt. by rewrite H. Qed.

(** *** Reading the directory at the start of a scan *)

Lemma lookup_insertNew `{Countable K} {V} (k k' : K) (v : V) (m : gmap K V) :
  insertNew k v m !! k'
  = match m !! k with
    | Some _ => m !! k'
    | None => if decide (k = k') then Some v else m !! k'
    end.
Proof.
  unfold insertNew. destruct (m !! k) eqn:E; [done |].
  by rewrite lookup_insert.
Qed.

Lemma loaded_lookup (l : list QString) (m : gmap string QString) k p :
  foldl (λ m path, insertNew (embeddedKey path) path m) m l !! k = Some p →
  m !! k = Some p ∨ (p ∈ l ∧ embeddedKey p = k).
Proof.
  revert m. induction l as [|x l IH]; intros m Hk; [by left |].
  simpl in Hk. apply IH in Hk as [Hk|[Hp Hk]].
  - rewrite lookup_insertNew in Hk.
    destruct (m !! embeddedKey x); [by left |].
    destruct (decide (embeddedKey x = k)); [| by left].
    simplify_eq. right. split; [left | done].
  - right. split; [by right | done].
Qed.

Lemma loaded_keeps (l : list QString) (m : gmap string QString) k :
  is_Some (m !! k) →
  is_Some (foldl (λ m path, insertNew (embeddedKey path) path m) m l !! k).
Proof.
  revert m. induction l as [|x l IH]; intros m Hk; [done |].
  simpl. apply IH. rewrite lookup_insertNew.
  destruct (m !! embeddedKey x); [done |]. by destruct (decide _).
Qed.

Lemma loaded_has (l : list QString) (m : gmap string QString) p :
  p ∈ l →
  is_Some (foldl (λ m path, insertNew (embeddedKey path) path m) m l
           !! embeddedKey p).
Proof.
  revert m. induction l as [|x l IH]; intros m Hp;
    [by apply elem_of_nil in Hp |].
  apply elem_of_cons in Hp as [->|Hp]; [| by apply IH].
  simpl. apply loaded_keeps. rewrite lookup_insertNew.
  destruct (m !! embeddedKey x) eqn:E; [done |].
  by rewrite decide_True.
Qed.

Lemma elem_of_embeddedFiles (disk : MediaArtDir) p :
  p ∈ filter (λ p, isEmbeddedName (Qt.fileName p) = true)
        (map_to_list disk).*1
  ↔ is_Some (disk !! p) ∧ isEmbeddedName (Qt.fileName p) = true.
Proof.
  rewrite list_elem_of_filter, list_elem_of_fmap. split.
  - intros (Hn & [q d] & -> & Hin). apply elem_of_map_to_list in Hin.
    split; [by exists d | done].
  - intros ([d Hd] & Hn). split; [done |]. exists (p, d).
    split; [done | by apply elem_of_map_to_list].
Qed.

Lemma loadEmbeddedMediaArtFiles_sound disk :
  contentAddressed w disk → cacheSound w (loadEmbeddedMediaArtFiles disk) disk.
Proof.
  intros Hca k p Hk. unfold loadEmbeddedMediaArtFiles in Hk.
  apply loaded_lookup in Hk as [Hk|[Hp Hk]]; [by rewrite lookup_empty in Hk |].
  apply elem_of_embeddedFiles in Hp as [[d Hd] Hn].
  exists d. pose proof (Hca p d Hd Hn) as ->.
  by rewrite embeddedKey_canonical in Hk.
Qed.

(** A file written by an earlier scan is found again, and nothing is
    written. *)
Lemma saveEmbeddedMediaArt_reuses disk data :
  contentAddressed w disk → collisionFree w disk data →
  disk !! canonical w data = Some data →
  saveEmbeddedMediaArt w data (loadEmbeddedMediaArtFiles disk) disk
  = (canonical w data, loadEmbeddedMediaArtFiles disk, disk).
Proof.
  intros Hca Hfree Hd. apply saveEmbeddedMediaArt_found.
  assert (Hin : canonical w data
                ∈ filter (λ p, isEmbeddedName (Qt.fileName p) = true)
                    (map_to_list disk).*1).
  { apply elem_of_embeddedFiles. split; [by eexists |].
    apply isEmbeddedName_embeddedPath; apply Hw. }
  pose proof (loaded_has _ ∅ _ Hin) as [p Hp].
  rewrite embeddedKey_canonical in Hp.
  fold (loadEmbeddedMediaArtFiles disk) in Hp. rewrite Hp. f_equal.
  destruct (loadEmbeddedMediaArtFiles_sound disk Hca _ _ Hp)
    as (d' & Hd' & Hk' & ->).
  by rewrite (Hfree _ _ Hd' Hk').
Qed.

(** *** The invariant along a scan *)

Lemma removeUnused_subset allMediaArt (disk : MediaArtDir) p d :
  removeUnused w allMediaArt disk !! p = Some d → disk !! p = Some d.
Proof. by intros [? _]%removeUnused_lookup. Qed.

Lemma removeUnused_contentAddressed allMediaArt disk :
  contentAddressed w disk →
  contentAddressed w (removeUnused w allMediaArt disk).
Proof.
  intros Hca p d Hd. apply removeUnused_subset in Hd. by apply Hca.
Qed.

Lemma initialArt_sound disk : contentAddressed w disk → artSound w (initialArt disk).
Proof.
  intros Hca. split; [by apply loadEmbeddedMediaArtFiles_sound | done].
Qed.

Lemma getTrackMediaArt_sound data path prefer a :
  artSound w a → artSound w (getTrackMediaArt w data path prefer a).2.
Proof.
  intros [Hs Hca]. unfold getTrackMediaArt.
  destruct (findMediaArtForDirectory w _ _) as [dirArt dirs].
  assert (Hsave : ∀ dirs',
    artSound w
      (let '(art0, embedded, files0) :=
         saveEmbeddedMediaArt w data (embeddedMediaArtFiles a) (artFiles a) in
       (art0, {| embeddedMediaArtFiles := embedded;
                 mediaArtDirectoriesHash := dirs';
                 artFiles := files0 |})).2).
  { intros dirs'.
    destruct (saveEmbeddedMediaArt w data _ _) as [[p e'] d'] eqn:E.
    destruct (saveEmbeddedMediaArt_sound _ _ _ _ _ _ Hs E) as (H1 & H2 & _).
    split; simpl; auto. }
  destruct prefer.
  - destruct (Qt.isEmpty dirArt); [| done].
    destruct data; [done |]. apply Hsave.
  - destruct data; [done |]. apply Hsave.
Qed.

Local Ltac resolved Hs :=
  match goal with
  | |- context [getTrackMediaArt w ?d ?path ?prefer (art ?s)] =>
      let H := fresh "Hart" in
      pose proof (getTrackMediaArt_sound d path prefer (art s) Hs) as H;
      destruct (getTrackMediaArt w d path prefer (art s)) as [? ?]
  end.

Lemma visit_sound blacklist prefer path s :
  artSound w (art s) → artSound w (art (visit w blacklist prefer path s)).
Proof.
  intros Hs. unfold visit.
  destruct (isDir w path); [done |].
  destruct (negb (isReadable w path)); [done |].
  destruct (files (vars s) !! path) as [i|].
  - destruct (_ =? _).
    + unfold visitUnchanged.
      destruct (mediaArtHash (vars s) !! i) as [found|];
        (destruct (_ && negb _); [done |]);
        (destruct (negb _ || prefer); [| done]);
        resolved Hs;
        by destruct (_ && negb (_ =? _)%string).
    + unfold visitChanged.
      destruct (contains mimeTypesByContent _); [| done].
      by resolved Hs.
  - unfold visitNew.
    destruct (isNoMediaDirectory w _ _) as [[] cache]; [done |].
    destruct (isBlacklisted blacklist path); [done |].
    destruct (contains mimeTypesExtensions _); [| done].
    destruct (contains mimeTypesByContent _); [| done].
    cbn [art vars].
    by resolved Hs.
Qed.

Lemma walk_sound blacklist prefer entries n s :
  artSound w (art s) →
  artSound w (art (walk w blacklist prefer entries n s).2).
Proof.
  revert n s. induction entries as [|path rest IH]; intros n s Hs; [done |].
  simpl. destruct (appRunning w n); [| done].
  by apply IH, visit_sound.
Qed.

Lemma updateDatabase_contentAddressed db disk db' disk' :
  contentAddressed w disk →
  updateDatabase w db disk = Finished db' disk'
  ∨ updateDatabase w db disk = Shutdown db' disk' →
  contentAddressed w disk'.
Proof.
  intros Hca. unfold updateDatabase.
  destruct (negb (databaseOpens w)); [by intros [|] |].
  destruct (exec w SelectTracks db) as [ok db1].
  destruct (negb ok); [by intros [|] |].
  match goal with
  | |- context [walk w ?b ?p ?e 0%nat ?s0] =>
      pose proof (walk_sound b p e 0%nat s0 (initialArt_sound disk Hca))
        as [_ H];
      destruct (walk w b p e 0%nat s0) as [finished s]
  end.
  destruct (negb finished); [by intros [|[= <- <-]] |].
  destruct (selectAllMediaArt w _) as [allMediaArt db4].
  intros [[= <- <-]|]; [| done]. by apply removeUnused_contentAddressed.
Qed.

End ContentAddressing.

Lemma lengthDigest_hex data : allHex (lengthDigest data) = true.
Proof.
  unfold lengthDigest.
  pose proof (Nat.mod_upper_bound (length data) 10) as H.
  destruct (length data `mod` 10)%nat as [|[|[|[|[|[|[|[|[|[|n]]]]]]]]]];
    try reflexivity.
  lia.
Qed.

Lemma pngArt_collaborators : Collaborators pngArt.
Proof. split; [apply lengthDigest_hex | done]. Qed.




(** * Art source precedence *)

(** C2, as amended: with a directory image and non-empty embedded bytes,
    preferring directory art yields the directory image; otherwise the
    answer is that of persisting the embedded bytes, which is the cached
    path of their digest, or the path newly written when their type has a
    suffix and the file can be opened, and is empty otherwise, the
    directory image not being used.  Without a directory image the
    preferred source falls back to persisting non-empty embedded bytes,
    and without embedded bytes the directory image is used. *)
Theorem art_source_precedence (w : World) (data : QByteArray)
    (path : QString) (a : ArtState) :
  let dirArt :=
    (findMediaArtForDirectory w (mediaArtDirectoriesHash a)
       (Qt.path path)).1 in
  let saved :=
    (saveEmbeddedMediaArt w data (embeddedMediaArtFiles a)
       (artFiles a)).1.1 in
  (dirArt ≠ EmptyString → (getTrackMediaArt w data path true a).1 = dirArt)
  ∧ (data ≠ [] → (getTrackMediaArt w data path false a).1 = saved)
  ∧ (dirArt = EmptyString → data ≠ [] →
     (getTrackMediaArt w data path true a).1 = saved)
  ∧ (data = [] → (getTrackMediaArt w data path false a).1 = dirArt)
  ∧ (∀ found, embeddedMediaArtFiles a !! md5Hex w data = Some found →
       saved = found)
  ∧ (embeddedMediaArtFiles a !! md5Hex w data = None →
     preferredSuffix w data ≠ EmptyString →
     openForWrite w (canonical w data) = true →
     saved = canonical w data)
  ∧ (embeddedMediaArtFiles a !! md5Hex w data = None →
     preferredSuffix w data = EmptyString
     ∨ openForWrite w (canonical w data) = false →
     saved = EmptyString).
Proof.
  intros dirArt saved. unfold getTrackMediaArt. fold dirArt.
  destruct (findMediaArtForDirectory w _ _) as [d dirs] eqn:Ed.
  simpl in dirArt. subst dirArt.
  assert (Hsaved : ∀ dirs' files',
    (let '(art0, embedded, files0) :=
       saveEmbeddedMediaArt w data (embeddedMediaArtFiles a) files' in
     (art0, {| embeddedMediaArtFiles := embedded;
               mediaArtDirectoriesHash := dirs'; artFiles := files0 |})).1
    = (saveEmbeddedMediaArt w data (embeddedMediaArtFiles a) files').1.1).
  { intros dirs' files'.
    destruct (saveEmbeddedMediaArt w data (embeddedMediaArtFiles a) files')
      as [[? ?] ?]. done. }
  split; [| split; [| split; [| split; [| split; [| split]]]]].
  - intros Hd. by destruct d.
  - intros Hdata. destruct data; [done |]. apply Hsaved.
  - intros -> Hdata. simpl. destruct data; [done |]. apply (Hsaved dirs).
  - by intros ->.
  - intros found Hf. unfold saved, saveEmbeddedMediaArt. by rewrite Hf.
  - intros Hn Hs Ho. unfold saved.
    destruct (saveEmbeddedMediaArt_cases w data (embeddedMediaArtFiles a)
                (artFiles a))
      as [(found & Hf & E)|[(_ & _ & _ & E)|(_ & [He|Hf] & E)]];
      rewrite E; simpl; [congruence | done | | congruence].
    by destruct (preferredSuffix w data).
  - intros Hn Hor. unfold saved.
    destruct (saveEmbeddedMediaArt_cases w data (embeddedMediaArtFiles a)
                (artFiles a))
      as [(found & Hf & E)|[(_ & He & Ho & E)|(_ & _ & E)]];
      rewrite E; simpl; [congruence | | done].
    destruct Hor as [Hs|Hf]; [| congruence]. by rewrite Hs in He.
Qed.

(** C2 as stated fails: the song has both a directory image and one byte
    of embedded art; directory art is not preferred; the type of the byte
    cannot be determined, and the answer is empty, not a cache path. *)
Lemma embedded_art_preferred_but_not_persisted :
  let w := unknownArtType in
  let path := "/music/song.mp3" in
  let data := tagutils.mediaArtData
                (getTrackInfo w path (mimeTypeForFile w path)) in
  (findMediaArtForDirectory w ∅ (Qt.path path)).1 = "/music/folder.jpg"
  ∧ data = [Byte.x01]
  ∧ (getTrackMediaArt w data path true (initialArt ∅)).1
    = "/music/folder.jpg"
  ∧ (getTrackMediaArt w data path false (initialArt ∅)).1 = EmptyString.
Proof. by vm_compute. Qed.

(** * The transitions of an indexed file *)

Lemma exec_ok (w : World) (st : Statement) (db : Database) rows :
  execOk w (length (journal db)) = true →
  Sql.apply st (tracks db) = Some rows →
  exec w st db = (true, {| tracks := rows; journal := journal db ++ [st] |}).
Proof. intros Hok Hap. unfold exec. by rewrite Hok, Hap. Qed.

Lemma exec_failed (w : World) (st : Statement) (db : Database) :
  execOk w (length (journal db)) = false →
  exec w st db
  = (false, {| tracks := tracks db; journal := journal db ++ [st] |}).
Proof. intros Hok. unfold exec. by rewrite Hok. Qed.

Lemma exec_journal (w : World) (st : Statement) (db : Database) :
  journal (exec w st db).2 = journal db ++ [st].
Proof.
  unfold exec. destruct (execOk w _); [destruct (Sql.apply _ _) |]; done.
Qed.

Lemma visit_indexed w blacklist prefer path i s :
  isDir w path = false → isReadable w path = true →
  files (vars s) !! path = Some i →
  visit w blacklist prefer path s
  = if lastModified w path
       =? default 0 (modificationTimeHash (vars s) !! i)
    then visitUnchanged w prefer path i s
    else visitChanged w prefer path i s.
Proof. intros Hd Hr Hf. unfold visit. by rewrite Hd, Hr, Hf. Qed.

(** C4: a file of the index whose modification time differs from the one
    stored has its tags read again; when the sniffed MIME type is not a
    supported one its id is pushed on [filesToRemove] and nothing else
    changes; otherwise [DELETE] and [INSERT] are sent and, both
    succeeding, the rows of the id are replaced by the expansion of the
    new tags under the same id.  The ids pushed are deleted after the
    walk, and the paths, ids and modification times of the index are
    those of rows the store held before the scan. *)
Theorem changed_file_is_reindexed (w : World) (blacklist : list QString)
    (prefer : bool) (path : QString) (i : Z) (s : Walk) :
  isDir w path = false → isReadable w path = true →
  files (vars s) !! path = Some i →
  lastModified w path ≠ default 0 (modificationTimeHash (vars s) !! i) →
  let mimeType := mimeTypeForFile w path in
  let trackInfo := getTrackInfo w path mimeType in
  let mediaArt :=
    (getTrackMediaArt w (tagutils.mediaArtData trackInfo) path prefer
       (art s)).1 in
  let s' := visit w blacklist prefer path s in
  let n := length (journal (store s)) in
  (contains mimeTypesByContent mimeType = false →
   s' = {| vars := pushFileToRemove i (vars s); store := store s;
           art := art s |}
   ∧ filesToRemove (vars s') = filesToRemove (vars s) ++ [i])
  ∧ (contains mimeTypesByContent mimeType = true →
     vars s' = vars s
     ∧ journal (store s')
       = journal (store s)
         ++ [DeleteTrack i;
             insertStatement i path (lastModified w path) trackInfo
               mediaArt]
     ∧ (execOk w n = true → execOk w (S n) = true →
        tracks (store s')
        = filter (λ r, id r ≠ i) (tracks (store s))
          ++ expandedRows i path (lastModified w path) trackInfo mediaArt))
  ∧ (∀ ids db, ids ≠ [] → execOk w (length (journal db)) = true →
       tracks (removeFiles w ids db)
       = filter (λ r, id r ∉ ids) (tracks db))
  ∧ (∀ libraries db disk,
       indexFrom (tracks db)
         (vars (startOfWalk w libraries blacklist db disk))).
Proof.
  intros Hd Hr Hf Hm mimeType trackInfo mediaArt s' n.
  unfold s'. rewrite (visit_indexed _ _ _ _ i) by done.
  apply Z.eqb_neq in Hm. rewrite Hm. unfold visitChanged.
  fold mimeType trackInfo. unfold mediaArt.
  split; [| split; [| split]].
  - intros ->. done.
  - intros ->.
    destruct (getTrackMediaArt w _ path prefer (art s)) as [ma a].
    cbn [vars store fst]. split; [done |].
    unfold updateTrackInDatabase. split.
    + by rewrite !exec_journal, <- app_assoc.
    + intros Hok1 Hok2.
      rewrite (exec_ok w (DeleteTrack i) (store s) _ Hok1 eq_refl).
      cbn [snd]. erewrite exec_ok; [done | |].
      * cbn [journal]. rewrite length_app. cbn [length].
        by replace (length (journal (store s)) + 1)%nat with (S n) by lia.
      * cbn [tracks]. apply apply_insertStatement.
  - intros ids db Hids Hok. destruct ids as [|j ids]; [done |].
    unfold removeFiles.
    by rewrite (exec_ok w (DeleteTracksIn (j :: ids)) db _ Hok eq_refl).
  - intros libraries db disk. apply startOfWalk_indexFrom.
Qed.

Lemma changed_file_is_reindexed_witness :
  let w := changedSong in
  let s := sampleStart w (indexed "/music/folder.jpg") in
  tracks (store s) = [songRow "/music/folder.jpg"]
  ∧ tracks (store (visit w [] false "/music/song.mp3" s))
    = expandedRows 0 "/music/song.mp3" 2000 twoArtists "/music/folder.jpg".
Proof.
  intros w s. split; [reflexivity |].
  destruct (changed_file_is_reindexed w [] false "/music/song.mp3" 0 s)
    as (_ & H & _); [reflexivity | reflexivity | by vm_compute | by vm_compute |].
  destruct (H eq_refl) as (_ & _ & Hrows).
  rewrite Hrows; [by vm_compute | reflexivity | reflexivity].
Defined.

(** The two outcomes on whole scans of the sample library: the modified
    song is indexed anew under its id, and the file that is no longer
    audio loses its row. *)
Example changed_song_scan :
  updateDatabase changedSong (indexed "/music/folder.jpg") ∅
  = Finished
      {| tracks := expandedRows 0 "/music/song.mp3" 2000 twoArtists
                     "/music/folder.jpg";
         journal := [SelectTracks; DeleteTrack 0;
                     insertStatement 0 "/music/song.mp3" 2000 twoArtists
                       "/music/folder.jpg";
                     SelectDistinctMediaArt] |}
      ∅.
Proof. vm_compute. reflexivity. Qed.

Example no_longer_audio_scan :
  updateDatabase noLongerAudio (indexed "/music/folder.jpg") ∅
  = Finished
      {| tracks := [];
         journal := [SelectTracks; DeleteTracksIn [0];
                     SelectDistinctMediaArt] |}
      ∅.
Proof. vm_compute. reflexivity. Qed.

(** The three ways of a file of the index whose modification time is the
    one stored, by the media art recorded for its id. *)
Lemma visit_unchanged (w : World) (blacklist : list QString)
    (prefer : bool) (path : QString) (i : Z) (s : Walk) :
  isDir w path = false → isReadable w path = true →
  files (vars s) !! path = Some i →
  lastModified w path = default 0 (modificationTimeHash (vars s) !! i) →
  let s' := visit w blacklist prefer path s in
  let extracted :=
    tagutils.mediaArtData (getTrackInfo w path (mimeTypeForFile w path)) in
  (∀ stored, mediaArtHash (vars s) !! i = Some stored →
     Qt.startsWith stored (mMediaArtDirectory w) = true →
     Qt.contains stored "-embedded" = false →
     s' = s)
  ∧ (∀ stored, mediaArtHash (vars s) !! i = Some stored →
       Qt.startsWith stored (mMediaArtDirectory w) = false →
       let data := if Qt.isEmpty stored then [] else extracted in
       let resolved := (getTrackMediaArt w data path prefer (art s)).1 in
       vars s' = vars s
       ∧ store s'
         = if decide (resolved = stored) then store s
           else (exec w (UpdateMediaArt (answered resolved) i) (store s)).2)
  ∧ (mediaArtHash (vars s) !! i = None →
     Qt.startsWith EmptyString (mMediaArtDirectory w) = false →
     let resolved := (getTrackMediaArt w extracted path prefer (art s)).1 in
     vars s' = vars s
     ∧ store s'
       = if decide (resolved = EmptyString) then store s
         else (exec w (UpdateMediaArt (answered resolved) i) (store s)).2).
Proof.
  intros Hd Hr Hf Hm s' extracted.
  unfold s'. rewrite (visit_indexed _ _ _ _ i) by done.
  apply Z.eqb_eq in Hm. rewrite Hm. unfold visitUnchanged.
  split; [| split].
  - intros stored Hs Hsw Hc. by rewrite Hs, Hsw, Hc.
  - intros stored Hs Hsw. cbv zeta. rewrite Hs, Hsw.
    cbn [andb negb orb]. rewrite orb_false_r. fold extracted.
    destruct (getTrackMediaArt w _ path prefer (art s)) as [new a].
    cbn [fst vars store]. rewrite emptyIfNull_id. split; [by destruct (negb _) |].
    destruct (decide (new = stored)) as [->|Hne].
    + by rewrite String.eqb_refl.
    + apply String.eqb_neq in Hne. by rewrite Hne.
  - intros Hs Hsw. cbv zeta. rewrite Hs, Hsw.
    cbn [andb negb orb Qt.isEmpty]. fold extracted.
    destruct (getTrackMediaArt w extracted path prefer (art s)) as [new a].
    cbn [fst vars store]. rewrite emptyIfNull_id. split; [by destruct (negb _) |].
    destruct (decide (new = EmptyString)) as [->|Hne].
    + done.
    + apply String.eqb_neq in Hne. by rewrite Hne.
Qed.


(** C5 as stated fails.  The song is in the index with its modification
    time and an empty media art, and an image now lies beside it: the scan
    sends an update and the row gets the image.  The row naming that
    image, once the song carries embedded art, is updated to the cache
    path. *)
Lemma unchanged_file_art_is_updated :
  (let w := scenario in
   lastModified w "/music/song.mp3" = modificationTime (songRow EmptyString)
   ∧ ∃ db disk,
       updateDatabase w (indexed EmptyString) ∅ = Finished db disk
       ∧ tracks db = [songRow "/music/folder.jpg"]
       ∧ journal db
         = [SelectTracks; UpdateMediaArt (Some "/music/folder.jpg") 0;
            SelectDistinctMediaArt])
  ∧ (let w := pngArt in
     Qt.startsWith "/music/folder.jpg" (mMediaArtDirectory w) = false
     ∧ ∃ db disk,
         updateDatabase w (indexed "/music/folder.jpg") ∅ = Finished db disk
         ∧ mediaArt <$> tracks db
           = ["/cache/media-art/11111111111111111111111111111111-embedded.png"]).
Proof.
  split.
  - split; [reflexivity |]. eexists _, _. by vm_compute.
  - split; [reflexivity |]. eexists _, _. by vm_compute.
Qed.

(** * Failing statements *)

Lemma updateTrackInDatabase_tracks w i path info art db :
  let n := length (journal db) in
  tracks (updateTrackInDatabase w true i path info art db)
  = (if execOk w n then filter (λ r, id r ≠ i) (tracks db) else tracks db)
    ++ (if execOk w (S n)
        then expandedRows i path (lastModified w path) info art else []).
Proof.
  intros n. unfold updateTrackInDatabase.
  assert (Hlen : length (journal (exec w (DeleteTrack i) db).2) = S n)
    by (rewrite exec_journal, length_app; simpl; lia).
  unfold exec at 1. rewrite Hlen.
  destruct (execOk w (S n)).
  - rewrite apply_insertStatement. cbn [snd tracks].
    unfold exec. fold n. by destruct (execOk w n).
  - cbn [snd tracks]. rewrite app_nil_r.
    unfold exec. fold n. by destruct (execOk w n).
Qed.


(** * Running the scan again *)

(** C7 fails on the code.  The song carries embedded art whose type
    cannot be determined and an image lies beside it; directory art is not
    preferred.  The first scan indexes the song without media art; the
    second, nothing having changed, gives it the image; the third takes it
    away again. *)
Theorem rescan_changes_index :
  let w := unknownArtType in
  let insert :=
    insertStatement 0 "/music/song.mp3" 1000 songWithArt EmptyString in
  let db1 :=
    {| tracks := [songRow EmptyString];
       journal := [SelectTracks; insert; SelectDistinctMediaArt] |} in
  let db2 :=
    {| tracks := [songRow "/music/folder.jpg"];
       journal := journal db1
                  ++ [SelectTracks;
                      UpdateMediaArt (Some "/music/folder.jpg") 0;
                      SelectDistinctMediaArt] |} in
  let db3 :=
    {| tracks := [songRow EmptyString];
       journal := journal db2
                  ++ [SelectTracks; UpdateMediaArt None 0;
                      SelectDistinctMediaArt] |} in
  updateDatabase w emptyStore ∅ = Finished db1 ∅
  ∧ updateDatabase w db1 ∅ = Finished db2 ∅
  ∧ updateDatabase w db2 ∅ = Finished db3 ∅
  ∧ tracks db2 ≠ tracks db1.
Proof.
  intros w insert db1 db2 db3.
  split; [vm_compute; reflexivity |].
  split; [vm_compute; reflexivity |].
  split; [vm_compute; reflexivity |].
  discriminate.
Qed.

(** With embedded art of a known type the same library is stable: the
    first scan writes the image into the media art directory and the
    second changes neither the rows nor the directory. *)
Example rescan_with_known_type_is_stable :
  let w := pngArt in
  let cached :=
    "/cache/media-art/11111111111111111111111111111111-embedded.png" in
  let disk1 : MediaArtDir := {[ cached := [Byte.x01] ]} in
  ∃ journal1 journal2,
    updateDatabase w emptyStore ∅
    = Finished {| tracks := [songRow cached]; journal := journal1 |} disk1
    ∧ updateDatabase w
        {| tracks := [songRow cached]; journal := journal1 |} disk1
      = Finished {| tracks := [songRow cached]; journal := journal2 |} disk1.
Proof.
  intros w cached disk1.
  exists [SelectTracks;
          insertStatement 0 "/music/song.mp3" 1000 songWithArt cached;
          SelectDistinctMediaArt].
  eexists. split; vm_compute; reflexivity.
Qed.

(** * Further properties of the code *)

(** ** [mimeTypeFromString] *)

(** X1: [mimeTypeFromString] answers a type other than [Other] exactly
    for the names of [mimeTypesByContent], the set the scan accepts, and
    two names with the same type other than [Other] are the same name. *)
Theorem mimeTypeFromString_recognises (s1 s2 : QString) :
  (mimeTypeFromString s1 ≠ Other ↔ contains mimeTypesByContent s1 = true)
  ∧ (mimeTypeFromString s1 = mimeTypeFromString s2 →
     mimeTypeFromString s1 ≠ Other → s1 = s2).
Proof.
  assert (Hnd : NoDup types.*1)
    by (apply (bool_decide_unpack _); by vm_compute).
  assert (Hnd2 : NoDup types.*2)
    by (apply (bool_decide_unpack _); by vm_compute).
  assert (Hno : Other ∉ types.*2)
    by (apply (bool_decide_unpack _); by vm_compute).
  assert (Hlook : ∀ s t, (list_to_map types : gmap QString MimeType) !! s
                         = Some t ↔ (s, t) ∈ types).
  { intros s t. symmetry. by apply elem_of_list_to_map. }
  assert (Hother : ∀ s, (s, Other) ∉ types).
  { intros s Hs. apply Hno, list_elem_of_fmap. by exists (s, Other). }
  assert (Hin : ∀ s, mimeTypeFromString s ≠ Other
                     ↔ ∃ t, (s, t) ∈ types).
  { intros s. unfold mimeTypeFromString.
    destruct (list_to_map types !! s) as [t|] eqn:E.
    - apply Hlook in E. split; [eauto |]. intros _ ->. by apply (Hother s).
    - split; [done |]. intros [t Ht%Hlook]. congruence. }
  split.
  - rewrite Hin. unfold contains. rewrite bool_decide_eq_true.
    change mimeTypesByContent with (types.*1).
    rewrite list_elem_of_fmap. split.
    + intros [t Ht]. by exists (s1, t).
    + intros [[s t] [-> Ht]]. by exists t.
  - intros Heq Hne. pose proof Hne as Hne2. rewrite Heq in Hne2.
    apply Hin in Hne as [t1 H1]. apply Hin in Hne2 as [t2 H2].
    unfold mimeTypeFromString in Heq.
    rewrite (proj2 (Hlook _ _) H1), (proj2 (Hlook _ _) H2) in Heq. subst t2.
    apply list_elem_of_lookup in H1 as [i Hi], H2 as [j Hj].
    assert (i = j).
    { eapply NoDup_lookup; [exact Hnd2 | |];
        rewrite list_lookup_fmap; [by rewrite Hi | by rewrite Hj]. }
    subst j. congruence.
Qed.

(** ** The memoising lookups *)

Lemma directoriesSound_empty w : directoriesSound w ∅.
Proof. intros d a H. by rewrite lookup_empty in H. Qed.

Lemma noMediaSound_empty w : noMediaSound w ∅.
Proof. intros d a H. by rewrite lookup_empty in H. Qed.

Lemma findMediaArtForDirectory_fresh w cache d :
  cache !! d = None →
  findMediaArtForDirectory w cache d
  = (directoryArt w d, <[d := directoryArt w d]> cache).
Proof.
  intros Hd. unfold directoryArt, findMediaArtForDirectory.
  rewrite Hd, lookup_empty.
  by destruct (filter _ (entryList w d)).
Qed.

Lemma findMediaArtForDirectory_sound w cache d :
  directoriesSound w cache →
  (findMediaArtForDirectory w cache d).1 = directoryArt w d
  ∧ directoriesSound w (findMediaArtForDirectory w cache d).2.
Proof.
  intros Hs. destruct (cache !! d) as [a|] eqn:E.
  - unfold findMediaArtForDirectory. rewrite E. simpl.
    split; [by apply Hs | done].
  - rewrite findMediaArtForDirectory_fresh by done. simpl.
    split; [done |]. intros d' a Ha.
    destruct (decide (d = d')) as [->|Hne].
    + rewrite lookup_insert_eq in Ha. by simplify_eq.
    + rewrite lookup_insert_ne in Ha by done. by apply Hs.
Qed.

Lemma isNoMediaDirectory_sound w cache d :
  noMediaSound w cache →
  (isNoMediaDirectory w d cache).1 = isFile w (d +:+ "/.nomedia")
  ∧ noMediaSound w (isNoMediaDirectory w d cache).2.
Proof.
  intros Hs. unfold isNoMediaDirectory.
  destruct (cache !! d) as [b|] eqn:E; simpl.
  - split; [by apply Hs | done].
  - split; [done |]. intros d' b Hb.
    destruct (decide (d = d')) as [->|Hne].
    + rewrite lookup_insert_eq in Hb. by simplify_eq.
    + rewrite lookup_insert_ne in Hb by done. by apply Hs.
Qed.

(** X2: the two memoising lookups of a scan, [findMediaArtForDirectory]
    and [isNoMediaDirectory], answer from a cache whose entries are right
    what a fresh look at the directory gives, leave the cache right, touch
    no entry of another directory, and record the answer, an empty one
    included, so that asking again changes nothing. *)
Theorem lookups_memoise (w : World) (arts : gmap QString QString)
    (noMedia : gmap QString bool) (d : QString) :
  directoriesSound w arts → noMediaSound w noMedia →
  let found := findMediaArtForDirectory w arts d in
  let marked := isNoMediaDirectory w d noMedia in
  found.1 = directoryArt w d
  ∧ directoriesSound w found.2
  ∧ found.2 !! d = Some found.1
  ∧ (∀ d', d' ≠ d → found.2 !! d' = arts !! d')
  ∧ findMediaArtForDirectory w found.2 d = found
  ∧ marked.1 = isFile w (d +:+ "/.nomedia")
  ∧ noMediaSound w marked.2
  ∧ marked.2 !! d = Some marked.1
  ∧ (∀ d', d' ≠ d → marked.2 !! d' = noMedia !! d')
  ∧ isNoMediaDirectory w d marked.2 = marked.
Proof.
  intros Ha Hn found marked.
  destruct (findMediaArtForDirectory_sound w arts d Ha) as [H1 H2].
  destruct (isNoMediaDirectory_sound w noMedia d Hn) as [H3 H4].
  fold found in H1, H2. fold marked in H3, H4.
  assert (Hf : found.2 !! d = Some found.1
               ∧ ∀ d', d' ≠ d → found.2 !! d' = arts !! d').
  { unfold found. destruct (arts !! d) as [a|] eqn:E.
    - unfold findMediaArtForDirectory. rewrite E. by simpl.
    - rewrite findMediaArtForDirectory_fresh by done. simpl.
      split; [apply lookup_insert_eq |].
      intros d' Hd. by rewrite lookup_insert_ne. }
  assert (Hm : marked.2 !! d = Some marked.1
               ∧ ∀ d', d' ≠ d → marked.2 !! d' = noMedia !! d').
  { unfold marked, isNoMediaDirectory. destruct (noMedia !! d) as [b|] eqn:E.
    - by simpl.
    - simpl. split; [apply lookup_insert_eq |].
      intros d' Hd. by rewrite lookup_insert_ne. }
  destruct Hf as [Hf1 Hf2], Hm as [Hm1 Hm2].
  repeat split; try done.
  - unfold findMediaArtForDirectory at 1. rewrite Hf1. by destruct found.
  - unfold isNoMediaDirectory at 1. rewrite Hm1. by destruct marked.
Qed.

Lemma lookups_memoise_witness :
  (findMediaArtForDirectory scenario ∅ "/music").1 = "/music/folder.jpg"
  ∧ (isNoMediaDirectory scenario "/music" ∅).1 = false.
Proof.
  destruct (lookups_memoise scenario ∅ ∅ "/music"
              (directoriesSound_empty _) (noMediaSound_empty _))
    as (H1 & _ & _ & _ & _ & H2 & _).
  split; [rewrite H1 | rewrite H2]; reflexivity.
Defined.

Lemma isMediaArtName_nonempty n : isMediaArtName n = true → n ≠ EmptyString.
Proof. by intros H ->. Qed.

Lemma filePath_nonempty d n : n ≠ EmptyString → Qt.filePath d n ≠ EmptyString.
Proof.
  intros Hn. unfold Qt.filePath. destruct d as [|c d]; [done |].
  cbn [Qt.isEmpty]. by destruct (Qt.endsWithChar _ _).
Qed.

(** X3: the image of a directory is the first file of its listing whose
    name matches the pattern, as a path in the directory, and is empty
    exactly when no file of the listing matches. *)
Theorem directoryArt_first_match (w : World) (d : QString) :
  (directoryArt w d = EmptyString
   ↔ ∀ n, n ∈ entryList w d → isMediaArtName n = false)
  ∧ (∀ before n rest,
       entryList w d = before ++ n :: rest →
       Forall (λ m, isMediaArtName m = false) before →
       isMediaArtName n = true →
       directoryArt w d = Qt.filePath d n).
Proof.
  unfold directoryArt, findMediaArtForDirectory. rewrite lookup_empty.
  split.
  - destruct (filter _ (entryList w d)) as [|first l] eqn:E; simpl.
    + split; [intros _ n Hn | done].
      destruct (isMediaArtName n) eqn:En; [| done].
      assert (H : n ∈ filter (λ n, isMediaArtName n = true) (entryList w d))
        by (by apply list_elem_of_filter).
      rewrite E in H. by apply elem_of_nil in H.
    + assert (H : first ∈ filter (λ n, isMediaArtName n = true)
                            (entryList w d)) by (rewrite E; left).
      apply list_elem_of_filter in H as [Hm Hin].
      split; [| intros Hall; rewrite (Hall _ Hin) in Hm; done].
      intros Hempty. exfalso.
      by apply (filePath_nonempty d first (isMediaArtName_nonempty _ Hm)).
  - intros before n rest -> Hb Hn.
    rewrite filter_app, filter_cons_True by done.
    rewrite (filter_none (λ n, isMediaArtName n = true) before); [done |].
    eapply Forall_impl; [exact Hb |]. intros m Hm. simpl in Hm. congruence.
Qed.

(** ** What the resolver writes *)

(** X4: [saveEmbeddedMediaArt] removes no file and changes none but the
    one at the canonical path of the data, which it writes only when the
    digest is not yet in the map; it changes no entry of the map but that
    of the digest; and when it answers nothing it has changed nothing. *)
Theorem saveEmbeddedMediaArt_frame (w : World) (data : QByteArray)
    (embedded : gmap string QString) (disk : MediaArtDir) :
  let saved := saveEmbeddedMediaArt w data embedded disk in
  let p := saved.1.1 in
  let embedded' := saved.1.2 in
  let disk' := saved.2 in
  (∀ q, q ≠ canonical w data → disk' !! q = disk !! q)
  ∧ (∀ q, is_Some (disk !! q) → is_Some (disk' !! q))
  ∧ (∀ k, k ≠ md5Hex w data → embedded' !! k = embedded !! k)
  ∧ (∀ k found, embedded !! k = Some found → embedded' !! k = Some found)
  ∧ (p = EmptyString → disk' = disk ∧ embedded' = embedded)
  ∧ (is_Some (embedded !! md5Hex w data) →
     disk' = disk ∧ embedded' = embedded)
  ∧ (disk' ≠ disk →
     p = canonical w data ∧ disk' = <[p := data]> disk
     ∧ embedded' = <[md5Hex w data := p]> embedded).
Proof.
  intros saved p embedded' disk'. unfold p, embedded', disk', saved.
  destruct (saveEmbeddedMediaArt_cases w data embedded disk)
    as [(found & Hf & E)|[(Hn & Hs & Ho & E)|(Hn & _ & E)]];
    rewrite E; cbn [fst snd].
  - repeat split; try done.
  - split; [intros q Hq; by rewrite lookup_insert_ne |].
    split.
    { intros q [d Hd]. destruct (decide (q = canonical w data)) as [->|Hq].
      - rewrite lookup_insert_eq. eauto.
      - rewrite lookup_insert_ne by done. eauto. }
    split; [intros k Hk; by rewrite lookup_insert_ne |].
    split.
    { intros k found Hk. rewrite lookup_insert_ne; [done |].
      intros <-. congruence. }
    split; [intros H; by apply canonical_nonempty in H |].
    split; [intros [? ?]; congruence |].
    done.
  - repeat split; try done.
Qed.

Lemma getTrackMediaArt_directoriesSound w data path prefer a :
  directoriesSound w (mediaArtDirectoriesHash a) →
  directoriesSound w
    (mediaArtDirectoriesHash (getTrackMediaArt w data path prefer a).2).
Proof.
  intros Hs. unfold getTrackMediaArt.
  destruct (findMediaArtForDirectory_sound w _ (Qt.path path) Hs)
    as [_ Hs'].
  destruct (findMediaArtForDirectory w _ _) as [dirArt dirs]. simpl in Hs'.
  destruct prefer.
  - destruct (Qt.isEmpty dirArt); [| done].
    destruct data; [done |].
    by destruct (saveEmbeddedMediaArt w _ _ _) as [[? ?] ?].
  - destruct data; [done |].
    by destruct (saveEmbeddedMediaArt w _ _ _) as [[? ?] ?].
Qed.

(** X5: without embedded bytes [getTrackMediaArt] answers the image of
    the file's directory, whatever the preference, writes no file and
    leaves the map of embedded art as it is. *)
Theorem getTrackMediaArt_without_bytes (w : World) (path : QString)
    (prefer : bool) (a : ArtState) :
  directoriesSound w (mediaArtDirectoriesHash a) →
  let resolved := getTrackMediaArt w [] path prefer a in
  resolved.1 = directoryArt w (Qt.path path)
  ∧ artFiles resolved.2 = artFiles a
  ∧ embeddedMediaArtFiles resolved.2 = embeddedMediaArtFiles a
  ∧ directoriesSound w (mediaArtDirectoriesHash resolved.2).
Proof.
  intros Hs resolved. unfold resolved, getTrackMediaArt.
  destruct (findMediaArtForDirectory_sound w _ (Qt.path path) Hs)
    as [Ha Hs'].
  destruct (findMediaArtForDirectory w _ _) as [dirArt dirs].
  simpl in Ha, Hs'. subst dirArt.
  destruct prefer; [destruct (Qt.isEmpty _) |]; done.
Qed.

Lemma getTrackMediaArt_without_bytes_witness :
  let resolved :=
    getTrackMediaArt pngArt [] "/music/song.mp3" false (initialArt ∅) in
  resolved.1 = "/music/folder.jpg" ∧ artFiles resolved.2 = ∅.
Proof.
  destruct (getTrackMediaArt_without_bytes pngArt "/music/song.mp3" false
              (initialArt ∅) (directoriesSound_empty _))
    as (H1 & H2 & _).
  split; [rewrite H1 | rewrite H2]; reflexivity.
Defined.

(** ** Reading the index *)

Lemma foldl_insertNew_lookup `{Countable K} {V A} (key : A → K)
    (val : A → V) (l : list A) (k : K) :
  foldl (λ m x, insertNew (key x) (val x) m) ∅ l !! k
  = val <$> head (filter (λ x, key x = k) l).
Proof.
  induction l as [|x l IH] using rev_ind; [done |].
  rewrite foldl_app. cbn [foldl]. rewrite lookup_insertNew, filter_app.
  destruct (decide (key x = k)) as [Hk|Hk].
  - rewrite filter_cons_True by done. subst k. rewrite IH.
    by destruct (filter _ l).
  - rewrite filter_cons_False, app_nil_r by done.
    rewrite <- IH. by destruct (_ !! key x).
Qed.

Section ReadingTheIndex.

Context (w : World) (libraries blacklist : list QString)
  (disk : MediaArtDir).

(** One turn of the first loop, under a cache of [.nomedia] answers that
    is right. *)
Lemma loadRow_step l row :
  noMediaSound w (noMediaDirectories l) →
  let l' := loadRow w libraries blacklist disk l row in
  let i := Qt.toInt (id row) in
  noMediaSound w (noMediaDirectories l')
  ∧ lastId l' = i
  ∧ (if eligible w libraries blacklist (filePath row)
     then files l' = insertNew (filePath row) i (files l)
          ∧ modificationTimeHash l'
            = insertNew i (modificationTime row) (modificationTimeHash l)
          ∧ filesToRemove l' = filesToRemove l
     else files l' = files l
          ∧ modificationTimeHash l' = modificationTimeHash l
          ∧ mediaArtHash l' = mediaArtHash l
          ∧ mediaArtExistanceHash l' = mediaArtExistanceHash l
          ∧ deletedMediaArtCount l' = deletedMediaArtCount l
          ∧ filesToRemove l' = filesToRemove l ++ [i]).
Proof.
  intros Hs l' i. unfold l', loadRow, eligible. fold i.
  destruct (isNoMediaDirectory_sound w _ (Qt.path (filePath row)) Hs)
    as [Hn Hs'].
  destruct (fileExists w (filePath row)); cbn [negb orb andb]; [| done].
  destruct (isDir w (filePath row)); cbn [negb orb andb]; [done |].
  destruct (isReadable w (filePath row)); cbn [negb orb andb]; [| done].
  destruct (inLibrary libraries (filePath row)); cbn [negb andb]; [| done].
  destruct (isBlacklisted blacklist (filePath row)); cbn [negb andb];
    [done |].
  destruct (isNoMediaDirectory w _ _) as [noMedia cache].
  simpl in Hn, Hs'. rewrite <- Hn.
  destruct noMedia; cbn [negb]; [done |].
  by destruct (if Qt.isEmpty (mediaArt row) then _ else _) as [[? ?] ?].
Qed.

Lemma loaded_step (rows : list Track) :
  let l := foldl (loadRow w libraries blacklist disk) noneLoaded rows in
  noMediaSound w (noMediaDirectories l)
  ∧ lastId l = default (-1) (Qt.toInt ∘ id <$> last rows)
  ∧ files l
    = foldl (λ m r, insertNew (filePath r) (Qt.toInt (id r)) m) ∅
        (eligibleRows w libraries blacklist rows)
  ∧ modificationTimeHash l
    = foldl (λ m r, insertNew (Qt.toInt (id r)) (modificationTime r) m) ∅
        (eligibleRows w libraries blacklist rows)
  ∧ filesToRemove l
    = Qt.toInt ∘ id
      <$> filter (λ r, eligible w libraries blacklist (filePath r) = false)
            rows.
Proof.
  induction rows as [|row rows IH] using rev_ind.
  - simpl. split; [apply noMediaSound_empty | done].
  - cbn zeta in *. rewrite foldl_app. cbn [foldl].
    destruct IH as (Hs & _ & Hf & Hm & Hr).
    destruct (loadRow_step _ row Hs) as (Hs' & Hlast & Hcase).
    split; [done |]. split; [by rewrite last_snoc |].
    unfold eligibleRows in *. rewrite !filter_app.
    destruct (eligible w libraries blacklist (filePath row)) eqn:E.
    + destruct Hcase as (-> & -> & ->).
      rewrite filter_cons_True by done.
      rewrite filter_cons_False by (rewrite E; done).
      rewrite !foldl_app, app_nil_r. cbn [foldl]. by rewrite Hf, Hm, Hr.
    + destruct Hcase as (-> & -> & _ & _ & _ & ->).
      rewrite filter_cons_False by (rewrite E; done).
      rewrite filter_cons_True by done.
      rewrite app_nil_r, fmap_app. by rewrite Hf, Hm, Hr.
Qed.

End ReadingTheIndex.

(** X6: the first loop of a scan splits the rows of its query, one per
    id in ascending order, by the test on their path: the ids of the rows
    that fail it are pushed on [filesToRemove], in order, and none else;
    a path is indexed under the id, and an id under the modification
    time, of the first row with it that passes the test; [lastId] is the
    id of the last row, or -1 for an empty table. *)
Theorem index_splits_rows (w : World) (libraries blacklist : list QString)
    (db : Database) (disk : MediaArtDir) :
  let rows := selectTracks (tracks db) in
  let kept := eligibleRows w libraries blacklist rows in
  let l := vars (startOfWalk w libraries blacklist db disk) in
  filesToRemove l
  = Qt.toInt ∘ id
    <$> filter (λ r, eligible w libraries blacklist (filePath r) = false)
          rows
  ∧ (∀ path, files l !! path
             = Qt.toInt ∘ id <$> head (filter (λ r, filePath r = path) kept))
  ∧ (∀ i, modificationTimeHash l !! i
          = modificationTime
            <$> head (filter (λ r, Qt.toInt (id r) = i) kept))
  ∧ lastId l = default (-1) (Qt.toInt ∘ id <$> last rows)
  ∧ noMediaSound w (noMediaDirectories l).
Proof.
  intros rows kept l.
  destruct (loaded_step w libraries blacklist disk rows)
    as (Hs & Hlast & Hf & Hm & Hr).
  unfold l, startOfWalk. cbn [vars]. fold rows.
  split; [done |]. split.
  { intros path. rewrite Hf.
    apply (foldl_insertNew_lookup filePath (Qt.toInt ∘ id)). }
  split; [| done].
  intros i. rewrite Hm.
  apply (foldl_insertNew_lookup (Qt.toInt ∘ id) modificationTime).
Qed.

(** ** Media art that is gone *)

Lemma elem_of_deletedMediaArt (m : gmap QString bool) (a : QString) :
  a ∈ deletedMediaArt m ↔ m !! a = Some false.
Proof.
  unfold deletedMediaArt. rewrite list_elem_of_fmap. split.
  - intros [[a' b] [-> [Hb Hin]%list_elem_of_filter]].
    simpl in *. subst b. by apply elem_of_map_to_list in Hin.
  - intros Hm. exists (a, false). split; [done |].
    apply list_elem_of_filter. split; [done |].
    by apply elem_of_map_to_list.
Qed.

Lemma NoDup_deletedMediaArt (m : gmap QString bool) :
  NoDup (deletedMediaArt m).
Proof.
  unfold deletedMediaArt.
  eapply sublist_NoDup; [apply (NoDup_fst_map_to_list m) |].
  apply fmap_sublist, sublist_filter.
Qed.

Lemma length_deletedMediaArt_insert (m : gmap QString bool) a (b : bool) :
  m !! a = None →
  length (deletedMediaArt (<[a := b]> m))
  = ((if b then 0 else 1) + length (deletedMediaArt m))%nat.
Proof.
  intros Hm. unfold deletedMediaArt. rewrite !length_fmap.
  rewrite (Permutation_length
             (filter_Permutation _ _ _ (map_to_list_insert m a b Hm))).
  destruct b.
  - by rewrite filter_cons_False.
  - by rewrite filter_cons_True.
Qed.

Lemma insertNew_present `{Countable K} {V} (k : K) (v v' : V)
    (m : gmap K V) :
  m !! k = Some v' → insertNew k v m = m.
Proof. intros Hm. unfold insertNew. by rewrite Hm. Qed.

Lemma insertNew_absent `{Countable K} {V} (k : K) (v : V) (m : gmap K V) :
  m !! k = None → insertNew k v m = <[k := v]> m.
Proof. intros Hm. unfold insertNew. by rewrite Hm. Qed.

Section MediaArtGone.

Context (w : World) (libraries blacklist : list QString)
  (disk : MediaArtDir).

(** What one turn of the first loop does with the row's media art, for a
    row that passes the test. *)
Lemma loadRow_art l row :
  noMediaSound w (noMediaDirectories l) →
  existanceSound w disk (mediaArtExistanceHash l) →
  eligible w libraries blacklist (filePath row) = true →
  let l' := loadRow w libraries blacklist disk l row in
  let a := mediaArt row in
  let there := QFile_exists w disk a in
  mediaArtExistanceHash l'
  = (if Qt.isEmpty a then mediaArtExistanceHash l
     else insertNew a there (mediaArtExistanceHash l))
  ∧ mediaArtHash l'
    = (if Qt.isEmpty a || there
       then insertNew (Qt.toInt (id row)) a (mediaArtHash l)
       else mediaArtHash l)
  ∧ deletedMediaArtCount l'
    = deletedMediaArtCount l
      + Z.of_nat (length (deletedMediaArt (mediaArtExistanceHash l')))
      - Z.of_nat (length (deletedMediaArt (mediaArtExistanceHash l))).
Proof.
  intros Hs He. unfold loadRow, eligible.
  destruct (isNoMediaDirectory_sound w _ (Qt.path (filePath row)) Hs)
    as [Hn _].
  destruct (fileExists w (filePath row)); cbn [negb orb andb]; [| done].
  destruct (isDir w (filePath row)); cbn [negb orb andb]; [done |].
  destruct (isReadable w (filePath row)); cbn [negb orb andb]; [| done].
  destruct (inLibrary libraries (filePath row)); cbn [negb andb]; [| done].
  destruct (isBlacklisted blacklist (filePath row)); cbn [negb andb];
    [done |].
  destruct (isNoMediaDirectory w _ _) as [noMedia cache].
  simpl in Hn. rewrite <- Hn.
  destruct noMedia; cbn [negb]; [done |]. intros _.
  destruct (Qt.isEmpty (mediaArt row)) eqn:Hempty; cbn [orb].
  { cbn. repeat split. lia. }
  destruct (mediaArtExistanceHash l !! mediaArt row) as [b|] eqn:Hm.
  - rewrite (insertNew_present _ _ _ _ Hm), <- (He _ _ Hm).
    destruct b; cbn; repeat split; lia.
  - rewrite (insertNew_absent _ _ _ Hm).
    destruct (QFile_exists w disk (mediaArt row)); cbn;
      rewrite length_deletedMediaArt_insert by done;
      repeat split; lia.
Qed.

Lemma existanceSound_insertNew m a :
  existanceSound w disk m → existanceSound w disk (insertNew a (QFile_exists w disk a) m).
Proof.
  intros He a' b [?|[-> ->]]%insertNew_lookup_Some; [by apply He | done].
Qed.

Lemma loaded_art (rows : list Track) :
  let l := foldl (loadRow w libraries blacklist disk) noneLoaded rows in
  let kept := eligibleRows w libraries blacklist rows in
  noMediaSound w (noMediaDirectories l)
  ∧ existanceSound w disk (mediaArtExistanceHash l)
  ∧ mediaArtExistanceHash l
    = foldl (λ m r, insertNew (mediaArt r)
                      (QFile_exists w disk (mediaArt r)) m) ∅
        (filter (λ r, mediaArt r ≠ EmptyString) kept)
  ∧ mediaArtHash l
    = foldl (λ m r, insertNew (Qt.toInt (id r)) (mediaArt r) m) ∅
        (filter (artThere w disk) kept)
  ∧ deletedMediaArtCount l
    = Z.of_nat (length (deletedMediaArt (mediaArtExistanceHash l))).
Proof.
  induction rows as [|row rows IH] using rev_ind.
  - simpl. split; [apply noMediaSound_empty |].
    split; [| done]. intros a b Hm. by rewrite lookup_empty in Hm.
  - cbn zeta in *. rewrite foldl_app. cbn [foldl].
    destruct IH as (Hs & He & Hx & Ha & Hc).
    destruct (loadRow_step w libraries blacklist disk _ row Hs)
      as (Hs' & _ & Hcase).
    split; [done |].
    unfold eligibleRows in *. rewrite filter_app.
    destruct (eligible w libraries blacklist (filePath row)) eqn:E.
    + destruct (loadRow_art _ row Hs He E) as (Hx' & Ha' & Hc').
      rewrite Hc', Hx', Ha'. clear Hx' Ha' Hc' Hcase.
      rewrite filter_cons_True, filter_nil by done. rewrite !filter_app.
      unfold artThere at 2.
      destruct (mediaArt row) as [|c rest] eqn:Hart; cbn [Qt.isEmpty orb].
      * rewrite filter_cons_False, filter_nil
          by (rewrite Hart; intros Hne; by apply Hne).
        rewrite (filter_cons_True _ row), filter_nil by (left; done).
        rewrite app_nil_r, foldl_app. cbn [foldl].
        rewrite Hart, <- Ha. repeat split; try done. lia.
      * rewrite (filter_cons_True _ row), filter_nil by (by rewrite Hart).
        rewrite foldl_app. cbn [foldl]. rewrite Hart, <- Hx.
        split; [by apply existanceSound_insertNew |].
        split; [done |]. split; [| lia].
        destruct (QFile_exists w disk (String c rest)) eqn:Hthere.
        -- rewrite (filter_cons_True _ row), filter_nil
             by (right; by rewrite Hart).
           rewrite foldl_app. cbn [foldl]. by rewrite Hart, <- Ha.
        -- rewrite (filter_cons_False _ row), filter_nil, app_nil_r;
             [done |].
           rewrite Hart, Hthere. by intros [?|?].
    + destruct Hcase as (_ & _ & -> & -> & -> & _).
      rewrite filter_cons_False, filter_nil by (rewrite E; done).
      rewrite !app_nil_r. done.
Qed.

Lemma loaded_deleted (rows : list Track) (a : QString) :
  a ∈ deletedMediaArt
        (mediaArtExistanceHash
           (foldl (loadRow w libraries blacklist disk) noneLoaded rows))
  ↔ a ≠ EmptyString ∧ QFile_exists w disk a = false
    ∧ ∃ r, r ∈ eligibleRows w libraries blacklist rows ∧ mediaArt r = a.
Proof.
  destruct (loaded_art rows) as (_ & _ & Hx & _).
  set (kept := eligibleRows w libraries blacklist rows) in *.
  rewrite elem_of_deletedMediaArt, Hx.
  rewrite (foldl_insertNew_lookup mediaArt
             (λ r, QFile_exists w disk (mediaArt r))).
  split.
  - intros Hh.
    destruct (filter _ (filter _ kept)) as [|r rest] eqn:Hf; [done |].
    assert (Hr : r ∈ filter (λ x, mediaArt x = a)
                   (filter (λ x, mediaArt x ≠ EmptyString) kept))
      by (rewrite Hf; apply list_elem_of_here).
    apply list_elem_of_filter in Hr as [<- Hr].
    apply list_elem_of_filter in Hr as [Hne Hr].
    cbn in Hh. injection Hh as Hh. eauto.
  - intros (Hne & Hgone & r & Hr & <-).
    destruct (filter _ (filter _ kept)) as [|r' rest] eqn:Hf.
    + exfalso. apply (not_elem_of_nil r). rewrite <- Hf.
      apply list_elem_of_filter. split; [done |].
      by apply list_elem_of_filter.
    + assert (Hr' : r' ∈ filter (λ x, mediaArt x = mediaArt r)
                      (filter (λ x, mediaArt x ≠ EmptyString) kept))
        by (rewrite Hf; apply list_elem_of_here).
      apply list_elem_of_filter in Hr' as [Heq _].
      cbn. by rewrite Heq, Hgone.
Qed.

End MediaArtGone.

(** X7: after the first loop, the media art to be cleared from the rows
    is the non-empty media art of the rows that pass the test whose file
    does not exist, each path once, and [deletedMediaArtCount] is their
    number; an id has its media art recorded when the first row of the id
    that passes the test with empty or existing media art carries it. *)
Theorem missing_art_is_noted (w : World) (libraries blacklist : list QString)
    (db : Database) (disk : MediaArtDir) :
  let kept := eligibleRows w libraries blacklist (selectTracks (tracks db)) in
  let l := vars (startOfWalk w libraries blacklist db disk) in
  let deleted := deletedMediaArt (mediaArtExistanceHash l) in
  (∀ a, a ∈ deleted
        ↔ a ≠ EmptyString ∧ QFile_exists w disk a = false
          ∧ ∃ r, r ∈ kept ∧ mediaArt r = a)
  ∧ NoDup deleted
  ∧ deletedMediaArtCount l = Z.of_nat (length deleted)
  ∧ (∀ i, mediaArtHash l !! i
          = mediaArt
            <$> head (filter (λ r, Qt.toInt (id r) = i)
                        (filter (λ r, mediaArt r = EmptyString
                                      ∨ QFile_exists w disk (mediaArt r)
                                        = true) kept))).
Proof.
  intros kept l deleted.
  destruct (loaded_art w libraries blacklist disk (selectTracks (tracks db)))
    as (_ & _ & _ & Ha & Hc).
  unfold deleted, l, startOfWalk. cbn [vars].
  split; [intros a; apply loaded_deleted |].
  split; [apply NoDup_deletedMediaArt |]. split; [done |].
  intros i. rewrite Ha.
  apply (foldl_insertNew_lookup (Qt.toInt ∘ id) mediaArt).
Qed.

(** ** Clearing the media art that is gone *)

Lemma chunks_nonempty {A} (n fuel : nat) (l : list A) :
  (0 < n)%nat → Forall (λ c, (1 ≤ length c)%nat) (chunks fuel n l).
Proof.
  intros Hn. revert l. induction fuel as [|fuel IH]; intros l; [constructor |].
  destruct l as [|x l]; [constructor |].
  cbn [chunks]. constructor; [| apply IH].
  rewrite length_take. simpl. lia.
Qed.

Lemma isIn_app column c1 c2 :
  Sql.isIn column (c1 ++ c2) = Sql.isIn column c1 || Sql.isIn column c2.
Proof.
  destruct column as [text|]; [| done]. cbn [Sql.isIn].
  destruct (decide (text ∈ c1)) as [H1|H1].
  - rewrite (bool_decide_eq_true_2 _ H1).
    apply bool_decide_eq_true_2, elem_of_app. by left.
  - rewrite (bool_decide_eq_false_2 _ H1). cbn [orb].
    apply bool_decide_ext. rewrite elem_of_app. tauto.
Qed.

Lemma apply_clear_nothing rows :
  Sql.apply (ClearMediaArtIn []) rows = Some rows.
Proof.
  cbn [Sql.apply]. f_equal. rewrite <- (list_fmap_id rows) at 2.
  apply list_fmap_ext. intros _ r _.
  destruct (mediaArtColumn r) as [text|]; [| done]. cbn [Sql.isIn].
  rewrite bool_decide_eq_false_2; [done | apply not_elem_of_nil].
Qed.

Lemma apply_clear_app c1 c2 rows rows1 :
  Sql.apply (ClearMediaArtIn c1) rows = Some rows1 →
  Sql.apply (ClearMediaArtIn c2) rows1
  = Sql.apply (ClearMediaArtIn (c1 ++ c2)) rows.
Proof.
  cbn [Sql.apply]. intros [= <-]. f_equal.
  rewrite <- list_fmap_compose. apply list_fmap_ext. intros _ r _. cbn.
  rewrite isIn_app.
  destruct (Sql.isIn (mediaArtColumn r) c1) eqn:H1; cbn [orb]; [| done].
  by destruct (Sql.isIn _ c2).
Qed.

Lemma clearing_journal w (pieces : list (list QString)) db :
  journal (foldl (λ db chunk, (exec w (ClearMediaArtIn chunk) db).2) db pieces)
  = journal db ++ (ClearMediaArtIn <$> pieces).
Proof.
  revert db. induction pieces as [|c pieces IH]; intros db.
  - by rewrite app_nil_r.
  - cbn [foldl]. rewrite IH, exec_journal, fmap_cons.
    by rewrite <- app_assoc.
Qed.

Lemma clearing_tracks w (pieces : list (list QString)) db :
  Sql.apply
    (ClearMediaArtIn
       (concat (imap (λ k c, if execOk w (length (journal db) + k)
                             then c else []) pieces)))
    (tracks db)
  = Some (tracks (foldl (λ db chunk, (exec w (ClearMediaArtIn chunk) db).2)
                    db pieces)).
Proof.
  revert db. induction pieces as [|c pieces IH]; intros db.
  - apply apply_clear_nothing.
  - cbn [foldl imap concat]. rewrite Nat.add_0_r.
    specialize (IH (exec w (ClearMediaArtIn c) db).2).
    rewrite exec_journal, length_app in IH. cbn [length] in IH.
    rewrite <- IH. clear IH.
    assert (Hshift :
      imap ((λ k c0, if execOk w (length (journal db) + k) then c0 else [])
            ∘ S) pieces
      = imap (λ k c0, if execOk w (length (journal db) + 1 + k)
                      then c0 else []) pieces).
    { apply imap_ext. intros k x _. cbn.
      by replace (length (journal db) + S k)%nat
        with (length (journal db) + 1 + k)%nat by lia. }
    rewrite Hshift. symmetry. unfold exec.
    destruct (execOk w (length (journal db))).
    + cbn [Sql.apply snd tracks]. by apply apply_clear_app.
    + cbn [snd tracks app]. done.
Qed.

Lemma clearDeletedMediaArt_pieces w l db :
  let deleted := deletedMediaArt (mediaArtExistanceHash l) in
  deletedMediaArtCount l = Z.of_nat (length deleted) →
  clearDeletedMediaArt w l db
  = foldl (λ db chunk, (exec w (ClearMediaArtIn chunk) db).2) db
      (chunks (length deleted) maxParametersCount deleted).
Proof.
  intros deleted Hcount. unfold clearDeletedMediaArt. fold deleted.
  destruct (0 <? deletedMediaArtCount l) eqn:Hpos; [done |].
  apply Z.ltb_ge in Hpos.
  assert (Hnil : deleted = []) by (apply length_zero_iff_nil; lia).
  by rewrite Hnil.
Qed.

Lemma clearDeletedMediaArt_all_ok w l db :
  let deleted := deletedMediaArt (mediaArtExistanceHash l) in
  deletedMediaArtCount l = Z.of_nat (length deleted) →
  (∀ n, execOk w n = true) →
  Sql.apply (ClearMediaArtIn deleted) (tracks db)
  = Some (tracks (clearDeletedMediaArt w l db)).
Proof.
  intros deleted Hcount Hok.
  rewrite (clearDeletedMediaArt_pieces w l db Hcount).
  rewrite <- clearing_tracks. do 2 f_equal. fold deleted.
  rewrite <- (concat_chunks maxParametersCount (length deleted) deleted)
    at 1 by (unfold maxParametersCount; lia).
  f_equal.
  rewrite <- (list_fmap_id (chunks _ _ _)) at 1. rewrite <- imap_const.
  apply imap_ext. intros k c _. by rewrite Hok.
Qed.

(** X8: the media art that is gone is cleared from the rows by [UPDATE]
    statements that carry it in pieces of 1 to 999 paths, in order and
    each path in one piece; the rows end as one [UPDATE] naming the paths
    of the pieces whose statement succeeded leaves them, so with no
    failure as one statement naming every path. *)
Theorem art_cleared_in_pieces (w : World) (l : Loaded) (db : Database) :
  let deleted := deletedMediaArt (mediaArtExistanceHash l) in
  let pieces := chunks (length deleted) maxParametersCount deleted in
  let db' := clearDeletedMediaArt w l db in
  let cleared :=
    concat (imap (λ k c, if execOk w (length (journal db) + k)
                         then c else []) pieces) in
  deletedMediaArtCount l = Z.of_nat (length deleted) →
  concat pieces = deleted
  ∧ Forall (λ c, (1 ≤ length c ≤ maxParametersCount)%nat) pieces
  ∧ journal db' = journal db ++ (ClearMediaArtIn <$> pieces)
  ∧ Sql.apply (ClearMediaArtIn cleared) (tracks db) = Some (tracks db')
  ∧ ((∀ k, (k < length pieces)%nat
           → execOk w (length (journal db) + k) = true)
     → cleared = deleted).
Proof.
  intros deleted pieces db' cleared Hcount.
  assert (Hcat : concat pieces = deleted)
    by (apply concat_chunks; [unfold maxParametersCount; lia | done]).
  split; [done |]. split.
  { apply Forall_and. split.
    - apply chunks_nonempty. unfold maxParametersCount. lia.
    - apply length_chunks. }
  assert (Hdb : db' = foldl (λ db chunk, (exec w (ClearMediaArtIn chunk) db).2)
                        db pieces)
    by (by apply clearDeletedMediaArt_pieces).
  rewrite Hdb. split; [apply clearing_journal |].
  split; [apply clearing_tracks |].
  intros Hok. unfold cleared. rewrite <- Hcat. f_equal.
  rewrite <- (list_fmap_id pieces) at 2. rewrite <- imap_const.
  apply imap_ext. intros k c Hk. apply lookup_lt_Some in Hk.
  by rewrite (Hok k Hk).
Qed.

Lemma art_cleared_in_pieces_witness :
  let w := scenario in
  let s := sampleStart w (indexed "/cache/media-art/gone.jpg") in
  deletedMediaArt (mediaArtExistanceHash (vars s))
  = ["/cache/media-art/gone.jpg"]
  ∧ journal (clearDeletedMediaArt w (vars s) (store s))
    = [SelectTracks; ClearMediaArtIn ["/cache/media-art/gone.jpg"]].
Proof.
  intros w s.
  destruct (art_cleared_in_pieces w (vars s) (store s))
    as (_ & _ & Hj & _); [vm_compute; reflexivity |].
  split; [vm_compute; reflexivity |].
  rewrite Hj. vm_compute. reflexivity.
Defined.

(** ** The walk *)

Lemma walkedFrom_refl s : walkedFrom s s.
Proof. unfold walkedFrom. repeat split; try done; lia. Qed.

Lemma walkedFrom_trans s1 s2 s3 :
  walkedFrom s1 s2 → walkedFrom s2 s3 → walkedFrom s1 s3.
Proof.
  intros (F1 & M1 & A1 & E1 & C1 & L1 & R1 & J1 & D1)
         (F2 & M2 & A2 & E2 & C2 & L2 & R2 & J2 & D2).
  unfold walkedFrom. rewrite F2, M2, A2, E2, C2.
  repeat split; try done; [lia | by etrans | by etrans | auto].
Qed.

Lemma getTrackMediaArt_artFiles w data path prefer a p :
  is_Some (artFiles a !! p) →
  is_Some (artFiles (getTrackMediaArt w data path prefer a).2 !! p).
Proof.
  intros Hp.
  assert (Hsave : ∀ embedded,
    is_Some ((saveEmbeddedMediaArt w data embedded (artFiles a)).2 !! p)).
  { intros embedded.
    destruct (saveEmbeddedMediaArt_cases w data embedded (artFiles a))
      as [(found & _ & E)|[(_ & _ & _ & E)|(_ & _ & E)]];
      rewrite E; cbn [snd]; [done | | done].
    destruct (decide (canonical w data = p)) as [->|Hne].
    - rewrite lookup_insert_eq. eauto.
    - by rewrite lookup_insert_ne. }
  unfold getTrackMediaArt.
  destruct (findMediaArtForDirectory w _ _) as [dirArt dirs].
  destruct prefer.
  - destruct (Qt.isEmpty dirArt); [| done].
    destruct data; [done |]. cbn [artFiles embeddedMediaArtFiles].
    specialize (Hsave (embeddedMediaArtFiles a)).
    by destruct (saveEmbeddedMediaArt w _ _ _) as [[? ?] ?].
  - destruct data; [done |].
    specialize (Hsave (embeddedMediaArtFiles a)).
    by destruct (saveEmbeddedMediaArt w _ _ _) as [[? ?] ?].
Qed.

Lemma updateTrackInDatabase_journal w inDb i path info art db :
  journal db `prefix_of` journal (updateTrackInDatabase w inDb i path info art db).
Proof.
  unfold updateTrackInDatabase. rewrite exec_journal.
  destruct inDb.
  - rewrite exec_journal, <- app_assoc. by apply prefix_app_r.
  - by apply prefix_app_r.
Qed.

Lemma visit_walkedFrom w blacklist prefer path s :
  walkedFrom s (visit w blacklist prefer path s)
  ∧ lastId (vars (visit w blacklist prefer path s)) ≤ lastId (vars s) + 1.
Proof.
  assert (Hrefl : walkedFrom s s ∧ lastId (vars s) ≤ lastId (vars s) + 1)
    by (split; [apply walkedFrom_refl | lia]).
  unfold visit.
  destruct (isDir w path); [done |].
  destruct (negb (isReadable w path)); [done |].
  destruct (files (vars s) !! path) as [i|].
  - destruct (_ =? _).
    + unfold visitUnchanged.
      destruct (match mediaArtHash (vars s) !! i with
                | Some found => _ | None => _ end) as [mediaArt deleted].
      destruct (_ && negb _); [done |].
      destruct (_ || _); [| done].
      pose proof (getTrackMediaArt_artFiles w
        (if negb deleted && Qt.isEmpty mediaArt
            || Qt.startsWith mediaArt (mMediaArtDirectory w)
               && Qt.contains mediaArt "-embedded"
         then []
         else tagutils.mediaArtData
                (getTrackInfo w path (mimeTypeForFile w path)))
        path prefer (art s)) as Hfiles.
      destruct (getTrackMediaArt w _ _ _ _) as [newMediaArt a].
      cbn [snd] in Hfiles.
      destruct (_ && negb (String.eqb _ _)); (split; [| cbn; lia]);
        unfold walkedFrom; cbn [vars store art]; repeat split;
        try done; try lia.
      rewrite exec_journal. by apply prefix_app_r.
    + unfold visitChanged.
      destruct (contains mimeTypesByContent _).
      * pose proof (getTrackMediaArt_artFiles w
          (tagutils.mediaArtData
             (getTrackInfo w path (mimeTypeForFile w path)))
          path prefer (art s)) as Hfiles.
        destruct (getTrackMediaArt w _ _ _ _) as [mediaArt a].
        cbn [snd] in Hfiles. split; [| cbn; lia].
        unfold walkedFrom; cbn [vars store art]; repeat split;
          try done; try lia.
        apply updateTrackInDatabase_journal.
      * split; [| cbn; lia].
        unfold walkedFrom; cbn; repeat split; try done; try lia.
        by apply prefix_app_r.
  - unfold visitNew.
    destruct (isNoMediaDirectory w _ _) as [noMedia cache].
    assert (Hsame :
      walkedFrom s {| vars := withNoMediaDirectories cache (vars s);
                      store := store s; art := art s |}
      ∧ lastId (vars s) ≤ lastId (vars s) + 1).
    { split; [| lia]. unfold walkedFrom; cbn; repeat split; try done; lia. }
    destruct noMedia; [done |].
    destruct (isBlacklisted blacklist path); [done |].
    destruct (contains mimeTypesExtensions _); [| done].
    destruct (contains mimeTypesByContent _); [| done].
    cbn [vars store art].
    pose proof (getTrackMediaArt_artFiles w
      (tagutils.mediaArtData (getTrackInfo w path (mimeTypeForFile w path)))
      path prefer (art s)) as Hfiles.
    destruct (getTrackMediaArt w _ _ _ _) as [mediaArt a].
    cbn [snd] in Hfiles. split; [| cbn; lia].
    unfold walkedFrom; cbn [vars store art]; repeat split;
      try done; cbn; try lia.
    apply updateTrackInDatabase_journal.
Qed.

Lemma walk_walkedFrom w blacklist prefer entries n s :
  walkedFrom s (walk w blacklist prefer entries n s).2
  ∧ lastId (vars (walk w blacklist prefer entries n s).2)
    ≤ lastId (vars s) + Z.of_nat (length entries).
Proof.
  revert n s. induction entries as [|path rest IH]; intros n s.
  - split; [apply walkedFrom_refl | cbn; lia].
  - cbn [walk]. destruct (appRunning w n).
    + destruct (visit_walkedFrom w blacklist prefer path s) as [H1 L1].
      destruct (IH (S n) (visit w blacklist prefer path s)) as [H2 L2].
      split; [by eapply walkedFrom_trans |]. cbn [length]. lia.
    + split; [apply walkedFrom_refl | cbn; lia].
Qed.

(** X9: the walk over the library works on the index as the first loop
    read it: it changes none of the maps of paths, modification times and
    media art, so a file that it adds is not found in the index when the
    walk meets its path again; [lastId] grows by at most one per entry,
    [filesToRemove] and the statements sent are only extended, and no
    file of the media art directory disappears. *)
Theorem walk_keeps_the_index (w : World) (blacklist : list QString)
    (prefer : bool) (entries : list QString) (n : nat) (s : Walk) :
  let s' := (walk w blacklist prefer entries n s).2 in
  files (vars s') = files (vars s)
  ∧ modificationTimeHash (vars s') = modificationTimeHash (vars s)
  ∧ mediaArtHash (vars s') = mediaArtHash (vars s)
  ∧ mediaArtExistanceHash (vars s') = mediaArtExistanceHash (vars s)
  ∧ deletedMediaArtCount (vars s') = deletedMediaArtCount (vars s)
  ∧ lastId (vars s) ≤ lastId (vars s')
      ≤ lastId (vars s) + Z.of_nat (length entries)
  ∧ filesToRemove (vars s) `prefix_of` filesToRemove (vars s')
  ∧ journal (store s) `prefix_of` journal (store s')
  ∧ (∀ p, is_Some (artFiles (art s) !! p)
          → is_Some (artFiles (art s') !! p)).
Proof.
  intros s'.
  destruct (walk_walkedFrom w blacklist prefer entries n s)
    as [(F & M & A & E & C & L & R & J & D) Hl].
  repeat split; done.
Qed.

(** ** Files that are not in the index *)

Lemma exec_insertStatement w i path mtime info art db :
  exec w (insertStatement i path mtime info art) db
  = (execOk w (length (journal db)),
     {| tracks := tracks db
                  ++ (if execOk w (length (journal db))
                      then expandedRows i path mtime info art else []);
        journal := journal db
                   ++ [insertStatement i path mtime info art] |}).
Proof.
  unfold exec. rewrite apply_insertStatement.
  destruct (execOk w _); [done |]. by rewrite app_nil_r.
Qed.

(** X10: a readable file that is not in the index is added when its
    directory holds no [.nomedia], it is under no blacklisted directory,
    its suffix is one of the audio suffixes and its content is recognised
    as one of the audio types: it gets the id [lastId + 1] and one
    [INSERT] is sent with the media art resolved for it.  Otherwise no
    statement is sent, no media art is resolved and [lastId] stays.  In
    no case is the path put in the index or an id pushed on
    [filesToRemove]. *)
Theorem new_file_is_added (w : World) (blacklist : list QString)
    (prefer : bool) (path : QString) (s : Walk) :
  isDir w path = false → isReadable w path = true →
  files (vars s) !! path = None →
  noMediaSound w (noMediaDirectories (vars s)) →
  let s' := visit w blacklist prefer path s in
  let info := getTrackInfo w path (mimeTypeForFile w path) in
  let resolved :=
    getTrackMediaArt w (tagutils.mediaArtData info) path prefer (art s) in
  let i := lastId (vars s) + 1 in
  noMediaSound w (noMediaDirectories (vars s'))
  ∧ files (vars s') = files (vars s)
  ∧ filesToRemove (vars s') = filesToRemove (vars s)
  ∧ if accepted w blacklist path
    then lastId (vars s') = i
         ∧ journal (store s')
           = journal (store s)
             ++ [insertStatement i path (lastModified w path) info
                   resolved.1]
         ∧ tracks (store s')
           = tracks (store s)
             ++ (if execOk w (length (journal (store s)))
                 then expandedRows i path (lastModified w path) info
                        resolved.1
                 else [])
         ∧ art s' = resolved.2
    else lastId (vars s') = lastId (vars s)
         ∧ store s' = store s ∧ art s' = art s.
Proof.
  intros Hd Hr Hf Hs. cbv zeta.
  unfold visit. rewrite Hd, Hr, Hf. cbn [negb]. unfold visitNew, accepted.
  destruct (isNoMediaDirectory_sound w _ (Qt.path path) Hs) as [Hn Hs'].
  destruct (isNoMediaDirectory w _ _) as [noMedia cache].
  cbn [fst snd] in Hn, Hs'. rewrite <- Hn.
  destruct noMedia; cbn [negb andb]; [done |].
  destruct (isBlacklisted blacklist path); cbn [negb andb]; [done |].
  destruct (contains mimeTypesExtensions _); cbn [andb]; [| done].
  destruct (contains mimeTypesByContent _); [| done].
  destruct (getTrackMediaArt w _ _ _ _) as [mediaArt a].
  cbn [vars store art fst snd withLastId withNoMediaDirectories
       noMediaDirectories files filesToRemove lastId].
  split; [done |]. split; [done |]. split; [done |].
  unfold updateTrackInDatabase. rewrite exec_insertStatement.
  cbn [snd journal tracks]. done.
Qed.

Lemma new_file_is_added_witness :
  let w := scenario in
  let s := sampleStart w emptyStore in
  let s' := visit w [] false "/music/song.mp3" s in
  lastId (vars s') = 0
  ∧ tracks (store s') = [songRow "/music/folder.jpg"].
Proof.
  intros w s s'. subst s'.
  destruct (new_file_is_added w [] false "/music/song.mp3" s)
    as (_ & _ & _ & H);
    [reflexivity | reflexivity | vm_compute; reflexivity
    | apply noMediaSound_empty |].
  change (accepted w [] "/music/song.mp3") with true in H.
  destruct H as (Hl & _ & Ht & _).
  split; [rewrite Hl | rewrite Ht]; vm_compute; reflexivity.
Defined.

(** ** Ids *)

Lemma sorted_last (l : list Track) :
  StronglySorted byId l → ∀ x, x ∈ l →
  ∃ y, last l = Some y ∧ id x ≤ id y.
Proof.
  induction 1 as [|z l Hs IH Hz]; intros x Hx;
    [by apply elem_of_nil in Hx |].
  apply elem_of_cons in Hx as [->|Hx].
  - destruct l as [|z' l']; [exists z; split; [done | lia] |].
    destruct (IH z' ltac:(left)) as (y & Hy & Hle).
    exists y. split; [by rewrite last_cons, Hy |].
    rewrite Forall_forall in Hz.
    assert (byId z z') by (apply Hz; left). unfold byId in *. lia.
  - destruct (IH x Hx) as (y & Hy & Hle).
    exists y. split; [| done]. by rewrite last_cons, Hy.
Qed.

Lemma startOfWalk_idsBelow w libraries blacklist db disk :
  (∀ r, r ∈ tracks db → - 2 ^ 31 ≤ id r < 2 ^ 31) →
  idsBelow (startOfWalk w libraries blacklist db disk).
Proof.
  intros Hrange.
  assert (Hrows : ∀ r, r ∈ tracks db →
    id r ≤ lastId (vars (startOfWalk w libraries blacklist db disk))).
  { intros r Hr.
    destruct (loaded_step w libraries blacklist disk
                (selectTracks (tracks db))) as (_ & Hlast & _).
    unfold startOfWalk. cbn [vars]. rewrite Hlast.
    assert (Hid : id r ∈ id <$> Sql.groupById (tracks db))
      by (apply groupById_ids, list_elem_of_fmap; eauto).
    apply list_elem_of_fmap in Hid as (x & Hx & Hin).
    destruct (sorted_last _ (sorted_groupById (tracks db)) x Hin)
      as (y & Hy & Hle).
    unfold selectTracks. rewrite Hy. cbn.
    rewrite toInt_small; [lia |].
    apply Hrange, groupById_rows.
    apply last_Some_elem_of in Hy. done. }
  split; [done |].
  intros path i Hi.
  destruct (startOfWalk_indexFrom w libraries blacklist db disk)
    as (Hf & _).
  destruct (Hf path i Hi) as (row & Hrow & _ & <-).
  rewrite toInt_small by (by apply Hrange). by apply Hrows.
Qed.

Lemma updateTrackInDatabase_ids w inDb i path info art db r :
  r ∈ tracks (updateTrackInDatabase w inDb i path info art db) →
  r ∈ tracks db ∨ id r = i.
Proof.
  unfold updateTrackInDatabase. rewrite exec_insertStatement.
  cbn [snd tracks]. intros [Hr|Hr]%elem_of_app.
  - left. destruct inDb; [| done]. revert Hr. unfold exec.
    destruct (execOk w _); [| done]. cbn [Sql.apply snd tracks].
    by intros [_ ?]%list_elem_of_filter.
  - right. destruct (execOk w _); [| by apply elem_of_nil in Hr].
    unfold expandedRows in Hr.
    by apply list_elem_of_fmap in Hr as (e & -> & _).
Qed.

Lemma visit_idsBelow w blacklist prefer path s :
  idsBelow s → idsBelow (visit w blacklist prefer path s).
Proof.
  intros [Hrows Hfiles]. unfold visit.
  destruct (isDir w path); [done |].
  destruct (negb (isReadable w path)); [done |].
  destruct (files (vars s) !! path) as [i|] eqn:Hi.
  - destruct (_ =? _).
    + unfold visitUnchanged.
      destruct (match mediaArtHash (vars s) !! i with
                | Some found => _ | None => _ end) as [mediaArt deleted].
      destruct (_ && negb _); [done |].
      destruct (_ || _); [| done].
      destruct (getTrackMediaArt w _ _ _ _) as [newMediaArt a].
      destruct (_ && negb (String.eqb _ _)); [| done].
      split; [| done]. cbn [vars store]. intros r. unfold exec.
      destruct (execOk w _); [| apply Hrows]. cbn [Sql.apply snd tracks].
      intros (r0 & -> & Hr0)%list_elem_of_fmap.
      specialize (Hrows r0 Hr0). by destruct (bool_decide _).
    + unfold visitChanged.
      destruct (contains mimeTypesByContent _); [| done].
      destruct (getTrackMediaArt w _ _ _ _) as [mediaArt a].
      split; [| done]. cbn [vars store]. intros r Hr.
      apply updateTrackInDatabase_ids in Hr as [Hr| ->]; [by apply Hrows |].
      by apply (Hfiles path).
  - unfold visitNew.
    destruct (isNoMediaDirectory w _ _) as [noMedia cache].
    destruct noMedia; [done |].
    destruct (isBlacklisted blacklist path); [done |].
    destruct (contains mimeTypesExtensions _); [| done].
    destruct (contains mimeTypesByContent _); [| done].
    cbn [vars store art].
    destruct (getTrackMediaArt w _ _ _ _) as [mediaArt a].
    split; cbn [vars store lastId withLastId files withNoMediaDirectories].
    + intros r Hr.
      apply updateTrackInDatabase_ids in Hr as [Hr| ->]; [| lia].
      specialize (Hrows r Hr). lia.
    + intros p j Hj. specialize (Hfiles p j Hj). lia.
Qed.

Lemma walk_idsBelow w blacklist prefer entries n s :
  idsBelow s → idsBelow (walk w blacklist prefer entries n s).2.
Proof.
  revert n s. induction entries as [|path rest IH]; intros n s Hs; [done |].
  cbn [walk]. destruct (appRunning w n); [| done].
  by apply IH, visit_idsBelow.
Qed.

(** X11: when the ids of the table fit an [int] and leave room above them
    for one id per entry of the walk and one more, [lastId] never leaves
    the range of an [int] during the walk, so that [++lastId] does not
    overflow; no row and no indexed file has an id above [lastId], and
    the id [lastId + 1] given to the next file that is added is the id of
    no row. *)
Theorem ids_stay_below_lastId (w : World) (libraries blacklist : list QString)
    (prefer : bool) (db : Database) (disk : MediaArtDir)
    (entries : list QString) (n : nat) :
  (∀ r, r ∈ tracks db →
        - 2 ^ 31 ≤ id r < 2 ^ 31 - 1 - Z.of_nat (length entries)) →
  Z.of_nat (length entries) < 2 ^ 31 →
  let s := (walk w blacklist prefer entries n
              (startOfWalk w libraries blacklist db disk)).2 in
  - 2 ^ 31 ≤ lastId (vars s) < 2 ^ 31 - 1
  ∧ (∀ r, r ∈ tracks (store s) → id r ≤ lastId (vars s))
  ∧ (∀ path i, files (vars s) !! path = Some i → i ≤ lastId (vars s))
  ∧ (∀ r, r ∈ tracks (store s) → id r ≠ lastId (vars s) + 1).
Proof.
  intros Hroom Hlen s.
  assert (Hrange : ∀ r, r ∈ tracks db → - 2 ^ 31 ≤ id r < 2 ^ 31).
  { intros r Hr. specialize (Hroom r Hr). lia. }
  destruct (walk_idsBelow w blacklist prefer entries n _
              (startOfWalk_idsBelow w libraries blacklist db disk Hrange))
    as [Hrows Hfiles].
  split.
  { destruct (walk_walkedFrom w blacklist prefer entries n
                (startOfWalk w libraries blacklist db disk))
      as [(_ & _ & _ & _ & _ & Hlow & _) Hhigh].
    fold s in Hlow, Hhigh.
    destruct (loaded_step w libraries blacklist disk
                (selectTracks (tracks db))) as (_ & Hlast & _).
    unfold startOfWalk in Hlow, Hhigh. cbn [vars] in Hlow, Hhigh.
    rewrite Hlast in Hlow, Hhigh.
    destruct (last (selectTracks (tracks db))) as [y|] eqn:Hy;
      cbn in Hlow, Hhigh; [| lia].
    apply last_Some_elem_of, groupById_rows in Hy.
    specialize (Hroom y Hy).
    rewrite toInt_small in Hlow, Hhigh by lia. lia. }
  split; [done |]. split; [done |].
  intros r Hr. specialize (Hrows r Hr). fold s in Hrows. lia.
Qed.

Lemma ids_stay_below_lastId_witness :
  let s := (walk scenario [] false ["/music/song.mp3"] 0
              (startOfWalk scenario ["/music/"] []
                 (indexed "/music/folder.jpg") ∅)).2 in
  tracks (store s) = [songRow "/music/folder.jpg"]
  ∧ lastId (vars s) = 0
  ∧ id (songRow "/music/folder.jpg") ≤ lastId (vars s).
Proof.
  intros s.
  assert (Hrows : tracks (store s) = [songRow "/music/folder.jpg"])
    by (vm_compute; reflexivity).
  split; [exact Hrows |]. split; [vm_compute; reflexivity |].
  destruct (ids_stay_below_lastId scenario ["/music/"] [] false
              (indexed "/music/folder.jpg") ∅ ["/music/song.mp3"] 0)
    as (_ & Hbelow & _).
  - intros r Hr. apply list_elem_of_singleton in Hr. subst r. cbn. lia.
  - cbn. lia.
  - apply Hbelow. fold s. rewrite Hrows. apply list_elem_of_here.
Defined.

(** ** The scan as a whole *)

Lemma updateDatabase_stages w db disk :
  updateDatabase w db disk
  = if negb (databaseOpens w) then OpenFailed
    else if negb (exec w SelectTracks db).1
    then SelectFailed (exec w SelectTracks db).2 disk
    else
      let s := (scanWalk w db disk).2 in
      if negb (scanWalk w db disk).1
      then Shutdown (store s) (artFiles (art s))
      else
        let db3 := clearDeletedMediaArt w (vars s)
                     (removeFiles w (filesToRemove (vars s)) (store s)) in
        Finished (selectAllMediaArt w db3).2
          (removeUnused w (selectAllMediaArt w db3).1 (artFiles (art s))).
Proof.
  unfold updateDatabase, scanWalk, scanStart, scanEntries.
  destruct (negb (databaseOpens w)); [done |].
  destruct (exec w SelectTracks db) as [ok db1]. cbn [fst snd].
  destruct (negb ok); [done |].
  destruct (walk w _ _ _ _ _) as [finished s]. cbn [fst snd].
  destruct (negb finished); [done |].
  by destruct (selectAllMediaArt w _) as [allMediaArt db4].
Qed.

Lemma elem_of_distinct (l : list QString) x : x ∈ Sql.distinct l ↔ x ∈ l.
Proof.
  induction l as [|y l IH]; [done |].
  cbn [Sql.distinct]. rewrite !elem_of_cons, list_elem_of_filter, IH.
  destruct (decide (x = y)); tauto.
Qed.

Lemma elem_of_distinctMediaArt rows a :
  a ∈ Sql.distinctMediaArt rows
  ↔ a ≠ EmptyString ∧ ∃ r, r ∈ rows ∧ mediaArt r = a.
Proof.
  unfold Sql.distinctMediaArt.
  rewrite elem_of_distinct, list_elem_of_filter, list_elem_of_fmap.
  split; intros [Hne (r & Hr & Hin)]; (split; [done |]); exists r; done.
Qed.

Lemma selectAllMediaArt_spec w db :
  let ok := execOk w (length (journal db)) in
  selectAllMediaArt w db
  = (if ok then Sql.distinctMediaArt (tracks db) else [],
     {| tracks := tracks db;
        journal := journal db ++ [SelectDistinctMediaArt] |}).
Proof.
  unfold selectAllMediaArt, exec. cbn [Sql.apply].
  by destruct (execOk w _).
Qed.

(** X12: at the end of a scan that finished, a file is in the media art
    directory exactly when it was there after the walk and either it
    cannot be removed or the last query succeeded and a row of the table
    names it as its media art: the sweep removes no media art that a row
    names, and when the query fails it removes every file it can. *)
Theorem sweep_spares_named_art (w : World) (db : Database)
    (disk : MediaArtDir) (db' : Database) (disk' : MediaArtDir) :
  updateDatabase w db disk = Finished db' disk' →
  let walked := artFiles (art (scanWalk w db disk).2) in
  let queried := execOk w (length (journal db') - 1) in
  ∀ p d,
    disk' !! p = Some d
    ↔ walked !! p = Some d
      ∧ (removeOk w p = false
         ∨ (queried = true ∧ p ≠ EmptyString
            ∧ ∃ r, r ∈ tracks db' ∧ mediaArt r = p)).
Proof.
  rewrite updateDatabase_stages.
  destruct (negb (databaseOpens w)); [done |].
  destruct (negb (exec w SelectTracks db).1); [done |].
  cbv zeta. destruct (negb (scanWalk w db disk).1); [done |].
  rewrite selectAllMediaArt_spec. cbn [fst snd].
  intros [= <- <-] p d. cbn [journal tracks].
  rewrite length_app. cbn [length].
  replace (length (journal _) + 1 - 1)%nat with
    (length (journal (clearDeletedMediaArt w (vars (scanWalk w db disk).2)
       (removeFiles w (filesToRemove (vars (scanWalk w db disk).2))
          (store (scanWalk w db disk).2))))) by lia.
  rewrite removeUnused_lookup. unfold contains.
  destruct (execOk w _).
  - rewrite bool_decide_eq_true, elem_of_distinctMediaArt. tauto.
  - rewrite bool_decide_eq_true. split; intros [Hd H]; (split; [done |]).
    + destruct H as [H|H]; [by apply elem_of_nil in H | by left].
    + destruct H as [H|(H & _)]; [by right | done].
Qed.

Lemma sweep_spares_named_art_witness :
  let manual := "/cache/media-art/manual.jpg" in
  let db' := {| tracks := [songRow manual];
                journal := [SelectTracks; SelectDistinctMediaArt] |} in
  updateDatabase scenario (indexed manual)
    {[ manual := []; "/cache/media-art/orphan.jpg" := [] ]}
  = Finished db' {[ manual := [] ]}
  ∧ ∃ r, r ∈ tracks db' ∧ mediaArt r = manual.
Proof.
  intros manual db'.
  assert (H : updateDatabase scenario (indexed manual)
                {[ manual := []; "/cache/media-art/orphan.jpg" := [] ]}
              = Finished db' {[ manual := [] ]}) by (vm_compute; reflexivity).
  split; [exact H |].
  destruct (proj1 (sweep_spares_named_art scenario _ _ _ _ H manual [])
              (lookup_singleton_eq manual []))
    as [_ [Hrm|(_ & _ & Hr)]]; [discriminate Hrm | exact Hr].
Defined.

Lemma clearDeletedMediaArt_rows w l db :
  ∃ cleared,
    Sql.apply (ClearMediaArtIn cleared) (tracks db)
    = Some (tracks (clearDeletedMediaArt w l db)).
Proof.
  unfold clearDeletedMediaArt. destruct (0 <? _).
  - eexists. apply clearing_tracks.
  - exists []. apply apply_clear_nothing.
Qed.

Lemma tracks_selectTracks w db :
  tracks (exec w SelectTracks db).2 = tracks db.
Proof. unfold exec. destruct (execOk w (length (journal db))); reflexivity. Qed.

(** The ids of the rows that fail the test of the first loop are on
    [filesToRemove] when the walk ends. *)
Lemma failed_rows_are_pushed w db disk gone :
  gone ∈ selectTracks (tracks db) →
  eligible w (prepareDirs (libraryDirectories w))
    (prepareDirs (blacklistedDirectories w)) (filePath gone) = false →
  Qt.toInt (id gone) ∈ filesToRemove (vars (scanWalk w db disk).2).
Proof.
  intros Hgone Hfails.
  pose proof (proj1 (walk_walkedFrom w
                       (prepareDirs (blacklistedDirectories w))
                       (useDirectoryMediaArt w) (scanEntries w) 0
                       (scanStart w db disk))) as Hw.
  change (walkedFrom (scanStart w db disk) (scanWalk w db disk).2) in Hw.
  destruct Hw as (_ & _ & _ & _ & _ & _ & [rest Hrest] & _).
  rewrite Hrest. apply elem_of_app. left.
  destruct (loaded_step w (prepareDirs (libraryDirectories w))
              (prepareDirs (blacklistedDirectories w)) disk
              (selectTracks (tracks (exec w SelectTracks db).2)))
    as (_ & _ & _ & _ & Hremove).
  unfold scanStart, startOfWalk. cbn [vars]. rewrite Hremove.
  apply list_elem_of_fmap. exists gone. split; [done |].
  apply list_elem_of_filter. split; [done |].
  by rewrite tracks_selectTracks.
Qed.

(** The rows at the end of a scan that finished have the ids of rows that
    the [DELETE] after the walk left. *)
Lemma finished_rows w db disk db' disk' r :
  updateDatabase w db disk = Finished db' disk' →
  r ∈ tracks db' →
  let s := (scanWalk w db disk).2 in
  ∃ r0, r0 ∈ tracks (removeFiles w (filesToRemove (vars s)) (store s))
        ∧ id r = id r0.
Proof.
  rewrite updateDatabase_stages.
  destruct (negb (databaseOpens w)); [done |].
  destruct (negb (exec w SelectTracks db).1); [done |].
  cbv zeta. destruct (negb (scanWalk w db disk).1); [done |].
  rewrite selectAllMediaArt_spec. cbn [fst snd].
  intros [= <- _] Hr. cbn [tracks] in Hr.
  destruct (clearDeletedMediaArt_rows w (vars (scanWalk w db disk).2)
              (removeFiles w (filesToRemove (vars (scanWalk w db disk).2))
                 (store (scanWalk w db disk).2)))
    as [cleared Hcleared].
  cbn [Sql.apply] in Hcleared. injection Hcleared as Hcleared.
  rewrite <- Hcleared in Hr.
  apply list_elem_of_fmap in Hr as (r0 & -> & Hr0).
  exists r0. split; [done |]. by destruct (Sql.isIn _ _).
Qed.

Lemma removeFiles_ids w ids db r :
  execOk w (length (journal db)) = true →
  r ∈ tracks (removeFiles w ids db) → id r ∉ ids.
Proof.
  intros Hok. unfold removeFiles.
  destruct ids as [|i ids]; [intros _; apply not_elem_of_nil |].
  unfold exec. rewrite Hok. cbn [Sql.apply snd tracks].
  by intros [Hnot _]%list_elem_of_filter.
Qed.

(** X13: when the [DELETE] sent after the walk succeeds, a scan that
    finished leaves no row with the id of a row of the first query that
    failed the test on its path: files that are gone, unreadable, outside
    the library directories, blacklisted or in a [.nomedia] directory
    leave the index. *)
Theorem vanished_files_leave_the_index (w : World) (db : Database)
    (disk : MediaArtDir) (db' : Database) (disk' : MediaArtDir) :
  updateDatabase w db disk = Finished db' disk' →
  execOk w (length (journal (store (scanWalk w db disk).2))) = true →
  ∀ gone, gone ∈ selectTracks (tracks db) →
    eligible w (prepareDirs (libraryDirectories w))
      (prepareDirs (blacklistedDirectories w)) (filePath gone) = false →
    ∀ r, r ∈ tracks db' → id r ≠ Qt.toInt (id gone).
Proof.
  intros Hscan Hok gone Hgone Hfails r Hr.
  destruct (finished_rows w db disk db' disk' r Hscan Hr)
    as (r0 & Hr0 & Hid).
  apply (removeFiles_ids w _ _ _ Hok) in Hr0.
  rewrite Hid. intros Heq. apply Hr0. rewrite Heq.
  by apply failed_rows_are_pushed.
Qed.

Lemma vanished_files_leave_the_index_witness :
  let db' := {| tracks := [songRow "/music/folder.jpg"];
                journal := [SelectTracks; DeleteTracksIn [1];
                            SelectDistinctMediaArt] |} in
  updateDatabase scenario withVanished ∅ = Finished db' ∅
  ∧ ∀ r, r ∈ tracks db' → id r ≠ 1.
Proof.
  intros db'.
  assert (H : updateDatabase scenario withVanished ∅ = Finished db' ∅)
    by (vm_compute; reflexivity).
  split; [exact H |].
  assert (Hrows : selectTracks (tracks withVanished) = tracks withVanished)
    by (vm_compute; reflexivity).
  apply (vanished_files_leave_the_index scenario withVanished ∅ db' ∅ H
           eq_refl
           {| id := 1; filePath := "/music/gone.mp3"; modificationTime := 1;
              title := Some "G"; artist := Some "A"; album := Some "Alb";
              year := 0; trackNumber := 0; discNumber := None;
              genre := None; duration := 60;
              mediaArtColumn := Some "/music/gone.jpg" |}).
  - rewrite Hrows. apply list_elem_of_further, list_elem_of_here.
  - vm_compute. reflexivity.
Defined.

(** ** Shutdown *)

Lemma walk_visits w blacklist prefer entries n s :
  let visited :=
    match shutdownAfter w with
    | None => entries
    | Some m => take (m - n) entries
    end in
  walk w blacklist prefer entries n s
  = (bool_decide (length visited = length entries),
     foldl (λ s path, visit w blacklist prefer path s) s visited).
Proof.
  revert n s. induction entries as [|path rest IH]; intros n s.
  - cbn zeta. destruct (shutdownAfter w); by rewrite ?take_nil.
  - cbn [walk]. rewrite IH. unfold appRunning. cbn zeta.
    destruct (shutdownAfter w) as [m|].
    + destruct (n <? m)%nat eqn:Hn.
      * apply Nat.ltb_lt in Hn.
        replace (m - n)%nat with (S (m - S n)) by lia.
        cbn [take foldl length]. f_equal.
        apply bool_decide_ext. lia.
      * apply Nat.ltb_ge in Hn.
        replace (m - n)%nat with 0%nat by lia. done.
    + cbn [foldl length]. f_equal. apply bool_decide_ext. lia.
Qed.

(** X14: when the application is shut down before the walk has gone
    through every entry, the scan stops there: its result is the store
    and the media art directory as the visits of the entries before the
    shutdown left them; no row is removed for a file that is gone, no
    media art is cleared and no file of the media art directory is
    removed. *)
Theorem shutdown_ends_the_scan (w : World) (db : Database)
    (disk : MediaArtDir) (m : nat) :
  databaseOpens w = true →
  execOk w (length (journal db)) = true →
  shutdownAfter w = Some m →
  (m < length (scanEntries w))%nat →
  let s := foldl (λ s path,
                    visit w (prepareDirs (blacklistedDirectories w))
                      (useDirectoryMediaArt w) path s)
             (scanStart w db disk) (take m (scanEntries w)) in
  updateDatabase w db disk = Shutdown (store s) (artFiles (art s))
  ∧ (∀ p, is_Some (disk !! p) → is_Some (artFiles (art s) !! p)).
Proof.
  intros Hopen Hok Hm Hlt. cbv zeta. split.
  - rewrite updateDatabase_stages, Hopen. cbn [negb].
    assert (Hsel : (exec w SelectTracks db).1 = true)
      by (unfold exec; rewrite Hok; done).
    rewrite Hsel. cbn [negb]. cbv zeta.
    unfold scanWalk. rewrite walk_visits, Hm, Nat.sub_0_r. cbn [fst snd].
    rewrite bool_decide_eq_false_2; [done |].
    rewrite length_take. lia.
  - pose proof (walk_visits w (prepareDirs (blacklistedDirectories w))
                  (useDirectoryMediaArt w) (take m (scanEntries w)) 0
                  (scanStart w db disk)) as Hwalk.
    cbv zeta in Hwalk. rewrite Hm, Nat.sub_0_r in Hwalk.
    rewrite take_take, Nat.min_id in Hwalk.
    destruct (walk_walkedFrom w (prepareDirs (blacklistedDirectories w))
                (useDirectoryMediaArt w) (take m (scanEntries w)) 0
                (scanStart w db disk))
      as [(_ & _ & _ & _ & _ & _ & _ & _ & Hfiles) _].
    rewrite Hwalk in Hfiles. cbn [snd] in Hfiles. exact Hfiles.
Qed.

Lemma shutdown_ends_the_scan_witness :
  updateDatabase shutDown emptyStore ∅
  = Shutdown {| tracks := []; journal := [SelectTracks] |} ∅.
Proof.
  destruct (shutdown_ends_the_scan shutDown emptyStore ∅ 3) as [H _];
    [reflexivity | reflexivity | reflexivity | vm_compute; lia |].
  rewrite H. vm_compute. reflexivity.
Defined.

(** ** One file, one id *)


(** X16: a file that is not in the index and that the walk meets twice,
    because a library directory is configured twice or reached again
    through a link, is added twice: two [INSERT] statements are sent, of
    the ids [lastId + 1] and [lastId + 2]. *)
Theorem met_twice_added_twice (w : World) (blacklist : list QString)
    (prefer : bool) (path : QString) (s : Walk) :
  isDir w path = false → isReadable w path = true →
  files (vars s) !! path = None →
  noMediaSound w (noMediaDirectories (vars s)) →
  accepted w blacklist path = true →
  let s1 := visit w blacklist prefer path s in
  let s2 := visit w blacklist prefer path s1 in
  let info := getTrackInfo w path (mimeTypeForFile w path) in
  let mtime := lastModified w path in
  ∃ art1 art2,
    journal (store s2)
    = journal (store s)
      ++ [insertStatement (lastId (vars s) + 1) path mtime info art1;
          insertStatement (lastId (vars s) + 2) path mtime info art2]
    ∧ lastId (vars s2) = lastId (vars s) + 2
    ∧ ((∀ n, execOk w n = true) →
       tracks (store s2)
       = tracks (store s)
         ++ expandedRows (lastId (vars s) + 1) path mtime info art1
         ++ expandedRows (lastId (vars s) + 2) path mtime info art2).
Proof.
  intros Hd Hr Hf Hs Ha. cbv zeta.
  assert (Hstep : ∀ s0, files (vars s0) !! path = None →
    noMediaSound w (noMediaDirectories (vars s0)) →
    let s' := visit w blacklist prefer path s0 in
    files (vars s') !! path = None
    ∧ noMediaSound w (noMediaDirectories (vars s'))
    ∧ lastId (vars s') = lastId (vars s0) + 1
    ∧ ∃ art,
        journal (store s')
        = journal (store s0)
          ++ [insertStatement (lastId (vars s0) + 1) path
                (lastModified w path)
                (getTrackInfo w path (mimeTypeForFile w path)) art]
        ∧ tracks (store s')
          = tracks (store s0)
            ++ (if execOk w (length (journal (store s0)))
                then expandedRows (lastId (vars s0) + 1) path
                       (lastModified w path)
                       (getTrackInfo w path (mimeTypeForFile w path)) art
                else [])).
  { intros s0 Hf0 Hs0. cbv zeta.
    unfold visit. rewrite Hd, Hr, Hf0. cbn [negb]. unfold visitNew.
    unfold accepted in Ha.
    destruct (isNoMediaDirectory_sound w _ (Qt.path path) Hs0) as [Hn Hs'].
    destruct (isNoMediaDirectory w _ _) as [noMedia cache].
    cbn [fst snd] in Hn, Hs'. rewrite <- Hn in Ha.
    destruct noMedia; cbn [negb andb] in Ha; [done |].
    destruct (isBlacklisted blacklist path); cbn [negb andb] in Ha;
      [done |].
    destruct (contains mimeTypesExtensions _); cbn [andb] in Ha; [| done].
    rewrite Ha.
    destruct (getTrackMediaArt w _ _ _ _) as [mediaArt a].
    cbn [vars store art fst snd withLastId withNoMediaDirectories
         noMediaDirectories files filesToRemove lastId].
    split; [done |]. split; [done |]. split; [done |].
    exists mediaArt. unfold updateTrackInDatabase.
    rewrite exec_insertStatement. cbn [snd journal tracks]. done. }
  destruct (Hstep s Hf Hs) as (Hf1 & Hs1 & Hl1 & art1 & Hj1 & Ht1).
  destruct (Hstep _ Hf1 Hs1) as (_ & _ & Hl2 & art2 & Hj2 & Ht2).
  cbv zeta in *. exists art1, art2.
  rewrite Hj2, Ht2, Hl2, Hj1, Ht1, Hl1.
  replace (lastId (vars s) + 1 + 1) with (lastId (vars s) + 2) by lia.
  split; [by rewrite <- app_assoc |]. split; [done |].
  intros Hok. by rewrite !Hok, <- app_assoc.
Qed.

Lemma met_twice_added_twice_witness :
  updateDatabase configuredTwice emptyStore ∅
  = Finished
      {| tracks := [songRowOf 0 "/music/folder.jpg";
                    songRowOf 1 "/music/folder.jpg"];
         journal :=
           [SelectTracks;
            insertStatement 0 "/music/song.mp3" 1000 song "/music/folder.jpg";
            insertStatement 1 "/music/song.mp3" 1000 song "/music/folder.jpg";
            SelectDistinctMediaArt] |} ∅
  ∧ ∃ art1 art2,
      journal (store (visit configuredTwice [] false "/music/song.mp3"
                        (visit configuredTwice [] false "/music/song.mp3"
                           (scanStart configuredTwice emptyStore ∅))))
      = [SelectTracks;
         insertStatement 0 "/music/song.mp3" 1000 song art1;
         insertStatement 1 "/music/song.mp3" 1000 song art2].
Proof.
  split; [vm_compute; reflexivity |].
  destruct (met_twice_added_twice configuredTwice [] false "/music/song.mp3"
              (scanStart configuredTwice emptyStore ∅))
    as (art1 & art2 & Hj & _);
    [reflexivity | reflexivity | vm_compute; reflexivity
    | apply noMediaSound_empty | vm_compute; reflexivity |].
  exists art1, art2. exact Hj.
Defined.

(** ** Random media art *)

Lemma pickMediaArt_chosen rnd keep rows :
  chosenAmong rows keep (pickMediaArt rnd keep rows).
Proof.
  unfold pickMediaArt, chosenAmong.
  set (candidates := Sql.distinctMediaArt (filter (λ r, keep r = true) rows)).
  assert (Hin : ∀ a, a ∈ candidates
                     ↔ a ≠ EmptyString
                       ∧ ∃ r, r ∈ rows ∧ keep r = true ∧ mediaArt r = a).
  { intros a. unfold candidates. rewrite elem_of_distinctMediaArt.
    split; intros [Hne (r & Hr & Ha)]; (split; [done |]); exists r.
    - apply list_elem_of_filter in Hr as [? ?]. done.
    - destruct Ha as [? ?]. split; [by apply list_elem_of_filter | done]. }
  destruct (candidates !! (rnd `mod` length candidates)%nat) as [a|] eqn:Ha.
  - cbn [default]. apply list_elem_of_lookup_2, Hin in Ha as [Hne Hr].
    destruct a; [done |]. exact Hr.
  - cbn [default Qt.isEmpty]. apply lookup_ge_None in Ha.
    destruct candidates as [|c cs] eqn:Hc.
    + intros r Hr Hk. destruct (mediaArt r) as [|x rest] eqn:Hart; [done |].
      exfalso. apply (not_elem_of_nil (String x rest)), Hin.
      split; [done |]. by exists r.
    + exfalso.
      pose proof (Nat.mod_upper_bound rnd (length (c :: cs))) as Hlt.
      cbn [length] in *. lia.
Qed.

Lemma equal_spec fold column bound :
  Sql.equal fold column bound = true
  ↔ ∃ text value, column = Some text ∧ bound = Some value
                  ∧ fold text = fold value.
Proof.
  unfold Sql.equal. destruct column as [text|], bound as [value|].
  - rewrite String.eqb_eq. split.
    + intros Heq. by exists text, value.
    + by intros (? & ? & [= <-] & [= <-] & ?).
  - split; [done | by intros (? & ? & _ & ? & _)].
  - split; [done | by intros (? & ? & ? & _)].
  - split; [done | by intros (? & ? & ? & _)].
Qed.

(** X17: on an initialised object whose query succeeds, each of the four
    queries for random media art answers the non-empty media art of a row
    that its [WHERE] clause keeps, and answers nothing only when no such
    row has media art.  The clause keeps any row; the rows of the artist;
    of the artist and album, both compared without regard to the case of
    ASCII letters; of the genre, compared exactly.  A comparison is true
    of no [NULL]: a row whose column is [NULL], as the rows of a file
    without that tag are, is kept for no argument, the empty string
    included, and a null argument keeps no row. *)
Theorem random_art_is_of_a_kept_row (w : World) (rnd : nat)
    (a al g : Nullable) (lu : LibraryUtils) :
  mDatabaseInitialized lu = true →
  execOk w (length (journal (database lu))) = true →
  let rows := tracks (database lu) in
  chosenAmong rows (λ _, true) (randomMediaArt w rnd lu).1
  ∧ chosenAmong rows (λ r, sameNocase (artist r) a)
      (randomMediaArtForArtist w rnd a lu).1
  ∧ chosenAmong rows
      (λ r, sameNocase (artist r) a && sameNocase (album r) al)
      (randomMediaArtForAlbum w rnd a al lu).1
  ∧ chosenAmong rows (λ r, same (genre r) g)
      (randomMediaArtForGenre w rnd g lu).1
  ∧ (∀ column bound,
       sameNocase column bound = true
       ↔ ∃ text value, column = Some text ∧ bound = Some value
                       ∧ Sql.nocase text = Sql.nocase value)
  ∧ (∀ column bound,
       same column bound = true
       ↔ ∃ text, column = Some text ∧ bound = Some text)
  ∧ (randomMediaArtForArtist w rnd None lu).1 = EmptyString
  ∧ (randomMediaArtForAlbum w rnd None al lu).1 = EmptyString
  ∧ (randomMediaArtForAlbum w rnd a None lu).1 = EmptyString
  ∧ (randomMediaArtForGenre w rnd None lu).1 = EmptyString.
Proof.
  intros Hinit Hok rows.
  assert (Hnone : ∀ keep, (∀ r, keep r = false) →
                          pickMediaArt rnd keep rows = EmptyString).
  { intros keep Hkeep. unfold pickMediaArt.
    rewrite (filter_none (λ r, keep r = true) rows); [done |].
    apply Forall_forall. intros r _. by rewrite Hkeep. }
  unfold randomMediaArt, randomMediaArtForArtist, randomMediaArtForAlbum,
    randomMediaArtForGenre, query, exec.
  rewrite Hinit, Hok. cbn [negb Sql.apply fst].
  split; [apply pickMediaArt_chosen |].
  split; [apply pickMediaArt_chosen |].
  split; [apply pickMediaArt_chosen |].
  split; [apply pickMediaArt_chosen |].
  split; [intros column bound; apply equal_spec |].
  split.
  { intros column bound. unfold same. rewrite equal_spec. split.
    - intros (text & value & -> & -> & ->). by exists value.
    - intros (text & -> & ->). by exists text, text. }
  split; [apply Hnone; intros r; unfold sameNocase; by destruct (artist r) |].
  split.
  { apply Hnone. intros r. unfold sameNocase. by destruct (artist r). }
  split.
  { apply Hnone. intros r. unfold sameNocase.
    destruct (Sql.equal Sql.nocase (artist r) a); [| done].
    by destruct (album r). }
  apply Hnone. intros r. unfold same. by destruct (genre r).
Qed.

Lemma random_art_is_of_a_kept_row_witness :
  chosenAmong [songRow "/music/folder.jpg"]
    (λ r, sameNocase (artist r) (Some "a"))
    (randomMediaArtForArtist scenario 5 (Some "a") withSong).1
  ∧ (randomMediaArtForArtist scenario 5 (Some "a") withSong).1
    = "/music/folder.jpg"
  ∧ genre (songRow "/music/folder.jpg") = None
  ∧ (randomMediaArtForGenre scenario 5 (Some EmptyString) withSong).1
    = EmptyString.
Proof.
  split; [| repeat split; vm_compute; reflexivity].
  apply (random_art_is_of_a_kept_row scenario 5 (Some "a") (Some "alb")
           (Some EmptyString) withSong eq_refl eq_refl).
Defined.

(** ** Initialisation *)

Lemma mustCreateTable_false stored :
  mustCreateTable stored = false
  ↔ ∃ names, stored = Some names ∧ length names = length fields
             ∧ ∀ n, n ∈ names → n ∈ fields.
Proof.
  unfold mustCreateTable. destruct stored as [names|].
  - destruct (length names =? length fields)%nat eqn:Hlen.
    + apply Nat.eqb_eq in Hlen. split.
      * intros Hex. exists names. split; [done |]. split; [done |].
        intros n Hn. destruct (decide (n ∈ fields)) as [|Hnot]; [done |].
        assert (existsb (λ n, negb (contains fields n)) names = true).
        { apply existsb_exists. exists n.
          split; [by apply list_elem_of_In |].
          unfold contains. by rewrite bool_decide_eq_false_2. }
        congruence.
      * intros (names' & [= <-] & _ & Hall).
        destruct (existsb _ names) eqn:Hex; [| done].
        apply existsb_exists in Hex as (n & Hn%list_elem_of_In & Hnot).
        unfold contains in Hnot.
        rewrite (bool_decide_eq_true_2 _ (Hall n Hn)) in Hnot. done.
    + apply Nat.eqb_neq in Hlen. split; [done |].
      intros (names' & [= <-] & ? & _). done.
  - split; [done |]. by intros (names & ? & _).
Qed.

(** X18: initialisation leaves a table whose twelve columns all bear
    names of the expected fields as it is, sending no statement; a table
    it has created is empty; and the object is initialised only when the
    data directory and the store could be opened and the table fits or
    was created. *)
Theorem initDatabase_outcome (w : World) (rows : list Track) :
  (storedFields w = None → rows = []) →
  let lu := initDatabase w rows in
  let fits := ∃ names, storedFields w = Some names
                       ∧ length names = length fields
                       ∧ ∀ n, n ∈ names → n ∈ fields in
  mUpdating lu = false
  ∧ (mCreatedTable lu = true →
     mDatabaseInitialized lu = true ∧ tracks (database lu) = [] ∧ ¬ fits)
  ∧ (mDatabaseInitialized lu = true →
     mkpathData w = true ∧ databaseOpens w = true
     ∧ (mCreatedTable lu = true ∨ fits))
  ∧ (mkpathData w = true → databaseOpens w = true → fits →
     lu = {| mDatabaseInitialized := true; mCreatedTable := false;
             mUpdating := false;
             database := {| tracks := rows; journal := [] |} |}).
Proof.
  intros Hnone lu fits.
  pose proof (mustCreateTable_false (storedFields w)) as Hfits.
  fold fits in Hfits. unfold lu, initDatabase.
  destruct (mkpathData w); cbn [negb]; [| by repeat split].
  destruct (databaseOpens w); cbn [negb]; [| by repeat split].
  destruct (mustCreateTable (storedFields w)) eqn:Hm.
  - assert (Hno : ¬ fits) by (intros Hf; apply Hfits in Hf; done).
    destruct (storedFields w) as [names|] eqn:Hstored.
    + unfold exec. simpl.
      destruct (execOk w 0); simpl;
        (destruct (execOk w 1); simpl;
         repeat split; try done; intuition done).
    + rewrite (Hnone eq_refl). unfold exec. simpl.
      destruct (execOk w 0); simpl; repeat split; try done;
        intuition done.
  - assert (Hyes : fits) by (by apply Hfits).
    repeat split; try done; intuition done.
Qed.

Lemma initDatabase_outcome_witness :
  mCreatedTable (initDatabase scenario []) = true
  ∧ tracks (database (initDatabase scenario [])) = [].
Proof.
  destruct (initDatabase_outcome scenario [] (λ _, eq_refl))
    as (_ & Hcreated & _).
  split; [reflexivity |]. by destruct (Hcreated eq_refl) as (_ & Ht & _).
Defined.

(** ** Suffixes *)

Lemma video_suffix_is_not_audio suffix :
  suffix ∈ videoMimeTypesExtensions →
  contains mimeTypesExtensions suffix = false.
Proof.
  intros Hin.
  assert (Hall : Forall (λ x, contains mimeTypesExtensions x = false)
                   videoMimeTypesExtensions).
  { unfold videoMimeTypesExtensions. repeat constructor. }
  rewrite Forall_forall in Hall. by apply Hall.
Qed.

(** X19: a file that is not in the index and whose suffix is one of the
    video suffixes is not added, whatever its content is recognised as:
    the visit sends no statement, resolves no media art and gives no
    id. *)
Theorem video_files_are_not_added (w : World) (blacklist : list QString)
    (prefer : bool) (path : QString) (s : Walk) :
  files (vars s) !! path = None →
  Qt.suffix path ∈ videoMimeTypesExtensions →
  let s' := visit w blacklist prefer path s in
  store s' = store s ∧ art s' = art s
  ∧ lastId (vars s') = lastId (vars s)
  ∧ filesToRemove (vars s') = filesToRemove (vars s)
  ∧ files (vars s') = files (vars s).
Proof.
  intros Hf Hv%video_suffix_is_not_audio. cbv zeta. unfold visit.
  destruct (isDir w path); [done |].
  destruct (negb (isReadable w path)); [done |].
  rewrite Hf. unfold visitNew.
  destruct (isNoMediaDirectory w _ _) as [noMedia cache].
  destruct noMedia; [done |].
  destruct (isBlacklisted blacklist path); [done |].
  by rewrite Hv.
Qed.

Lemma video_files_are_not_added_witness :
  let s := sampleStart scenario emptyStore in
  store (visit scenario [] false "/music/clip.mp4" s) = store s.
Proof.
  intros s.
  apply (video_files_are_not_added scenario [] false "/music/clip.mp4" s).
  - vm_compute. reflexivity.
  - apply (bool_decide_unpack _). vm_compute. reflexivity.
Defined.

(** ** Media art that was missing when the scan started *)

(** X20: the first query returns one row per id.  In a scan that finished
    and in which no statement failed, media art that the row returned for
    an indexed file names and that did not exist when the index was read
    is named by no row at the end, and no removable file of that path is
    left in the media art directory: this also holds when the walk has
    written the file again from the embedded art of the track and set the
    rows of the file to it. *)
Theorem missing_art_is_cleared_at_the_end (w : World) (db : Database)
    (disk : MediaArtDir) (db' : Database) (disk' : MediaArtDir) :
  updateDatabase w db disk = Finished db' disk' →
  (∀ n, execOk w n = true) →
  ∀ r0, r0 ∈ eligibleRows w (prepareDirs (libraryDirectories w))
               (prepareDirs (blacklistedDirectories w))
               (selectTracks (tracks db)) →
    mediaArt r0 ≠ EmptyString →
    QFile_exists w disk (mediaArt r0) = false →
    (∀ r, r ∈ tracks db' → mediaArt r ≠ mediaArt r0)
    ∧ (removeOk w (mediaArt r0) = true → disk' !! mediaArt r0 = None).
Proof.
  rewrite updateDatabase_stages.
  destruct (negb (databaseOpens w)); [done |].
  destruct (negb (exec w SelectTracks db).1); [done |].
  cbv zeta. destruct (negb (scanWalk w db disk).1); [done |].
  rewrite selectAllMediaArt_spec. cbn [fst snd].
  intros [= <- <-] Hok r0 Hr0 Hne Hgone. cbn [tracks].
  set (s := (scanWalk w db disk).2) in *.
  set (libraries := prepareDirs (libraryDirectories w)) in *.
  set (blacklist := prepareDirs (blacklistedDirectories w)) in *.
  assert (Hsame : tracks (exec w SelectTracks db).2 = tracks db).
  { unfold exec. destruct (execOk w (length (journal db))); reflexivity. }
  pose proof (proj1 (walk_walkedFrom w blacklist (useDirectoryMediaArt w)
                       (scanEntries w) 0 (scanStart w db disk))) as Hw.
  change (walkedFrom (scanStart w db disk) s) in Hw.
  destruct Hw as (_ & _ & _ & Hex & Hcount & _).
  destruct (loaded_art w libraries blacklist disk
              (selectTracks (tracks (exec w SelectTracks db).2)))
    as (_ & _ & _ & _ & Hc).
  assert (Hdeleted :
    mediaArt r0 ∈ deletedMediaArt (mediaArtExistanceHash (vars s))).
  { rewrite Hex. unfold scanStart, startOfWalk. cbn [vars].
    apply loaded_deleted. rewrite Hsame. eauto. }
  assert (Hinv : deletedMediaArtCount (vars s)
                 = Z.of_nat (length (deletedMediaArt
                                       (mediaArtExistanceHash (vars s))))).
  { rewrite Hcount, Hex. exact Hc. }
  pose proof (clearDeletedMediaArt_all_ok w (vars s)
                (removeFiles w (filesToRemove (vars s)) (store s))
                Hinv Hok) as Hclear.
  cbn [Sql.apply] in Hclear. injection Hclear as Hclear.
  assert (Hrows : ∀ r,
    r ∈ tracks (clearDeletedMediaArt w (vars s)
                  (removeFiles w (filesToRemove (vars s)) (store s))) →
    mediaArt r ≠ mediaArt r0).
  { intros r Hr. rewrite <- Hclear in Hr.
    apply list_elem_of_fmap in Hr as (r1 & -> & _).
    destruct (Sql.isIn (mediaArtColumn r1) _) eqn:Hin.
    - unfold mediaArt at 1. cbn. intros Heq. apply Hne. by rewrite <- Heq.
    - unfold mediaArt at 1.
      destruct (mediaArtColumn r1) as [text|]; cbn.
      + cbn [Sql.isIn] in Hin. apply bool_decide_eq_false in Hin.
        intros Heq. apply Hin. by rewrite Heq.
      + intros Heq. apply Hne. by rewrite <- Heq. }
  split; [exact Hrows |].
  intros Hrm. apply eq_None_not_Some. intros [d Hd].
  apply removeUnused_lookup in Hd as [_ [Hnamed|Hkeep]]; [| congruence].
  unfold contains in Hnamed. apply bool_decide_eq_true in Hnamed.
  rewrite Hok in Hnamed.
  apply elem_of_distinctMediaArt in Hnamed as (_ & r & Hr & Hart).
  by apply (Hrows r Hr).
Qed.

Lemma missing_art_is_cleared_at_the_end_witness :
  let db' := {| tracks := [setMediaArtOf (Some EmptyString)
                             (songRow EmptyString)];
                journal := [SelectTracks; UpdateMediaArt (Some songArt) 0;
                            ClearMediaArtIn [songArt];
                            SelectDistinctMediaArt] |} in
  tracks (store (scanWalk pngArt (indexed songArt) ∅).2) = [songRow songArt]
  ∧ artFiles (art (scanWalk pngArt (indexed songArt) ∅).2) !! songArt
    = Some [Byte.x01]
  ∧ updateDatabase pngArt (indexed songArt) ∅ = Finished db' ∅
  ∧ Forall (λ r, mediaArt r ≠ songArt) (tracks db').
Proof.
  intros db'.
  assert (H : updateDatabase pngArt (indexed songArt) ∅ = Finished db' ∅)
    by (vm_compute; reflexivity).
  split; [vm_compute; reflexivity |].
  split; [vm_compute; reflexivity |].
  split; [exact H |].
  assert (Hkept : eligibleRows pngArt (prepareDirs (libraryDirectories pngArt))
                    (prepareDirs (blacklistedDirectories pngArt))
                    (selectTracks (tracks (indexed songArt)))
                  = [songRow songArt]) by (vm_compute; reflexivity).
  apply Forall_forall.
  apply (missing_art_is_cleared_at_the_end pngArt (indexed songArt) ∅ db' ∅ H
           (λ _, eq_refl) (songRow songArt)).
  - rewrite Hkept. apply list_elem_of_here.
  - discriminate.
  - vm_compute. reflexivity.
Defined.

(** * The claims on the scan as a whole *)

(** ** Library and blacklist directories in the scan *)

Lemma eligible_spec w path :
  eligible w (prepareDirs (libraryDirectories w))
    (prepareDirs (blacklistedDirectories w)) path = true
  ↔ fileExists w path = true ∧ isDir w path = false
    ∧ isReadable w path = true
    ∧ under (libraryDirectories w) path
    ∧ ¬ under (blacklistedDirectories w) path
    ∧ isFile w (Qt.path path +:+ "/.nomedia") = false.
Proof.
  unfold eligible.
  rewrite !andb_true_iff, !negb_true_iff, inLibrary_prepareDirs.
  rewrite <- (isBlacklisted_prepareDirs (blacklistedDirectories w)).
  rewrite not_true_iff_false. tauto.
Qed.

(** C9: the scan tests paths against [prepareDirs] of the configured
    library and blacklist directories, which are these directories each
    with a final separator, and against nothing else.  The first loop
    pushes on [filesToRemove] the ids of the rows whose path fails the
    test, which asks for a configured library directory and for no
    configured blacklisted directory of which, with its separator, the
    path is an extension; the walk adds no file that extends a blacklisted
    directory so; and a scan that finished, its [DELETE] succeeding, keeps
    no row of a path outside the library directories or under a
    blacklisted one.  So a directory [/a/b] is matched by [/a/b/x.mp3]
    and by no path under a sibling such as [/a/bc]. *)
Theorem prepareDirs_prefix_matching (w : World) (db : Database)
    (disk : MediaArtDir) :
  let libraries := prepareDirs (libraryDirectories w) in
  let blacklist := prepareDirs (blacklistedDirectories w) in
  let passes path :=
    fileExists w path = true ∧ isDir w path = false
    ∧ isReadable w path = true
    ∧ under (libraryDirectories w) path
    ∧ ¬ under (blacklistedDirectories w) path
    ∧ isFile w (Qt.path path +:+ "/.nomedia") = false in
  (∀ dirs, ∃ once, NoDup once ∧ (∀ c, c ∈ once ↔ c ∈ dirs)
                   ∧ prepareDirs dirs = withSlash <$> once)
  ∧ (∀ d, d ∈ libraries ↔ ∃ c, c ∈ libraryDirectories w ∧ d = withSlash c)
  ∧ (∀ d, d ∈ blacklist
          ↔ ∃ c, c ∈ blacklistedDirectories w ∧ d = withSlash c)
  ∧ (∀ d, d ∈ libraries ∨ d ∈ blacklist → Qt.endsWithChar d "/" = true)
  ∧ (∀ row, row ∈ selectTracks (tracks db) → ¬ passes (filePath row) →
       Qt.toInt (id row) ∈ filesToRemove (vars (scanStart w db disk)))
  ∧ (∀ i, i ∈ filesToRemove (vars (scanStart w db disk)) →
       ∃ row, row ∈ selectTracks (tracks db) ∧ Qt.toInt (id row) = i
              ∧ ¬ passes (filePath row))
  ∧ (∀ path i, files (vars (scanStart w db disk)) !! path = Some i →
       passes path)
  ∧ (∀ prefer path s,
       files (vars s) !! path = None →
       under (blacklistedDirectories w) path →
       let s' := visit w blacklist prefer path s in
       store s' = store s ∧ lastId (vars s') = lastId (vars s))
  ∧ (∀ db' disk',
       updateDatabase w db disk = Finished db' disk' →
       execOk w (length (journal (store (scanWalk w db disk).2))) = true →
       ∀ gone, gone ∈ selectTracks (tracks db) →
         ¬ under (libraryDirectories w) (filePath gone)
         ∨ under (blacklistedDirectories w) (filePath gone) →
         ∀ r, r ∈ tracks db' → id r ≠ Qt.toInt (id gone))
  ∧ (∀ d c rest, Qt.endsWithChar d "/" = false → c ≠ "/"%char →
       under [d] ((d +:+ "/") +:+ rest)
       ∧ ¬ under [d] (d +:+ String c rest))
  ∧ under ["/a/b"] "/a/b/x.mp3" ∧ ¬ under ["/a/b"] "/a/bc/x.mp3".
Proof.
  intros libraries blacklist passes.
  assert (Hpasses : ∀ path, eligible w libraries blacklist path = true
                            ↔ passes path) by (intros; apply eligible_spec).
  assert (Hfails : ∀ path, eligible w libraries blacklist path = false
                           ↔ ¬ passes path).
  { intros path. rewrite <- Hpasses. symmetry. apply not_true_iff_false. }
  destruct (loaded_step w libraries blacklist disk
              (selectTracks (tracks (exec w SelectTracks db).2)))
    as (_ & _ & Hfiles & _ & Hremove).
  rewrite tracks_selectTracks in Hfiles, Hremove.
  split.
  { intros dirs. exists (Qt.removeDuplicates dirs).
    split; [apply NoDup_removeDuplicatesFrom |]. split; [| done].
    intros c. unfold Qt.removeDuplicates.
    rewrite elem_of_removeDuplicatesFrom.
    split; [by intros [? _] | intros ?; split; [done | apply not_elem_of_nil]]. }
  split; [intros d; apply elem_of_prepareDirs |].
  split; [intros d; apply elem_of_prepareDirs |].
  split.
  { intros d [Hd|Hd]; apply elem_of_prepareDirs in Hd as (c & _ & ->);
      apply withSlash_ends. }
  split.
  { intros row Hrow Hnot. unfold scanStart, startOfWalk. cbn [vars].
    rewrite tracks_selectTracks. fold libraries blacklist. rewrite Hremove.
    apply list_elem_of_fmap. exists row. split; [done |].
    apply list_elem_of_filter. split; [by apply Hfails | done]. }
  split.
  { intros i. unfold scanStart, startOfWalk. cbn [vars].
    rewrite tracks_selectTracks. fold libraries blacklist. rewrite Hremove.
    intros (row & -> & [Hrow Hin]%list_elem_of_filter)%list_elem_of_fmap.
    exists row. split; [done |]. split; [done |]. by apply Hfails. }
  split.
  { intros path i. unfold scanStart, startOfWalk. cbn [vars].
    rewrite tracks_selectTracks. fold libraries blacklist. rewrite Hfiles.
    rewrite (foldl_insertNew_lookup filePath (Qt.toInt ∘ id)).
    destruct (filter _ (eligibleRows _ _ _ _)) as [|row l] eqn:Hl; [done |].
    intros _.
    assert (Hrow : row ∈ filter (λ r, filePath r = path)
                     (eligibleRows w libraries blacklist
                        (selectTracks (tracks db))))
      by (rewrite Hl; apply list_elem_of_here).
    apply list_elem_of_filter in Hrow as [<- Hrow].
    apply list_elem_of_filter in Hrow as [Hrow _]. by apply Hpasses. }
  split.
  { intros prefer path s Hnew Hunder. cbv zeta.
    apply isBlacklisted_prepareDirs in Hunder. fold blacklist in Hunder.
    unfold visit.
    destruct (isDir w path); [done |].
    destruct (negb (isReadable w path)); [done |].
    rewrite Hnew. unfold visitNew.
    destruct (isNoMediaDirectory w _ _) as [noMedia cache].
    destruct noMedia; [done |]. by rewrite Hunder. }
  split.
  { intros db' disk' Hscan Hok gone Hgone Hout r Hr.
    destruct (finished_rows w db disk db' disk' r Hscan Hr)
      as (r0 & Hr0 & Hid).
    apply (removeFiles_ids w _ _ _ Hok) in Hr0.
    rewrite Hid. intros Heq. apply Hr0. rewrite Heq.
    apply failed_rows_are_pushed; [done |].
    apply Hfails. unfold passes. tauto. }
  split.
  { intros d c rest Hd Hc. split; [| by apply not_under_sibling].
    exists d, rest. split; [apply list_elem_of_here |].
    unfold withSlash. by rewrite Hd. }
  split.
  - exists "/a/b", "x.mp3". split; [apply list_elem_of_here | reflexivity].
  - apply (not_under_sibling "/a/b" "c" "/x.mp3"); [reflexivity | discriminate].
Qed.

(** ** Files that have not changed *)

Lemma startsWith_directory stored directory :
  Qt.startsWith stored (directory +:+ "/") = true →
  Qt.startsWith stored directory = true.
Proof.
  unfold Qt.startsWith. rewrite !prefix_app.
  intros [rest ->]. exists ("/" +:+ rest). apply string_app_assoc.
Qed.

(** The media art recorded for an indexed file whose rows all name the
    same: that media art if it is empty or exists, and none otherwise. *)
Lemma recorded_art w libraries blacklist db disk path i stored :
  let l := vars (startOfWalk w libraries blacklist db disk) in
  files l !! path = Some i →
  (∀ r, r ∈ tracks db → Qt.toInt (id r) = i → mediaArt r = stored) →
  mediaArtHash l !! i
  = if Qt.isEmpty stored || QFile_exists w disk stored
    then Some stored else None.
Proof.
  intros l Hfile Hrows.
  destruct (loaded_step w libraries blacklist disk
              (selectTracks (tracks db))) as (_ & _ & Hfiles & _).
  destruct (loaded_art w libraries blacklist disk
              (selectTracks (tracks db))) as (_ & _ & _ & Harts & _).
  unfold l, startOfWalk in *. cbn [vars] in *.
  rewrite Hfiles in Hfile. rewrite Harts. clear Hfiles Harts.
  rewrite (foldl_insertNew_lookup filePath (Qt.toInt ∘ id)) in Hfile.
  rewrite (foldl_insertNew_lookup (Qt.toInt ∘ id) mediaArt).
  set (kept := eligibleRows w libraries blacklist
                 (selectTracks (tracks db))) in *.
  assert (Hkept : ∀ r, r ∈ kept → Qt.toInt (id r) = i → mediaArt r = stored).
  { intros r Hr. apply Hrows.
    apply list_elem_of_filter in Hr as [_ Hr]. by apply groupById_rows. }
  destruct (filter (λ r, filePath r = path) kept) as [|row rest] eqn:Hl;
    [done |].
  assert (Hrow : row ∈ filter (λ r, filePath r = path) kept)
    by (rewrite Hl; apply list_elem_of_here).
  apply list_elem_of_filter in Hrow as [_ Hrow].
  cbn in Hfile. injection Hfile as Hid.
  destruct (filter (λ r, (Qt.toInt ∘ id) r = i)
              (filter (artThere w disk) kept)) as [|r' rest'] eqn:Hl'.
  - destruct (Qt.isEmpty stored || QFile_exists w disk stored) eqn:Hthere;
      [| done].
    exfalso. apply (not_elem_of_nil row). rewrite <- Hl'.
    apply list_elem_of_filter. split; [done |].
    apply list_elem_of_filter. split; [| done].
    unfold artThere. rewrite (Hkept row Hrow Hid).
    apply orb_true_iff in Hthere as [Hempty|Hfile]; [left | by right].
    by destruct stored.
  - assert (Hr' : r' ∈ filter (λ r, (Qt.toInt ∘ id) r = i)
                    (filter (artThere w disk) kept))
      by (rewrite Hl'; apply list_elem_of_here).
    apply list_elem_of_filter in Hr' as [Hid' Hr'].
    apply list_elem_of_filter in Hr' as [Hart Hr'].
    pose proof (Hkept r' Hr' Hid') as Hsame. unfold artThere in Hart.
    rewrite Hsame in Hart.
    change (Some (mediaArt r')
            = if Qt.isEmpty stored || QFile_exists w disk stored
              then Some stored else None).
    rewrite Hsame.
    destruct Hart as [->|Hfile]; [done |].
    by rewrite Hfile, orb_true_r.
Qed.

(** C5, as amended: for a file of the index whose modification time is
    the one stored and whose rows all name the same media art, at
    whatever point of the walk it is met.  Media art that is manual (a
    path that goes on from the media art directory and a separator,
    without [-embedded] in it) and exists is left as it is: the visit
    changes nothing at all.  Media art that is empty, or a path that does
    not begin as the media art directory does and exists, is resolved
    again, from the directory image and, for a path, the embedded art of
    the file; [UPDATE tracks SET mediaArt] is sent for the id when the
    resolved path differs from the stored one, and only then.  Media art
    whose file no longer exists is resolved again in the same way and
    compared with no media art. *)
Theorem unchanged_file_art (w : World) (libraries blacklist : list QString)
    (prefer : bool) (db : Database) (disk : MediaArtDir) (path : QString)
    (i : Z) (stored : QString) (s : Walk) :
  let start := startOfWalk w libraries blacklist db disk in
  walkedFrom start s →
  isDir w path = false → isReadable w path = true →
  files (vars start) !! path = Some i →
  lastModified w path = default 0 (modificationTimeHash (vars start) !! i) →
  (∀ r, r ∈ tracks db → Qt.toInt (id r) = i → mediaArt r = stored) →
  let s' := visit w blacklist prefer path s in
  let extracted :=
    tagutils.mediaArtData (getTrackInfo w path (mimeTypeForFile w path)) in
  let resolvedFrom data :=
    (getTrackMediaArt w data path prefer (art s)).1 in
  (QFile_exists w disk stored = true →
   Qt.startsWith stored (mMediaArtDirectory w +:+ "/") = true →
   Qt.contains stored "-embedded" = false →
   s' = s)
  ∧ (stored = EmptyString ∨ QFile_exists w disk stored = true →
     Qt.startsWith stored (mMediaArtDirectory w) = false →
     let resolved :=
       resolvedFrom (if Qt.isEmpty stored then [] else extracted) in
     vars s' = vars s
     ∧ store s'
       = if decide (resolved = stored) then store s
         else (exec w (UpdateMediaArt (answered resolved) i) (store s)).2)
  ∧ (stored ≠ EmptyString → QFile_exists w disk stored = false →
     Qt.startsWith EmptyString (mMediaArtDirectory w) = false →
     let resolved := resolvedFrom extracted in
     vars s' = vars s
     ∧ store s'
       = if decide (resolved = EmptyString) then store s
         else (exec w (UpdateMediaArt (answered resolved) i) (store s)).2).
Proof.
  intros start (Hf & Hm & Ha & _) Hd Hr Hfile Hmtime Hrows s' extracted
    resolvedFrom.
  pose proof (recorded_art w libraries blacklist db disk path i stored
                Hfile Hrows) as Hart.
  fold start in Hart. rewrite <- Hf in Hfile. rewrite <- Hm in Hmtime.
  rewrite <- Ha in Hart.
  destruct (visit_unchanged w blacklist prefer path i s Hd Hr Hfile Hmtime)
    as (Hmanual & Hother & Hgone).
  fold s' in Hmanual, Hother, Hgone.
  split; [| split].
  - intros Hthere Hunder Hplain. apply (Hmanual stored); [| | done].
    + by rewrite Hart, Hthere, orb_true_r.
    + by apply startsWith_directory.
  - intros Hthere Houtside. apply (Hother stored); [| done].
    rewrite Hart. destruct Hthere as [->|Hthere]; [done |].
    by rewrite Hthere, orb_true_r.
  - intros Hne Hmissing Houtside. apply Hgone; [| done].
    rewrite Hart, Hmissing. by destruct stored.
Qed.

Lemma unchanged_file_art_witness :
  let w := scenario in
  let db := (exec w SelectTracks (indexed EmptyString)).2 in
  let s := startOfWalk w ["/music/"] [] db ∅ in
  tracks (store s) = [songRow EmptyString]
  ∧ tracks (store (visit w [] false "/music/song.mp3" s))
    = [songRow "/music/folder.jpg"].
Proof.
  intros w db s. split; [reflexivity |].
  destruct (unchanged_file_art w ["/music/"] [] false db ∅
              "/music/song.mp3" 0 EmptyString s)
    as (_ & H & _);
    [apply walkedFrom_refl | reflexivity | reflexivity
    | vm_compute; reflexivity | vm_compute; reflexivity | |].
  - intros r Hr _. apply list_elem_of_singleton in Hr. by subst r.
  - destruct H as [_ Hstore]; [by left | reflexivity |].
    rewrite Hstore. vm_compute. reflexivity.
Defined.

(** ** A scan in which statements fail *)

Lemma updateTrackInDatabase_sent w inDb i path info art db :
  journal (updateTrackInDatabase w inDb i path info art db)
  = journal db
    ++ (if inDb then [DeleteTrack i] else [])
    ++ [insertStatement i path (lastModified w path) info art].
Proof.
  unfold updateTrackInDatabase. rewrite exec_journal.
  destruct inDb; [by rewrite exec_journal, <- app_assoc | done].
Qed.

(** What a visit sends and what it leaves in the variables of the scan
    and in the resolver do not depend on the rows, nor on which
    statements fail. *)
Lemma visit_sameButRows w ok blacklist prefer path s1 s2 :
  sameButRows s1 s2 →
  sameButRows (visit (withExecOk ok w) blacklist prefer path s1)
    (visit w blacklist prefer path s2).
Proof.
  destruct s1 as [v1 d1 a1], s2 as [v2 d2 a2]. unfold sameButRows.
  cbn [vars store art]. intros (-> & -> & Hj).
  unfold visit, visitNew, visitUnchanged, visitChanged.
  cbn [vars store art withExecOk isDir isReadable lastModified
       mimeTypeForFile getTrackInfo mMediaArtDirectory].
  change (isNoMediaDirectory (withExecOk ok w)) with (isNoMediaDirectory w).
  change (getTrackMediaArt (withExecOk ok w)) with (getTrackMediaArt w).
  repeat (case_match; cbn [vars store art]);
    (split; [done | split; [done |]]);
    rewrite ?updateTrackInDatabase_sent, ?exec_journal; cbn [lastModified
      withExecOk]; congruence.
Qed.

Lemma walk_sameButRows w ok blacklist prefer entries n s1 s2 :
  sameButRows s1 s2 →
  (walk (withExecOk ok w) blacklist prefer entries n s1).1
  = (walk w blacklist prefer entries n s2).1
  ∧ sameButRows (walk (withExecOk ok w) blacklist prefer entries n s1).2
      (walk w blacklist prefer entries n s2).2.
Proof.
  revert n s1 s2. induction entries as [|path rest IH]; intros n s1 s2 Hs;
    [done |].
  cbn [walk]. change (appRunning (withExecOk ok w) n) with (appRunning w n).
  destruct (appRunning w n); [| done].
  apply IH. by apply visit_sameButRows.
Qed.

Lemma removeFiles_sent w ids db :
  journal (removeFiles w ids db)
  = journal db ++ match ids with [] => [] | _ => [DeleteTracksIn ids] end.
Proof.
  destruct ids; cbn [removeFiles]; [by rewrite app_nil_r |].
  apply exec_journal.
Qed.

Lemma clearDeletedMediaArt_sent w l db :
  journal (clearDeletedMediaArt w l db)
  = journal db
    ++ if 0 <? deletedMediaArtCount l
       then ClearMediaArtIn
              <$> chunks (length (deletedMediaArt (mediaArtExistanceHash l)))
                    maxParametersCount
                    (deletedMediaArt (mediaArtExistanceHash l))
       else [].
Proof.
  unfold clearDeletedMediaArt.
  destruct (0 <? deletedMediaArtCount l); [| by rewrite app_nil_r].
  apply clearing_journal.
Qed.

Lemma selectAllMediaArt_sent w db :
  journal (selectAllMediaArt w db).2 = journal db ++ [SelectDistinctMediaArt].
Proof.
  unfold selectAllMediaArt.
  pose proof (exec_journal w SelectDistinctMediaArt db) as H.
  by destruct (exec w SelectDistinctMediaArt db).
Qed.

(** The statements of a scan and its ending are those of the scan in
    which other statements fail after the first query. *)
Lemma scan_sends_the_same w ok db disk :
  ok (length (journal db)) = execOk w (length (journal db)) →
  sent (updateDatabase (withExecOk ok w) db disk)
  = sent (updateDatabase w db disk)
  ∧ ending (updateDatabase (withExecOk ok w) db disk)
    = ending (updateDatabase w db disk).
Proof.
  intros Hfirst. rewrite !updateDatabase_stages.
  change (databaseOpens (withExecOk ok w)) with (databaseOpens w).
  destruct (databaseOpens w); [| done]. cbn [negb].
  assert (Hselect : exec (withExecOk ok w) SelectTracks db
                    = exec w SelectTracks db).
  { unfold exec. cbn [execOk withExecOk]. by rewrite Hfirst. }
  assert (Hstart : scanStart (withExecOk ok w) db disk = scanStart w db disk).
  { unfold scanStart. by rewrite Hselect. }
  rewrite Hselect.
  destruct (exec w SelectTracks db) as [read db1] eqn:Hread.
  cbn [fst snd]. destruct read; cbn [negb]; [| split; reflexivity].
  destruct (walk_sameButRows w ok (prepareDirs (blacklistedDirectories w))
              (useDirectoryMediaArt w) (scanEntries w) 0
              (scanStart w db disk) (scanStart w db disk))
    as [Hend (Hv & Ha & Hj)]; [done |].
  change (scanWalk (withExecOk ok w) db disk)
    with (walk (withExecOk ok w) (prepareDirs (blacklistedDirectories w))
            (useDirectoryMediaArt w) (scanEntries w) 0
            (scanStart (withExecOk ok w) db disk)).
  rewrite Hstart. fold (scanWalk w db disk) in Hend, Hv, Ha, Hj |- *.
  set (s1 := walk (withExecOk ok w) _ _ _ _ _) in *.
  rewrite Hend. destruct (scanWalk w db disk).1; cbn [negb sent ending].
  - split; [| done].
    rewrite !selectAllMediaArt_sent, !clearDeletedMediaArt_sent,
      !removeFiles_sent.
    by rewrite Hv, Hj.
  - done.
Qed.

